(** * MentraOS Python SDK: event subscription, dispatch and resource tracking

    A shallow embedding of [mentra_sdk/utils.py] (language codes, stream
    identifiers, [ResourceTracker]) and [mentra_sdk/events.py]
    ([EventManager]), with the properties of the specification stated and
    settled against it.

    Conventions of the embedding:
    - a Python [str] is the list of its Unicode code points ([list N]);
    - a raised exception is a value [Raise e]; state written before the raise
      stays written, as in Python;
    - function objects are compared by identity: user functions carry an
      identifier, closures created by the SDK carry the identifier they were
      allocated with (or the variables they close over, when those determine
      them);
    - user-supplied code (handlers, cleanup functions, timer callbacks) is
      opaque: what it does is a parameter of the model;
    - [asyncio.create_task] needs a running event loop: the registration
      methods of [EventManager] are given as called under a running loop,
      and with a flag [loop_running] where a property depends on the loop;
    - what runs while a coroutine of the SDK is suspended at an [await] is a
      parameter too: for [dispose_async], the tasks that finish and the
      tasks that are tracked in the meantime. *)

From Stdlib Require Import Ascii String QArith.
From stdpp Require Import gmap list.

Set Default Proof Using "Type".

#[local] Close Scope Q_scope.

(** ** Python values shared by both modules *)

(** A [str]: the sequence of its code points. *)
Abbreviation str := (list N).

(** A [str] literal of the source, written with ASCII characters. *)
Definition lit (s : string) : str := N_of_ascii <$> list_ascii_of_string s.
#[global] Arguments lit : simpl never.

Definition hyphen : N := 45.

(** The exceptions the modelled code raises or lets through.  [ValueError]
    and [RuntimeError] carry their message; [AttributeError] carries the
    name of the attribute that was not found (its message also names the
    class of the object, which the model does not have). *)
Inductive exn : Type :=
| ValueError (msg : str)
| RuntimeError (msg : str)
| AttributeError (attribute : str)
| CancelledError
| UserError (code : nat).

#[global] Instance exn_eq_dec : EqDecision exn.
Proof. solve_decision. Defined.

(** The outcome of a call: a returned value or a raised exception. *)
Inductive result (A : Type) : Type :=
| Ok (a : A)
| Raise (e : exn).
Arguments Ok {A} a.
Arguments Raise {A} e.

Definition is_ok {A} (r : result A) : bool :=
  match r with Ok _ => true | Raise _ => false end.

(** ** utils.py: language codes and stream identifiers *)

Module Utils.

(** [s.split(sep)] for a one-character separator: the maximal pieces between
    the occurrences of [sep]; never the empty list. *)
Fixpoint split (sep : N) (s : str) : list str :=
  match s with
  | [] => [[]]
  | c :: s' =>
      if N.eqb c sep then [] :: split sep s'
      else match split sep s' with
           | p :: ps => (c :: p) :: ps
           | [] => [[c]]
           end
  end.

Section LanguageCodes.

(** The Unicode database behind [str.isalpha]: whether a code point is a
    letter.  The table is not part of the repository. *)
Variable alphabetic : N -> bool.

(** [s.isalpha()]: at least one character, and all of them letters. *)
Definition isalpha (s : str) : bool :=
  match s with
  | [] => false
  | _ => forallb alphabetic s
  end.

(** utils.py, [is_valid_language_code]. *)
Definition is_valid_language_code (code : str) : bool :=
  match code with
  | [] => false
  | _ =>
      match split hyphen code with
      | [p0] => (length p0 =? 2) && isalpha p0
      | [p0; p1] =>
          (length p0 =? 2) && isalpha p0 && (length p1 =? 2) && isalpha p1
      | _ => false
      end
  end.

(** utils.py, [create_transcription_stream]. *)
Definition create_transcription_stream (language : str) : result str :=
  if negb (is_valid_language_code language)
  then Raise (ValueError (lit "Invalid language code: " ++ language))
  else Ok (lit "transcription:" ++ language).

(** utils.py, [create_translation_stream]. *)
Definition create_translation_stream (source_language target_language : str)
  : result str :=
  if negb (is_valid_language_code source_language)
  then Raise (ValueError (lit "Invalid source language code: " ++ source_language))
  else if negb (is_valid_language_code target_language)
  then Raise (ValueError (lit "Invalid target language code: " ++ target_language))
  else Ok (lit "translation:" ++ source_language ++ lit ":" ++ target_language).

End LanguageCodes.

(** The letters of the ASCII range, on which every Unicode database agrees. *)
Definition ascii_letter (c : N) : bool :=
  ((65 <=? c) && (c <=? 90) || (97 <=? c) && (c <=? 122))%N.

(** The shape the specification gives a language code: exactly two letters,
    or two letters, a hyphen and two letters. *)
Definition two_letters (alphabetic : N -> bool) (s : str) : Prop :=
  exists a b, s = [a; b] /\ alphabetic a = true /\ alphabetic b = true.

Definition language_code_shape (alphabetic : N -> bool) (s : str) : Prop :=
  two_letters alphabetic s \/
  exists l r, s = l ++ hyphen :: r /\
              two_letters alphabetic l /\ two_letters alphabetic r.

End Utils.

(** ** events.py: the EventManager *)

Module Events.

(** Event payloads ([Any] in the source): the shapes the SDK distinguishes.
    [VCustomMessage action payload] is a [CustomMessage] object, read through
    its [action] and [payload] attributes; [VObject] is an object of some
    other class, without these attributes, known by its identity. *)
Inductive value : Type :=
| VNone
| VInt (z : Z)
| VStr (s : str)
| VObject (id : nat)
| VCustomMessage (action : str) (payload : value).

(** A function object supplied by the application.  [fn_id] is its identity;
    [is_coroutine_function] is what [inspect.iscoroutinefunction] answers
    for it ([async def] or plain [def]). *)
Record function : Type := {
  fn_id : nat;
  is_coroutine_function : bool
}.

#[global] Instance function_eq_dec : EqDecision function.
Proof. solve_decision. Defined.

(** What is stored in a handler list: a function of the application, or the
    closure [message_handler] that [on_custom_message] builds around one.
    Each closure is a new object; [closure_id] is its identity. *)
Inductive handler : Type :=
| User (f : function)
| MessageHandler (closure_id : nat) (action : str) (inner : function).

#[global] Instance handler_eq_dec : EqDecision handler.
Proof. solve_decision. Defined.

(** The closure [cleanup] returned by [_add_handler]: it is determined by the
    variables it closes over, the event type and the handler (and [self], the
    manager it is invoked on). *)
Record CleanupFunction : Type := {
  cleanup_event_type : str;
  cleanup_handler : handler
}.

(** The fields of an EventManager.  [subscription_tasks] are the tasks started
    with [asyncio.create_task(self._ensure_subscription(event_type))];
    [closures] counts the [message_handler] closures allocated so far. *)
Record EventManager : Type := {
  _handlers : gmap str (list handler);
  _last_transcription_cleanup : option CleanupFunction;
  _last_translation_cleanup : option CleanupFunction;
  subscription_tasks : list str;
  closures : nat
}.

(** [EventManager.__init__]. *)
Definition new : EventManager :=
  {| _handlers := ∅;
     _last_transcription_cleanup := None;
     _last_translation_cleanup := None;
     subscription_tasks := [];
     closures := 0 |}.

Definition set_handlers (d : gmap str (list handler)) (m : EventManager)
  : EventManager :=
  {| _handlers := d;
     _last_transcription_cleanup := _last_transcription_cleanup m;
     _last_translation_cleanup := _last_translation_cleanup m;
     subscription_tasks := subscription_tasks m;
     closures := closures m |}.

Definition set_last_transcription_cleanup (c : option CleanupFunction)
  (m : EventManager) : EventManager :=
  {| _handlers := _handlers m;
     _last_transcription_cleanup := c;
     _last_translation_cleanup := _last_translation_cleanup m;
     subscription_tasks := subscription_tasks m;
     closures := closures m |}.

Definition set_last_translation_cleanup (c : option CleanupFunction)
  (m : EventManager) : EventManager :=
  {| _handlers := _handlers m;
     _last_transcription_cleanup := _last_transcription_cleanup m;
     _last_translation_cleanup := c;
     subscription_tasks := subscription_tasks m;
     closures := closures m |}.

Definition create_subscription_task (event_type : str) (m : EventManager)
  : EventManager :=
  {| _handlers := _handlers m;
     _last_transcription_cleanup := _last_transcription_cleanup m;
     _last_translation_cleanup := _last_translation_cleanup m;
     subscription_tasks := subscription_tasks m ++ [event_type];
     closures := closures m |}.

Definition allocate_closure (m : EventManager) : EventManager :=
  {| _handlers := _handlers m;
     _last_transcription_cleanup := _last_transcription_cleanup m;
     _last_translation_cleanup := _last_translation_cleanup m;
     subscription_tasks := subscription_tasks m;
     closures := S (closures m) |}.

(** [d[key]] on a [defaultdict(list)]: a missing key is first bound to a new
    empty list, which is the value read. *)
Definition defaultdict_getitem (key : str) (d : gmap str (list handler))
  : list handler * gmap str (list handler) :=
  match d !! key with
  | Some l => (l, d)
  | None => ([], <[key := []]> d)
  end.

(** [l.remove(x)]: drops the first element equal to [x]; [None] stands for
    the [ValueError] raised when there is none. *)
Fixpoint list_remove (x : handler) (l : list handler) : option (list handler) :=
  match l with
  | [] => None
  | y :: l' =>
      if decide (y = x) then Some l'
      else match list_remove x l' with
           | Some r => Some (y :: r)
           | None => None
           end
  end.

(** What [asyncio.create_task] raises when the calling thread has no
    running event loop. *)
Definition no_running_loop : exn :=
  RuntimeError (lit "no running event loop").

(** [EventManager._add_handler], called with or without a running event
    loop.  The handler is appended first; for a first handler
    [asyncio.create_task] then starts the subscription task, or raises
    where no loop is running, before the closure [cleanup] is built: the
    handler stays in the list and the caller gets no cleanup function. *)
Definition _add_handler_call (loop_running : bool) (event_type : str)
  (h : handler) (m : EventManager) : result CleanupFunction * EventManager :=
  let '(l, d) := defaultdict_getitem event_type (_handlers m) in
  let l' := l ++ [h] in
  let m1 := set_handlers (<[event_type := l']> d) m in
  let cleanup := {| cleanup_event_type := event_type; cleanup_handler := h |} in
  if length l' =? 1 then
    if loop_running then (Ok cleanup, create_subscription_task event_type m1)
    else (Raise no_running_loop, m1)
  else (Ok cleanup, m1).

(** [EventManager._add_handler] called where an event loop is running (in
    a coroutine or a callback of the loop), so that [asyncio.create_task]
    returns: the call returns its closure [cleanup]. *)
Definition _add_handler (event_type : str) (h : handler) (m : EventManager)
  : CleanupFunction * EventManager :=
  let '(l, d) := defaultdict_getitem event_type (_handlers m) in
  let l' := l ++ [h] in
  let m1 := set_handlers (<[event_type := l']> d) m in
  let m2 := if length l' =? 1 then create_subscription_task event_type m1 else m1 in
  ({| cleanup_event_type := event_type; cleanup_handler := h |}, m2).

(** Invoking the closure [cleanup] of [_add_handler]. *)
Definition cleanup (c : CleanupFunction) (m : EventManager) : EventManager :=
  let event_type := cleanup_event_type c in
  let '(l, d) := defaultdict_getitem event_type (_handlers m) in
  match list_remove (cleanup_handler c) l with
  | Some l' =>
      let d1 := <[event_type := l']> d in
      if length l' =? 0 then set_handlers (delete event_type d1) m
      else set_handlers d1 m
  | None => set_handlers d m
  end.

(** The handlers registered for an event type (none when it has no entry). *)
Definition registered (event_type : str) (m : EventManager) : list handler :=
  default [] (_handlers m !! event_type).

(** [EventManager.on], called where an event loop is running. *)
Definition on (event_type : str) (h : handler) (m : EventManager)
  : CleanupFunction * EventManager :=
  _add_handler event_type h m.

(** [EventManager.on], called with or without a running event loop. *)
Definition on_call (loop_running : bool) (event_type : str) (h : handler)
  (m : EventManager) : result CleanupFunction * EventManager :=
  _add_handler_call loop_running event_type h m.

(** [EventManager.on_button_press]. *)
Definition on_button_press (loop_running : bool) (h : handler)
  (m : EventManager) : result CleanupFunction * EventManager :=
  _add_handler_call loop_running (lit "button_press") h m.

(** [EventManager.on_custom_message], called where an event loop is
    running: a new closure [message_handler] over [action] and [handler] is
    registered for ["custom_message"]. *)
Definition on_custom_message (action : str) (f : function) (m : EventManager)
  : CleanupFunction * EventManager :=
  let message_handler := MessageHandler (closures m) action f in
  _add_handler (lit "custom_message") message_handler (allocate_closure m).

(** [EventManager.on_custom_message], called with or without a running
    event loop. *)
Definition on_custom_message_call (loop_running : bool) (action : str)
  (f : function) (m : EventManager) : result CleanupFunction * EventManager :=
  let message_handler := MessageHandler (closures m) action f in
  _add_handler_call loop_running (lit "custom_message") message_handler
    (allocate_closure m).

(** [on(event_type, handler)] for each handler, in order, where an event
    loop is running. *)
Definition on_each (event_type : str) (handlers : list handler)
  (m : EventManager) : EventManager :=
  foldl (fun m h => (on event_type h m).2) m handlers.

(** Invariant I1 of the specification: an entry has a non-empty list. *)
Definition entries_nonempty (m : EventManager) : Prop :=
  forall k l, _handlers m !! k = Some l -> l <> [].

(** Sample functions of an application: three plain ones, a coroutine
    function. *)
Definition f0 : function := {| fn_id := 0; is_coroutine_function := false |}.
Definition f1 : function := {| fn_id := 1; is_coroutine_function := false |}.
Definition f2 : function := {| fn_id := 2; is_coroutine_function := false |}.
Definition g0 : function := {| fn_id := 3; is_coroutine_function := true |}.



(** The application function a stored handler ends up calling. *)
Definition target (h : handler) : function :=
  match h with
  | User f => f
  | MessageHandler _ _ inner => inner
  end.

Section Dispatch.

Variable alphabetic : N -> bool.

(** The code of the application's functions: what running the body of a
    function on an argument ends in. *)
Variable body : function -> value -> result unit.

(** [EventManager.on_transcription_for_language], called with or without
    a running event loop.  When [_add_handler] raises, the assignment to
    [_last_transcription_cleanup] is not reached. *)
Definition on_transcription_for_language (loop_running : bool)
  (language : str) (h : handler) (m : EventManager)
  : result CleanupFunction * EventManager :=
  if negb (Utils.is_valid_language_code alphabetic language)
  then (Raise (ValueError (lit "Invalid language code: " ++ language)), m)
  else
    let m1 := match _last_transcription_cleanup m with
              | Some c => cleanup c m
              | None => m
              end in
    match Utils.create_transcription_stream alphabetic language with
    | Raise e => (Raise e, m1)
    | Ok stream_type =>
        match _add_handler_call loop_running stream_type h m1 with
        | (Ok c, m2) => (Ok c, set_last_transcription_cleanup (Some c) m2)
        | (Raise e, m2) => (Raise e, m2)
        end
    end.

(** [EventManager.on_transcription]. *)
Definition on_transcription (loop_running : bool) (h : handler)
  (m : EventManager) : result CleanupFunction * EventManager :=
  on_transcription_for_language loop_running (lit "en-US") h m.

(** [EventManager.on_translation_for_language], called with or without a
    running event loop. *)
Definition on_translation_for_language (loop_running : bool)
  (source_language target_language : str)
  (h : handler) (m : EventManager) : result CleanupFunction * EventManager :=
  if negb (Utils.is_valid_language_code alphabetic source_language)
  then (Raise (ValueError (lit "Invalid source language code: " ++ source_language)), m)
  else if negb (Utils.is_valid_language_code alphabetic target_language)
  then (Raise (ValueError (lit "Invalid target language code: " ++ target_language)), m)
  else
    let m1 := match _last_translation_cleanup m with
              | Some c => cleanup c m
              | None => m
              end in
    match Utils.create_translation_stream alphabetic source_language target_language with
    | Raise e => (Raise e, m1)
    | Ok stream_type =>
        match _add_handler_call loop_running stream_type h m1 with
        | (Ok c, m2) => (Ok c, set_last_translation_cleanup (Some c) m2)
        | (Raise e, m2) => (Raise e, m2)
        end
    end.

(** What an application may ask of the registry, in any order; each
    request is a call made with or without a running event loop. *)
Inductive request : Type :=
| OnTranscriptionForLanguage (language : str) (h : handler)
| OnTranscription (h : handler)
| OnTranslationForLanguage (source_language target_language : str) (h : handler)
| OnButtonPress (h : handler)
| OnCustomMessage (action : str) (f : function)
| InvokeCleanup (c : CleanupFunction).

Definition serve (loop_running : bool) (r : request) (m : EventManager)
  : EventManager :=
  match r with
  | OnTranscriptionForLanguage language h =>
      (on_transcription_for_language loop_running language h m).2
  | OnTranscription h => (on_transcription loop_running h m).2
  | OnTranslationForLanguage source_language target_language h =>
      (on_translation_for_language loop_running source_language
         target_language h m).2
  | OnButtonPress h => (on_button_press loop_running h m).2
  | OnCustomMessage action f =>
      (on_custom_message_call loop_running action f m).2
  | InvokeCleanup c => cleanup c m
  end.

Definition serve_all (loop_running : bool) (rs : list request)
  (m : EventManager) : EventManager :=
  foldl (fun m r => serve loop_running r m) m rs.

(** What a call returns: [None], or a coroutine object [f(arg)] whose body
    runs only if somebody awaits it. *)
Inductive retval : Type :=
| RNone
| RCoroutine (f : function) (arg : value).

(** A body that was executed, with its argument. *)
Definition execution : Type := handler * value.

(** Running the body of an application function to its end. *)
Definition run_body (f : function) (arg : value)
  : list execution * result retval :=
  ([(User f, arg)],
   match body f arg with Ok _ => Ok RNone | Raise e => Raise e end).

(** The call [f(arg)]: a coroutine function only builds a coroutine. *)
Definition call_function (f : function) (arg : value)
  : list execution * result retval :=
  if is_coroutine_function f then ([], Ok (RCoroutine f arg))
  else run_body f arg.

(** The call [h(arg)] of a stored handler.  For [message_handler]: the
    argument's [action] is compared with the closure's, and on a match the
    result of [handler(message.payload)] is returned (both branches of the
    source's [iscoroutinefunction] test are this same call). *)
Definition call (h : handler) (arg : value) : list execution * result retval :=
  match h with
  | User f => call_function f arg
  | MessageHandler _ action inner =>
      match arg with
      | VCustomMessage a payload =>
          if decide (a = action) then
            let '(t, r) := call_function inner payload in ((h, arg) :: t, r)
          else ([(h, arg)], Ok RNone)
      | _ => ([(h, arg)], Raise (AttributeError (lit "action")))
      end
  end.

(** What [emit] puts in [tasks]: the coroutine [handler(data)], or the
    future of [run_in_executor(None, handler, data)]. *)
Inductive awaitable : Type :=
| Coroutine (f : function) (arg : value)
| ExecutorFuture (h : handler) (arg : value).

(** Whether an execution is one of the body of the function [f]. *)
Definition is_execution_of (f : function) (e : execution) : bool :=
  bool_decide (e.1 = User f).

(** One iteration of the loop over the snapshot.
    [inspect.iscoroutinefunction(handler)] is the flag of a function of the
    application and false for [message_handler], a plain [def].  Neither
    branch raises for a callable of one argument (a coroutine function
    builds its coroutine, the executor takes the job), so the [except] of
    the loop is not reached. *)
Definition schedule (h : handler) (data : value) : awaitable :=
  match h with
  | User f => if is_coroutine_function f then Coroutine f data
              else ExecutorFuture h data
  | MessageHandler _ _ _ => ExecutorFuture h data
  end.

(** Driving one awaitable to completion. *)
Definition complete (a : awaitable) : list execution * result retval :=
  match a with
  | Coroutine f arg => run_body f arg
  | ExecutorFuture h arg => call h arg
  end.

Definition first_exception (rs : list (result retval)) : option exn :=
  list_find (fun r => negb (is_ok r)) rs ≫= fun '(_, r) =>
    match r with Raise e => Some e | Ok _ => None end.

(** [await asyncio.gather] over the tasks: every awaitable
    is driven to completion; with [return_exceptions] the exceptions are
    results like the others, without it the first one is raised to the
    awaiter.  The results are in the order of the tasks.  The executions
    are listed in that order too, which is one of the orders the program
    can run them in: the thread pool runs plain handlers side by side,
    and the coroutines interleave at their suspensions.  Only what does
    not depend on the order of the executions of different handlers
    carries over to the program. *)
Definition gather (return_exceptions : bool) (tasks : list awaitable)
  : list execution * result (list (result retval)) :=
  let done := complete <$> tasks in
  let executed := concat (fst <$> done) in
  let results := snd <$> done in
  if return_exceptions then (executed, Ok results)
  else match first_exception results with
       | Some e => (executed, Raise e)
       | None => (executed, Ok results)
       end.

(** What one [emit] did: the bodies it executed, the results [gather]
    handed back (which [emit] drops), the errors it logged, and how it
    ended for its caller. *)
Record emission : Type := {
  executed : list execution;
  results : list (result retval);
  logged : list exn;
  outcome : result unit
}.

(** [EventManager.emit]. *)
Definition emit (event_type : str) (data : value) (m : EventManager)
  : emission :=
  match _handlers m !! event_type with
  | None => {| executed := []; results := []; logged := []; outcome := Ok () |}
  | Some l =>
      let handlers := l in
      let tasks := (fun h => schedule h data) <$> handlers in
      match tasks with
      | [] => {| executed := []; results := []; logged := []; outcome := Ok () |}
      | _ =>
          match gather true tasks with
          | (ex, Ok rs) =>
              {| executed := ex; results := rs; logged := []; outcome := Ok () |}
          | (ex, Raise e) =>
              {| executed := ex; results := []; logged := [e]; outcome := Ok () |}
          end
      end
  end.

End Dispatch.

End Events.

(** ** utils.py: the ResourceTracker *)

Module Tracker.

(** What is handed to [call_later]: a callable of the application, or the
    closure [interval_callback] of [set_interval], which closes over its
    [cancelled] variable (a cell), the application's callback and the
    interval. *)
Inductive callback : Type :=
| UserCallback (id : nat)
| IntervalCallback (cell : nat) (callback : nat) (interval : Q).

(** A tracked cleanup function: one of the application, the closure [cleanup]
    of [track_timer] (over the timer) or the closure [cancel] of
    [set_interval] (over the [cancelled] cell). *)
Inductive CleanupFunction : Type :=
| UserCleanup (id : nat)
| TimerCleanup (timer : nat)
| IntervalCancel (cell : nat).

#[global] Instance CleanupFunction_eq_dec : EqDecision CleanupFunction.
Proof. solve_decision. Defined.

(** An [asyncio.TimerHandle]: [th_pending] until the loop has run it. *)
Record TimerHandle : Type := {
  th_callback : callback;
  th_delay : Q;
  th_cancelled : bool;
  th_pending : bool
}.

(** What the tracker and the loop do to the outside, in order. *)
Inductive effect : Type :=
| TimerCancel (timer : nat)
| TaskCancel (task : nat)
| TaskAwait (task : nat)
| CleanupCall (c : CleanupFunction)
| AsyncCleanupCall (id : nat)
| CallbackCall (callback : nat) (interval_cell : option nat)
| Print (e : exn)
| LoopException (e : exn).

#[global] Instance effect_eq_dec : EqDecision effect.
Proof. solve_decision. Defined.

(** The objects around a tracker: the timer handles of the event loop (a
    handle is known by its index), the [cancelled] variables of the
    [set_interval] calls so far, the tasks that are done, and the effects
    so far. *)
Record World : Type := {
  handles : list TimerHandle;
  cells : list bool;
  done_tasks : gset nat;
  log : list effect
}.

(** The fields of a ResourceTracker.  [_tasks] is a [WeakSet]; tasks are
    taken to stay referenced, so none drops out by collection. *)
Record ResourceTracker : Type := {
  _cleanup_functions : list CleanupFunction;
  _async_cleanup_functions : list nat;
  _timers : list nat;
  _tasks : gset nat;
  _disposed : bool
}.

(** [ResourceTracker.__init__]. *)
Definition new : ResourceTracker :=
  {| _cleanup_functions := [];
     _async_cleanup_functions := [];
     _timers := [];
     _tasks := ∅;
     _disposed := false |}.

Definition empty_world : World :=
  {| handles := []; cells := []; done_tasks := ∅; log := [] |}.

(** *** Computations over a tracker and its world, with exceptions *)

Definition State : Type := ResourceTracker * World.

Definition M (A : Type) : Type := State -> result A * State.

Definition ret {A} (a : A) : M A := fun s => (Ok a, s).

Definition raise {A} (e : exn) : M A := fun s => (Raise e, s).

Definition bind {A B} (c : M A) (k : A -> M B) : M B :=
  fun s => match c s with
           | (Ok a, s') => k a s'
           | (Raise e, s') => (Raise e, s')
           end.

Notation "'let*' x ':=' c1 'in' c2" := (bind c1 (fun x => c2))
  (at level 10, x name, c1 at level 100, c2 at level 200).

(** [try: c except Exception as e: h e].  [CancelledError] derives from
    [BaseException] and is no [Exception]: it is not caught. *)
Definition try_except (c : M unit) (h : exn -> M unit) : M unit :=
  fun s => match c s with
           | (Ok a, s') => (Ok a, s')
           | (Raise e, s') =>
               if decide (e = CancelledError) then (Raise e, s') else h e s'
           end.

(** A handler that takes every exception: the one of the event loop around
    a callback ([except BaseException]), and an application that handles
    what its own calls raise. *)
Definition try_all (c : M unit) (h : exn -> M unit) : M unit :=
  fun s => match c s with
           | (Ok a, s') => (Ok a, s')
           | (Raise e, s') => h e s'
           end.

(** [for x in l: body x]. *)
Fixpoint for_each {A} (l : list A) (body : A -> M unit) : M unit :=
  match l with
  | [] => ret ()
  | x :: l' => let* _ := body x in for_each l' body
  end.

Definition get_tracker : M ResourceTracker := fun s => (Ok (fst s), s).

Definition get_world : M World := fun s => (Ok (snd s), s).

Definition modify_tracker (f : ResourceTracker -> ResourceTracker) : M unit :=
  fun s => (Ok (), (f (fst s), snd s)).

Definition modify_world (f : World -> World) : M unit :=
  fun s => (Ok (), (fst s, f (snd s))).

Definition lift {A} (r : result A) : M A := fun s => (r, s).

(** A computation started in a state satisfying [P] ends, by return or by
    exception, in a result and a state satisfying [Q]. *)
Definition hoare {A} (P : State -> Prop) (c : M A)
  (Q : result A -> State -> Prop) : Prop :=
  forall s, P s -> Q (c s).1 (c s).2.

(** The postcondition "returned normally, in a state satisfying [I]". *)
Definition ok_and {A} (I : State -> Prop) (r : result A) (s : State) : Prop :=
  is_ok r = true /\ I s.

(** A computation keeps [I], however it ends. *)
Definition keeps {A} (I : State -> Prop) (c : M A) : Prop :=
  hoare I c (fun _ s => I s).

(** *** Field updates *)

Definition append_cleanup (c : CleanupFunction) (t : ResourceTracker)
  : ResourceTracker :=
  {| _cleanup_functions := _cleanup_functions t ++ [c];
     _async_cleanup_functions := _async_cleanup_functions t;
     _timers := _timers t;
     _tasks := _tasks t;
     _disposed := _disposed t |}.

Definition append_async_cleanup (c : nat) (t : ResourceTracker)
  : ResourceTracker :=
  {| _cleanup_functions := _cleanup_functions t;
     _async_cleanup_functions := _async_cleanup_functions t ++ [c];
     _timers := _timers t;
     _tasks := _tasks t;
     _disposed := _disposed t |}.

Definition append_timer (timer : nat) (t : ResourceTracker) : ResourceTracker :=
  {| _cleanup_functions := _cleanup_functions t;
     _async_cleanup_functions := _async_cleanup_functions t;
     _timers := _timers t ++ [timer];
     _tasks := _tasks t;
     _disposed := _disposed t |}.

Definition add_task (task : nat) (t : ResourceTracker) : ResourceTracker :=
  {| _cleanup_functions := _cleanup_functions t;
     _async_cleanup_functions := _async_cleanup_functions t;
     _timers := _timers t;
     _tasks := {[task]} ∪ _tasks t;
     _disposed := _disposed t |}.

Definition set_disposed (t : ResourceTracker) : ResourceTracker :=
  {| _cleanup_functions := _cleanup_functions t;
     _async_cleanup_functions := _async_cleanup_functions t;
     _timers := _timers t;
     _tasks := _tasks t;
     _disposed := true |}.

(** The three [clear()] calls that end a disposal; [_tasks] is not cleared. *)
Definition clear_lists (t : ResourceTracker) : ResourceTracker :=
  {| _cleanup_functions := [];
     _async_cleanup_functions := [];
     _timers := [];
     _tasks := _tasks t;
     _disposed := _disposed t |}.

Definition set_handles (hs : list TimerHandle) (w : World) : World :=
  {| handles := hs; cells := cells w; done_tasks := done_tasks w; log := log w |}.

Definition set_cells (cs : list bool) (w : World) : World :=
  {| handles := handles w; cells := cs; done_tasks := done_tasks w; log := log w |}.

Definition set_done_tasks (d : gset nat) (w : World) : World :=
  {| handles := handles w; cells := cells w; done_tasks := d; log := log w |}.

Definition add_log (e : effect) (w : World) : World :=
  {| handles := handles w; cells := cells w; done_tasks := done_tasks w;
     log := log w ++ [e] |}.

Definition mark_cancelled (h : TimerHandle) : TimerHandle :=
  {| th_callback := th_callback h; th_delay := th_delay h;
     th_cancelled := true; th_pending := th_pending h |}.

Definition mark_run (h : TimerHandle) : TimerHandle :=
  {| th_callback := th_callback h; th_delay := th_delay h;
     th_cancelled := th_cancelled h; th_pending := false |}.

(** *** The loop and the objects it hands out *)

Definition perform (e : effect) : M unit := modify_world (add_log e).

(** [loop.call_later(delay, callback)]: a new pending handle. *)
Definition call_later (delay : Q) (cb : callback) : M nat :=
  let* w := get_world in
  let* _ := modify_world (set_handles (handles w ++
              [{| th_callback := cb; th_delay := delay;
                  th_cancelled := false; th_pending := true |}])) in
  ret (length (handles w)).

(** [timer.cancelled()]. *)
Definition timer_cancelled (timer : nat) : M bool :=
  let* w := get_world in
  ret (match handles w !! timer with
       | Some h => th_cancelled h
       | None => false
       end).

(** [timer.cancel()]. *)
Definition timer_cancel (timer : nat) : M unit :=
  let* w := get_world in
  let* _ := modify_world (set_handles (alter mark_cancelled timer (handles w))) in
  perform (TimerCancel timer).

(** [task.done()]. *)
Definition task_done (task : nat) : M bool :=
  let* w := get_world in ret (bool_decide (task ∈ done_tasks w)).

(** [task.cancel()]: a request; the task ends when it is next run. *)
Definition task_cancel (task : nat) : M unit := perform (TaskCancel task).

(** The [cancelled] variable of an interval: a new one, reading it, and the
    assignment [cancelled = True]. *)
Definition new_cell : M nat :=
  let* w := get_world in
  let* _ := modify_world (set_cells (cells w ++ [false])) in
  ret (length (cells w)).

Definition cell_cancelled (cell : nat) : M bool :=
  let* w := get_world in ret (default false (cells w !! cell)).

Definition cell_cancel (cell : nat) : M unit :=
  let* w := get_world in modify_world (set_cells (<[cell := true]> (cells w))).

Definition disposed_error : exn :=
  RuntimeError (lit "ResourceTracker has been disposed").

(** What [await task] on a cancelled task comes to: how the [await] ends
    for the awaiter; the tasks that have finished by then (the awaited one
    among them, unless the [CancelledError] is the awaiter's own, as for a
    task that awaits itself); and the tasks that other code has tracked on
    this tracker while the awaiter was suspended ([track_task] does not
    look at the flag). *)
Record awaited : Type := {
  await_result : result unit;
  finished_meanwhile : list nat;
  tracked_meanwhile : list nat
}.

Section Tracking.

(** The code of the application: how a call of one of its cleanup
    functions ends, how a call of one of its asynchronous cleanup
    functions (awaited when it returned a coroutine) ends, and what
    awaiting one of its cancelled tasks comes to. *)
Variable cleanup_body : nat -> result unit.
Variable async_cleanup_body : nat -> result unit.
Variable await_task : nat -> awaited.

(** [ResourceTracker.track]. *)
Definition track (cleanup : CleanupFunction) : M CleanupFunction :=
  let* t := get_tracker in
  if _disposed t then raise disposed_error
  else
    let* _ := modify_tracker (append_cleanup cleanup) in
    ret cleanup.

(** [ResourceTracker.track_async]. *)
Definition track_async (cleanup : nat) : M nat :=
  let* t := get_tracker in
  if _disposed t then raise disposed_error
  else
    let* _ := modify_tracker (append_async_cleanup cleanup) in
    ret cleanup.

(** [ResourceTracker.track_timer]. *)
Definition track_timer (timer : nat) : M CleanupFunction :=
  let* _ := modify_tracker (append_timer timer) in
  track (TimerCleanup timer).

(** [ResourceTracker.track_task]. *)
Definition track_task (task : nat) : M nat :=
  let* _ := modify_tracker (add_task task) in
  ret task.

(** [ResourceTracker.set_timeout]. *)
Definition set_timeout (cb : callback) (delay : Q) : M nat :=
  let* timer := call_later delay cb in
  let* _ := track_timer timer in
  ret timer.

(** [ResourceTracker.set_interval]. *)
Definition set_interval (cb : nat) (interval : Q) : M CleanupFunction :=
  let* cell := new_cell in
  let* _ := set_timeout (IntervalCallback cell cb interval) interval in
  track (IntervalCancel cell).

(** Calling a cleanup function. *)
Definition invoke (c : CleanupFunction) : M unit :=
  let* _ := perform (CleanupCall c) in
  match c with
  | UserCleanup id => lift (cleanup_body id)
  | TimerCleanup timer =>
      let* b := timer_cancelled timer in
      if negb b then timer_cancel timer else ret ()
  | IntervalCancel cell => cell_cancel cell
  end.

Definition cancel_timers (timers : list nat) : M unit :=
  for_each timers (fun timer =>
    let* b := timer_cancelled timer in
    if negb b then timer_cancel timer else ret ()).

Definition run_cleanup_functions (l : list CleanupFunction) : M unit :=
  for_each l (fun cleanup =>
    try_except (invoke cleanup) (fun e => perform (Print e))).

(** [ResourceTracker.dispose]. *)
Definition dispose : M unit :=
  let* t := get_tracker in
  if _disposed t then ret ()
  else
    let* _ := modify_tracker set_disposed in
    let* _ := cancel_timers (_timers t) in
    let* _ := for_each (elements (_tasks t)) (fun task =>
                let* d := task_done task in
                if negb d then task_cancel task else ret ()) in
    let* _ := run_cleanup_functions (_cleanup_functions t) in
    modify_tracker clear_lists.

(** [await task] on a cancelled task, inside its [try]: while the awaiter
    is suspended other code tracks tasks and tasks finish, and the [await]
    ends as it ends, a [CancelledError] passed over and any other
    exception printed. *)
Definition await_cancelled (task : nat) : M unit :=
  let* _ := perform (TaskAwait task) in
  let* _ := for_each (tracked_meanwhile (await_task task)) (fun other =>
              let* _ := track_task other in ret ()) in
  let* w := get_world in
  let* _ := modify_world
              (set_done_tasks
                 (list_to_set (finished_meanwhile (await_task task))
                  ∪ done_tasks w)) in
  match await_result (await_task task) with
  | Ok _ => ret ()
  | Raise e => if decide (e = CancelledError) then ret () else perform (Print e)
  end.

(** [for task in self._tasks: body task] where the body can suspend:
    [tasks] are the elements the iterator has still to give, and at each
    step it raises if the set is no longer the one the loop began with. *)
Fixpoint for_each_task (initial : gset nat) (tasks : list nat)
  (body : nat -> M unit) : M unit :=
  let* t := get_tracker in
  if decide (_tasks t = initial) then
    match tasks with
    | [] => ret ()
    | task :: tasks' =>
        let* _ := body task in for_each_task initial tasks' body
    end
  else raise (RuntimeError (lit "Set changed size during iteration")).

(** [ResourceTracker.dispose_async]. *)
Definition dispose_async : M unit :=
  let* t := get_tracker in
  if _disposed t then ret ()
  else
    let* _ := modify_tracker set_disposed in
    let* _ := cancel_timers (_timers t) in
    let* _ := for_each_task (_tasks t) (elements (_tasks t)) (fun task =>
                let* d := task_done task in
                if negb d then
                  let* _ := task_cancel task in await_cancelled task
                else ret ()) in
    let* _ := run_cleanup_functions (_cleanup_functions t) in
    let* _ := for_each (_async_cleanup_functions t) (fun cleanup =>
                try_except
                  (let* _ := perform (AsyncCleanupCall cleanup) in
                   lift (async_cleanup_body cleanup))
                  (fun e => perform (Print e))) in
    modify_tracker clear_lists.

(** Either disposal path. *)
Definition disposal (asynchronous : bool) : M unit :=
  if asynchronous then dispose_async else dispose.

(** *** What the application may call *)

Inductive call : Type :=
| Track (c : CleanupFunction)
| TrackAsync (c : nat)
| TrackTimer (timer : nat)
| TrackTask (task : nat)
| SetTimeout (callback : nat) (delay : Q)
| SetInterval (callback : nat) (interval : Q)
| Dispose
| DisposeAsync
| Invoke (c : CleanupFunction)
| CancelTimer (timer : nat)
| CallLater (callback : nat) (delay : Q).

Definition discard {A} (c : M A) : M unit := let* _ := c in ret ().

Definition make (c : call) : M unit :=
  match c with
  | Track c => discard (track c)
  | TrackAsync c => discard (track_async c)
  | TrackTimer timer => discard (track_timer timer)
  | TrackTask task => discard (track_task task)
  | SetTimeout cb delay => discard (set_timeout (UserCallback cb) delay)
  | SetInterval cb interval => discard (set_interval cb interval)
  | Dispose => dispose
  | DisposeAsync => dispose_async
  | Invoke c => invoke c
  | CancelTimer timer => timer_cancel timer
  | CallLater cb delay => discard (call_later delay (UserCallback cb))
  end.

(** *** The event loop running a timer handle *)

(** The application's callback running: [during] are the calls it makes
    while it runs (their exceptions handled by itself), [ends] is how it
    ends. *)
Definition user_callback (id : nat) (interval_cell : option nat)
  (during : list call) (ends : result unit) : M unit :=
  let* _ := perform (CallbackCall id interval_cell) in
  let* _ := for_each during (fun c =>
              try_all (make c) (fun _ => ret ())) in
  lift ends.

(** Calling what a handle holds; for [interval_callback] this is the body
    of the closure in [set_interval]. *)
Definition run_callback (cb : callback) (during : list call)
  (ends : result unit) : M unit :=
  match cb with
  | UserCallback id => user_callback id None during ends
  | IntervalCallback cell callback interval =>
      let* cancelled := cell_cancelled cell in
      if negb cancelled then
        let* _ := user_callback callback (Some cell) during ends in
        let* _ := set_timeout (IntervalCallback cell callback interval) interval in
        ret ()
      else ret ()
  end.

(** The loop reaching a handle: it is run once, unless cancelled; an
    exception of the callback goes to the loop's exception handler. *)
Definition fire (timer : nat) (during : list call)
  (ends : result unit) : M unit :=
  let* w := get_world in
  match handles w !! timer with
  | Some h =>
      if th_pending h && negb (th_cancelled h) then
        let* _ := modify_world (set_handles (alter mark_run timer (handles w))) in
        try_all (run_callback (th_callback h) during ends)
                (fun e => perform (LoopException e))
      else ret ()
  | None => ret ()
  end.

(** *** Histories: what the application and the loop may do, in any order *)

Inductive action : Type :=
| Call (c : call)
| TaskFinishes (task : nat)
| Fire (timer : nat) (during : list call) (ends : result unit).

Definition act (a : action) : M unit :=
  match a with
  | Call c => make c
  | TaskFinishes task =>
      let* w := get_world in
      modify_world (set_done_tasks ({[task]} ∪ done_tasks w))
  | Fire timer during ends => fire timer during ends
  end.

(** A history from a state; an exception ends the action that raised it,
    not the history. *)
Definition run (history : list action) (s : State) : State :=
  foldl (fun s a => snd (act a s)) s history.

End Tracking.

(** Application code that never raises. *)
Definition quiet : nat -> result unit := fun _ => Ok ().

(** Cancelled tasks that finish with [CancelledError], nothing tracked
    meanwhile. *)
Definition ends_cancelled : nat -> awaited :=
  fun task => {| await_result := Raise CancelledError;
                 finished_meanwhile := [task]; tracked_meanwhile := [] |}.

(** Whether an effect is the interval of [cell] calling the application's
    callback, and how often that has happened. *)
Definition is_interval_call (cell : nat) (e : effect) : bool :=
  match e with
  | CallbackCall _ (Some c) => bool_decide (c = cell)
  | _ => false
  end.

Definition interval_calls (cell : nat) (w : World) : nat :=
  length (List.filter (is_interval_call cell) (log w)).

(** The [cancelled] variable of [cell] exists with a value satisfying [P],
    and its interval has called back [n] times. *)
Definition cell_state (cell : nat) (P : bool -> Prop) (n : nat) (s : State)
  : Prop :=
  exists b, cells s.2 !! cell = Some b /\ P b /\ interval_calls cell s.2 = n.

(** Whether an effect is a call of a callback of the application. *)
Definition is_callback_call (e : effect) : bool :=
  match e with
  | CallbackCall _ _ => true
  | _ => false
  end.

(** A property of states that the writes of the tracker and of the loop
    keep: a tracker write that does not reset [_disposed], a new or a
    cancelled or a run handle, a finished task, a new [cancelled] variable,
    the assignment [cancelled = True], and the effects in [allowed], which
    are at least those that are no callback calls. *)
Record stable (I : State -> Prop) (allowed : effect -> Prop) : Prop := {
  stable_tracker : forall f t w,
    (forall t0, _disposed t0 = true -> _disposed (f t0) = true) ->
    I (t, w) -> I (f t, w);
  stable_handles : forall hs t w, I (t, w) -> I (t, set_handles hs w);
  stable_done : forall d t w, I (t, w) -> I (t, set_done_tasks d w);
  stable_log : forall e t w, allowed e -> I (t, w) -> I (t, add_log e w);
  stable_new_cell : forall t w,
    I (t, w) -> I (t, set_cells (cells w ++ [false]) w);
  stable_cell_cancel : forall c t w,
    I (t, w) -> I (t, set_cells (<[c := true]> (cells w)) w);
  stable_quiet : forall e, is_callback_call e = false -> allowed e
}.

(** The tracker has been disposed. *)
Definition disposed (s : State) : Prop := _disposed s.1 = true.

(** The calls of tracked cleanup functions among the effects, in order. *)
Definition is_cleanup_call (e : effect) : bool :=
  match e with
  | CleanupCall _ | AsyncCleanupCall _ => true
  | _ => false
  end.

Definition cleanup_calls (w : World) : list effect :=
  List.filter is_cleanup_call (log w).

(** A disposed tracker in a world that shows the cleanup calls [L]. *)
Definition disposed_with (L : list effect) (s : State) : Prop :=
  _disposed s.1 = true /\ cleanup_calls s.2 = L.

(** A disposed tracker in a world that shows, after the cleanup calls [L],
    the first ones of [P] in their order, and all of them when the
    computation returned. *)
Definition called_within {A} (L P : list effect) (r : result A) (s : State)
  : Prop :=
  exists called,
    called `prefix_of` P /\ disposed_with (L ++ called) s /\
    (is_ok r = true -> called = P).

End Tracker.

(** ** utils.py: WebSocket URLs *)

Module Url.

(** [s.startswith(prefix)]. *)
Fixpoint startswith (prefix s : str) : bool :=
  match prefix, s with
  | [], _ => true
  | p :: prefix', c :: s' => N.eqb p c && startswith prefix' s'
  | _ :: _, [] => false
  end.

(** [s.replace(old, new, 1)]: the first occurrence of [old], scanning from
    the left, is replaced by [new]; without one, [s] is returned. *)
Fixpoint replace_first (old new s : str) : str :=
  if startswith old s then new ++ drop (length old) s
  else match s with
       | [] => []
       | c :: s' => c :: replace_first old new s'
       end.

(** utils.py, [ws_url_to_http_url]. *)
Definition ws_url_to_http_url (ws_url : str) : result str :=
  if startswith (lit "wss://") ws_url
  then Ok (replace_first (lit "wss://") (lit "https://") ws_url)
  else if startswith (lit "ws://") ws_url
  then Ok (replace_first (lit "ws://") (lit "http://") ws_url)
  else Raise (ValueError (lit "Invalid WebSocket URL: " ++ ws_url)).

End Url.

(** ** utils.py: disposables, context managers and the life of a handle *)

Module Lifecycle.

Import Tracker.

(** An object handed to [track_disposable], as far as the method looks at
    it: whether it has a [dispose] attribute and, when it has, the identity
    of that method and whether it is a coroutine function. *)
Record Disposable : Type := {
  dispose_method : option (nat * bool)
}.

(** What [track_disposable] returns: the method it tracked, as a cleanup
    function or as an asynchronous cleanup function. *)
Inductive tracked : Type :=
| TrackedSync (c : CleanupFunction)
| TrackedAsync (c : nat).

(** [ResourceTracker.track_disposable]. *)
Definition track_disposable (disposable : Disposable) : M tracked :=
  match dispose_method disposable with
  | Some (dispose, true) =>
      let* c := track_async dispose in ret (TrackedAsync c)
  | Some (dispose, false) =>
      let* c := track (UserCleanup dispose) in ret (TrackedSync c)
  | None => raise (ValueError (lit "Object does not have a dispose method"))
  end.

Section Managers.

Variable cleanup_body : nat -> result unit.
Variable async_cleanup_body : nat -> result unit.
Variable await_task : nat -> awaited.



End Managers.

(** The handle [timer] exists and satisfies [P]. *)
Definition handle_state (timer : nat) (P : TimerHandle -> Prop) (s : State)
  : Prop :=
  exists h, handles s.2 !! timer = Some h /\ P h.

(** A handle the loop will not run: it was cancelled or has been run. *)
Definition spent (h : TimerHandle) : Prop :=
  th_cancelled h = true \/ th_pending h = false.

Definition dead (timer : nat) (s : State) : Prop :=
  handle_state timer spent s.

Definition scheduled (timer : nat) (s : State) : Prop :=
  handle_state timer (fun _ => True) s.

(** A computation that returns normally from every state. *)
Definition returns {A} (c : M A) : Prop := forall s, is_ok (c s).1 = true.

(** The writes of the tracking methods to the tracker: an element appended
    to one of the lists, or a task added to the set. *)
Inductive extends : (ResourceTracker -> ResourceTracker) -> Prop :=
| extends_cleanup c : extends (append_cleanup c)
| extends_async c : extends (append_async_cleanup c)
| extends_timer timer : extends (append_timer timer)
| extends_task task : extends (add_task task).

(** A property that every write keeps but those of a disposal to the
    tracker: a tracking write, a new handle, a handle cancelled, a handle
    run, a finished task, an effect, a new [cancelled] variable and the
    assignment [cancelled = True]. *)
Record growing (I : State -> Prop) : Prop := {
  growing_tracker : forall f t w, extends f -> I (t, w) -> I (f t, w);
  growing_schedule : forall h t w,
    I (t, w) -> I (t, set_handles (handles w ++ [h]) w);
  growing_cancel : forall i t w,
    I (t, w) -> I (t, set_handles (alter mark_cancelled i (handles w)) w);
  growing_ran : forall i t w,
    I (t, w) -> I (t, set_handles (alter mark_run i (handles w)) w);
  growing_done : forall d t w, I (t, w) -> I (t, set_done_tasks d w);
  growing_log : forall e t w, I (t, w) -> I (t, add_log e w);
  growing_new_cell : forall t w,
    I (t, w) -> I (t, set_cells (cells w ++ [false]) w);
  growing_cell_cancel : forall c t w,
    I (t, w) -> I (t, set_cells (<[c := true]> (cells w)) w)
}.

(** A property of the world alone: every write to the tracker keeps it
    too. *)
Record steady (I : State -> Prop) : Prop := {
  steady_growing : growing I;
  steady_tracker : forall f t w, I (t, w) -> I (f t, w)
}.

(** [D] holds, or [E] holds of a tracker that satisfies [T]: the shape of
    what a tracker guarantees until it is disposed ([E] and [T]) and from
    then on ([D]). *)
Definition guarded (D E : State -> Prop) (T : ResourceTracker -> Prop)
  (s : State) : Prop :=
  D s \/ (E s /\ T s.1).

(** A live tracker that holds [timer] in [_timers], or [c] in
    [_cleanup_functions]. *)
Definition tracks_timer (timer : nat) (t : ResourceTracker) : Prop :=
  _disposed t = false /\ timer ∈ _timers t.








End Lifecycle.

(** ** events.py: subscriptions, the translation slot, custom messages *)

Module Registry.

Import Events.

(** Every event type with a registered handler has had a subscription
    task created for it. *)
Definition subscribed (m : EventManager) : Prop :=
  forall k, registered k m <> [] -> k ∈ subscription_tasks m.

(** The event types of the translation streams. *)
Definition is_translation_stream (k : str) : Prop :=
  exists languages, k = lit "translation:" ++ languages.

(** The single-slot discipline of the translation streams. *)
Definition single_translation_slot (m : EventManager) : Prop :=
  forall k h, is_translation_stream k -> h ∈ registered k m ->
    _last_translation_cleanup m =
      Some {| cleanup_event_type := k; cleanup_handler := h |} /\
    registered k m = [h].

(** [on_custom_message(action, handler)] for each pair, in order. *)
Definition register_all (registrations : list (str * function))
  (m : EventManager) : EventManager :=
  foldl (fun m r => (on_custom_message r.1 r.2 m).2) m registrations.

(** Whether an execution is one of the body of a function of the
    application, not of a closure of the manager. *)
Definition is_body_execution (e : execution) : bool :=
  match e.1 with
  | User _ => true
  | MessageHandler _ _ _ => false
  end.

(** The registrations whose function runs on a message with [action]. *)
Definition reaches (action : str) (r : str * function) : bool :=
  bool_decide (r.1 = action) && negb (is_coroutine_function r.2).

(** What an application may ask of the registry: a request through a
    typed method, or [on] with an event type of its choice. *)
Inductive operation : Type :=
| Typed (r : request)
| Generic (event_type : str) (h : handler).

Section Operations.

Variable alphabetic : N -> bool.

Definition apply_operation (loop_running : bool) (o : operation)
  (m : EventManager) : EventManager :=
  match o with
  | Typed r => serve alphabetic loop_running r m
  | Generic event_type h => (on_call loop_running event_type h m).2
  end.

Definition apply_all (loop_running : bool) (history : list operation)
  (m : EventManager) : EventManager :=
  foldl (fun m o => apply_operation loop_running o m) m history.

End Operations.

End Registry.

(** ** events.py: the closure of [on_setting_change] *)

Module Settings.

Import Events.

#[global] Instance value_eq_dec : EqDecision value.
Proof. solve_decision. Defined.

(** A setting, as far as the closure reads it: its [key] and [value]
    attributes.  Settings are model objects, which are true in a test. *)
Record Setting : Type := {
  setting_key : str;
  setting_value : value
}.

(** [next((s for s in settings if s.key == key), None)]. *)
Definition find_setting (key : str) (settings : list Setting)
  : option Setting :=
  List.find (fun s => bool_decide (setting_key s = key)) settings.

(** One call of the closure [settings_handler]: the call of the
    application's handler it made, if any, with its two arguments;
    whether the body of the handler ran; the error it logged; the
    exception that left it; and the closure variable [previous_value]
    afterwards. *)
Record settings_call : Type := {
  handler_call : option (value * value);
  handler_ran : bool;
  error_logged : option exn;
  error_raised : option exn;
  previous_value_after : value
}.

Definition no_call (previous_value : value) : settings_call :=
  {| handler_call := None; handler_ran := false; error_logged := None;
     error_raised := None; previous_value_after := previous_value |}.

Section Closure.

(** The code of the application's handlers of two arguments. *)
Variable body : function -> value -> value -> result unit.

(** The closure [settings_handler] of [on_setting_change].  Both branches
    of the [iscoroutinefunction] test return the call of the handler, so
    the assignment to [previous_value] that follows them is not reached; a
    coroutine function only builds a coroutine, which is returned to the
    executor and not awaited; an exception of a plain handler is logged by
    the [except Exception], but for a [CancelledError], which leaves the
    closure. *)
Definition settings_handler (key : str) (handler : function)
  (previous_value : value) (settings : list Setting) : settings_call :=
  match find_setting key settings with
  | Some setting =>
      let new_value := setting_value setting in
      if decide (new_value = previous_value) then no_call previous_value
      else if is_coroutine_function handler then
        {| handler_call := Some (new_value, previous_value);
           handler_ran := false; error_logged := None; error_raised := None;
           previous_value_after := previous_value |}
      else
        let caught e := bool_decide (e <> CancelledError) in
        {| handler_call := Some (new_value, previous_value);
           handler_ran := true;
           error_logged := match body handler new_value previous_value with
                           | Ok _ => None
                           | Raise e => if caught e then Some e else None
                           end;
           error_raised := match body handler new_value previous_value with
                           | Ok _ => None
                           | Raise e => if caught e then None else Some e
                           end;
           previous_value_after := previous_value |}
  | None => no_call previous_value
  end.

(** The closure called on one event after the other, from the value its
    variable has. *)
Fixpoint deliver (key : str) (handler : function) (previous_value : value)
  (events : list (list Setting)) : list settings_call :=
  match events with
  | [] => []
  | settings :: events' =>
      let c := settings_handler key handler previous_value settings in
      c :: deliver key handler (previous_value_after c) events'
  end.

End Closure.

End Settings.

(** * Properties *)

(** ** Language codes and stream identifiers *)

Section LanguageCodeFacts.

Import Utils.

Example split_en_US : split hyphen (lit "en-US") = [lit "en"; lit "US"].
Proof. reflexivity. Qed.

Example split_trailing : split hyphen (lit "en-") = [lit "en"; []].
Proof. reflexivity. Qed.

Example valid_en : is_valid_language_code ascii_letter (lit "en") = true.
Proof. reflexivity. Qed.

Example valid_en_US : is_valid_language_code ascii_letter (lit "en-US") = true.
Proof. reflexivity. Qed.

Example invalid_xyz : is_valid_language_code ascii_letter (lit "xyz") = false.
Proof. reflexivity. Qed.

Example invalid_three_parts :
  is_valid_language_code ascii_letter (lit "en-US-xx") = false.
Proof. reflexivity. Qed.

Lemma split_not_nil sep s : split sep s <> [].
Proof.
  destruct s as [|c s]; simpl; [discriminate|].
  destruct (N.eqb c sep); [discriminate|].
  destruct (split sep s); discriminate.
Qed.

Lemma split_one sep s p : split sep s = [p] -> s = p /\ (sep ∉ s).
Proof.
  revert p. induction s as [|c s IH]; simpl; intros p Hs.
  - inversion Hs. split; [done | apply not_elem_of_nil].
  - destruct (N.eqb_spec c sep) as [->|Hne].
    + inversion Hs as [[Hp Hrest]]. by apply split_not_nil in Hrest.
    + destruct (split sep s) as [|q qs] eqn:Hq; [by apply split_not_nil in Hq|].
      inversion Hs; subst.
      destruct (IH q eq_refl) as [-> Hnot].
      split; [done|]. rewrite not_elem_of_cons. split; congruence.
Qed.

Lemma split_two sep s p0 p1 :
  split sep s = [p0; p1] -> s = p0 ++ sep :: p1 /\ (sep ∉ p0) /\ (sep ∉ p1).
Proof.
  revert p0. induction s as [|c s IH]; simpl; intros p0 Hs; [discriminate|].
  destruct (N.eqb_spec c sep) as [->|Hne].
  - inversion Hs as [[Hp Hrest]]. apply split_one in Hrest as [-> Hnot].
    split; [done|]. split; [apply not_elem_of_nil | done].
  - destruct (split sep s) as [|q qs] eqn:Hq; [by apply split_not_nil in Hq|].
    inversion Hs; subst.
    destruct (IH q eq_refl) as (-> & Hq0 & Hq1).
    split; [done|]. split; [|done].
    rewrite not_elem_of_cons. split; congruence.
Qed.

Lemma split_without sep s : sep ∉ s -> split sep s = [s].
Proof.
  induction s as [|c s IH]; simpl; intros Hnot; [done|].
  apply not_elem_of_cons in Hnot as [Hne Hnot].
  destruct (N.eqb_spec c sep) as [->|_]; [done|].
  by rewrite IH.
Qed.

Lemma split_at sep l r :
  sep ∉ l -> split sep (l ++ sep :: r) = l :: split sep r.
Proof.
  induction l as [|c l IH]; simpl; intros Hnot.
  - by rewrite N.eqb_refl.
  - apply not_elem_of_cons in Hnot as [Hne Hnot].
    destruct (N.eqb_spec c sep) as [->|_]; [done|].
    by rewrite IH.
Qed.

Section WithDatabase.

Variable alphabetic : N -> bool.

(** The hyphen-minus is punctuation (category Pd), not a letter. *)
Hypothesis hyphen_not_alphabetic : alphabetic hyphen = false.

Lemma two_letters_isalpha s :
  two_letters alphabetic s <-> (length s =? 2) && isalpha alphabetic s = true.
Proof.
  split.
  - intros (a & b & -> & Ha & Hb). simpl. by rewrite Ha, Hb.
  - destruct s as [|a [|b [|c s]]]; simpl; try done.
    rewrite andb_true_r. intros [Ha Hb]%andb_true_iff. by exists a, b.
Qed.

Lemma two_letters_no_hyphen s : two_letters alphabetic s -> hyphen ∉ s.
Proof using hyphen_not_alphabetic.
  intros (a & b & -> & Ha & Hb).
  rewrite !not_elem_of_cons. repeat split; try congruence.
  apply not_elem_of_nil.
Qed.

Lemma is_valid_language_code_shape s :
  is_valid_language_code alphabetic s = true <->
  language_code_shape alphabetic s.
Proof using hyphen_not_alphabetic.
  split.
  - unfold is_valid_language_code. destruct s as [|c s]; [done|].
    destruct (split hyphen (c :: s)) as [|p0 [|p1 [|p2 ps]]] eqn:Hs; try done.
    + apply split_one in Hs as [<- _]. intros H. left.
      by apply two_letters_isalpha.
    + apply split_two in Hs as (-> & _ & _). intros H. right.
      apply andb_true_iff in H as [H H1]. apply andb_true_iff in H as [H Hl1].
      exists p0, p1. split; [done|]. split; apply two_letters_isalpha.
      * done.
      * by rewrite Hl1, H1.
  - intros [H | (l & r & -> & Hl & Hr)].
    + pose proof (two_letters_no_hyphen _ H) as Hnot.
      apply two_letters_isalpha in H as Hv.
      destruct H as (a & b & -> & _). unfold is_valid_language_code.
      by rewrite (split_without _ _ Hnot).
    + pose proof (two_letters_no_hyphen _ Hl) as Hnl.
      pose proof (two_letters_no_hyphen _ Hr) as Hnr.
      apply two_letters_isalpha in Hl as Hvl.
      apply two_letters_isalpha in Hr as Hvr.
      unfold is_valid_language_code.
      rewrite (split_at _ _ _ Hnl), (split_without _ _ Hnr).
      destruct Hl as (a & b & -> & _). simpl app.
      apply andb_true_iff in Hvl as [-> ->].
      apply andb_true_iff in Hvr as [-> ->]. done.
Qed.

(** C9.  A string is accepted by [is_valid_language_code] exactly when
    it is two letters, or two letters, a hyphen and two letters;
    [create_transcription_stream] returns ["transcription:" + language]
    for such a code and raises [ValueError] for any other, and
    [create_translation_stream] returns
    ["translation:" + source + ":" + target] when both codes have the
    shape and raises [ValueError] when one has not. *)
Theorem language_codes_and_stream_identifiers (s source target : str) :
  (is_valid_language_code alphabetic s = true <->
   language_code_shape alphabetic s) /\
  (language_code_shape alphabetic s ->
   create_transcription_stream alphabetic s = Ok (lit "transcription:" ++ s)) /\
  (~ language_code_shape alphabetic s ->
   exists msg, create_transcription_stream alphabetic s = Raise (ValueError msg)) /\
  (language_code_shape alphabetic source /\ language_code_shape alphabetic target ->
   create_translation_stream alphabetic source target =
     Ok (lit "translation:" ++ source ++ lit ":" ++ target)) /\
  (~ (language_code_shape alphabetic source /\
      language_code_shape alphabetic target) ->
   exists msg, create_translation_stream alphabetic source target =
                 Raise (ValueError msg)).
Proof using hyphen_not_alphabetic.
  unfold create_transcription_stream, create_translation_stream.
  repeat split.
  - apply is_valid_language_code_shape.
  - apply is_valid_language_code_shape.
  - intros H%is_valid_language_code_shape. by rewrite H.
  - intros H. rewrite <- is_valid_language_code_shape in H.
    apply not_true_is_false in H. rewrite H. eauto.
  - intros [H1%is_valid_language_code_shape H2%is_valid_language_code_shape].
    by rewrite H1, H2.
  - intros H. rewrite <- !is_valid_language_code_shape in H.
    destruct (is_valid_language_code alphabetic source); simpl; [|eauto].
    destruct (is_valid_language_code alphabetic target); simpl; [|eauto].
    exfalso. by apply H.
Qed.

End WithDatabase.

Lemma language_codes_and_stream_identifiers_witness :
  ascii_letter hyphen = false /\
  language_code_shape ascii_letter (lit "en-US") /\
  create_transcription_stream ascii_letter (lit "en-US") =
    Ok (lit "transcription:" ++ lit "en-US") /\
  (exists msg, create_transcription_stream ascii_letter (lit "xyz") =
                 Raise (ValueError msg)).
Proof.
  assert (language_code_shape ascii_letter (lit "en-US")) as Hshape.
  { right. exists (lit "en"), (lit "US"). split; [reflexivity|].
    split; [by exists 101%N, 110%N | by exists 85%N, 83%N]. }
  split; [reflexivity|]. split; [exact Hshape|]. split.
  - apply (language_codes_and_stream_identifiers ascii_letter eq_refl
             (lit "en-US") (lit "es-ES") (lit "en-US")).
    exact Hshape.
  - apply (language_codes_and_stream_identifiers ascii_letter eq_refl
             (lit "xyz") (lit "es-ES") (lit "en-US")).
    intros H.
    apply (is_valid_language_code_shape ascii_letter eq_refl) in H.
    discriminate H.
Defined.

End LanguageCodeFacts.

(** ** The handler map of the EventManager *)

Section RegistryFacts.

Import Events.

Implicit Types (m : EventManager) (h : handler) (c : CleanupFunction).

Lemma list_remove_elem_of h (l : list handler) :
  h ∉ l <-> list_remove h l = None.
Proof.
  induction l as [|y l IH]; simpl.
  - split; [done | intros _; apply not_elem_of_nil].
  - rewrite not_elem_of_cons. destruct (decide (y = h)) as [->|Hne].
    + split; [intros [? _]; done | done].
    + destruct (list_remove h l).
      * split; [|done]. intros [_ H]. by apply IH in H.
      * split; [done|]. intros _. split; [congruence | by apply IH].
Qed.

Lemma list_remove_last h (l : list handler) :
  h ∉ l -> list_remove h (l ++ [h]) = Some l.
Proof.
  induction l as [|y l IH]; simpl; intros Hnot.
  - by rewrite decide_True.
  - apply not_elem_of_cons in Hnot as [Hne Hnot].
    rewrite decide_False by congruence. by rewrite IH.
Qed.

Lemma list_remove_sublist h (l l' : list handler) :
  list_remove h l = Some l' -> forall x, x ∈ l' -> x ∈ l.
Proof.
  revert l'. induction l as [|y l IH]; simpl; intros l' Hr x Hx; [done|].
  destruct (decide (y = h)) as [->|Hne].
  - inversion Hr; subst. by apply elem_of_cons; right.
  - destruct (list_remove h l) as [r|] eqn:Hrl; inversion Hr; subst.
    apply elem_of_cons in Hx as [->|Hx]; [by left|].
    right. by apply (IH r).
Qed.

Lemma registered_add_handler T h m k :
  registered k (_add_handler T h m).2 =
    if decide (k = T) then registered T m ++ [h] else registered k m.
Proof.
  unfold registered, _add_handler, defaultdict_getitem.
  destruct (_handlers m !! T) as [l|] eqn:HT; simpl;
    [destruct (length (l ++ [h]) =? 1); simpl|];
    destruct (decide (k = T)) as [->|Hne];
    rewrite ?lookup_insert_eq, ?lookup_insert_ne by done; simpl; try done.
Qed.

Lemma add_handler_token T h m :
  (_add_handler T h m).1 = {| cleanup_event_type := T; cleanup_handler := h |}.
Proof.
  unfold _add_handler. by destruct (defaultdict_getitem T (_handlers m)).
Qed.


Lemma add_handler_last_translation T h m :
  _last_translation_cleanup (_add_handler T h m).2 =
  _last_translation_cleanup m.
Proof.
  unfold _add_handler. destruct (defaultdict_getitem T (_handlers m)).
  simpl. by destruct (_ =? 1).
Qed.

(** Where an event loop is running, the call returns what [_add_handler]
    describes. *)
Lemma add_handler_call_running T h m :
  _add_handler_call true T h m =
  (Ok (_add_handler T h m).1, (_add_handler T h m).2).
Proof.
  unfold _add_handler_call, _add_handler.
  destruct (defaultdict_getitem T (_handlers m)). by destruct (_ =? 1).
Qed.

(** With or without one, the handler is appended. *)
Lemma registered_add_handler_call loop_running T h m k :
  registered k (_add_handler_call loop_running T h m).2 =
    if decide (k = T) then registered T m ++ [h] else registered k m.
Proof.
  unfold registered, _add_handler_call, defaultdict_getitem.
  destruct (_handlers m !! T) as [l|] eqn:HT; simpl;
    [destruct (length (l ++ [h]) =? 1); simpl|];
    destruct loop_running; simpl;
    destruct (decide (k = T)) as [->|Hne];
    rewrite ?lookup_insert_eq, ?lookup_insert_ne by done; simpl; try done.
Qed.

(** The call raises exactly for a first handler without a running loop. *)
Lemma add_handler_call_result loop_running T h m :
  (_add_handler_call loop_running T h m).1 =
    if negb loop_running && bool_decide (registered T m = [])
    then Raise no_running_loop
    else Ok {| cleanup_event_type := T; cleanup_handler := h |}.
Proof.
  unfold registered, _add_handler_call, defaultdict_getitem.
  destruct (_handlers m !! T) as [[|x l]|] eqn:HT; simpl;
    destruct loop_running; simpl; try done;
    rewrite length_app; simpl;
    by replace (length l + 1 =? 0) with false
      by (symmetry; apply Nat.eqb_neq; lia).
Qed.

Lemma add_handler_call_last_transcription loop_running T h m :
  _last_transcription_cleanup (_add_handler_call loop_running T h m).2 =
  _last_transcription_cleanup m.
Proof.
  unfold _add_handler_call. destruct (defaultdict_getitem T (_handlers m)).
  simpl. by destruct (_ =? 1), loop_running.
Qed.

Lemma add_handler_call_last_translation loop_running T h m :
  _last_translation_cleanup (_add_handler_call loop_running T h m).2 =
  _last_translation_cleanup m.
Proof.
  unfold _add_handler_call. destruct (defaultdict_getitem T (_handlers m)).
  simpl. by destruct (_ =? 1), loop_running.
Qed.

Lemma list_remove_first h (l1 l2 : list handler) :
  h ∉ l1 -> list_remove h (l1 ++ h :: l2) = Some (l1 ++ l2).
Proof.
  induction l1 as [|y l1 IH]; simpl; intros Hnot.
  - by rewrite decide_True.
  - apply not_elem_of_cons in Hnot as [Hne Hnot].
    rewrite decide_False by congruence. by rewrite IH.
Qed.

Lemma registered_on_each T (hs : list handler) m k :
  registered k (on_each T hs m) =
    if decide (k = T) then registered T m ++ hs else registered k m.
Proof.
  revert m. induction hs as [|h hs IH]; intros m; simpl.
  { destruct (decide _) as [->|]; by rewrite ?app_nil_r. }
  change (registered k (on_each T hs (on T h m).2) = 
          if decide (k = T) then registered T m ++ h :: hs
          else registered k m).
  rewrite IH. unfold on. rewrite !registered_add_handler.
  destruct (decide (k = T)) as [->|Hne].
  - by rewrite decide_True, <- app_assoc by done.
  - done.
Qed.

Lemma registered_cleanup c m k :
  registered k (cleanup c m) =
    if decide (k = cleanup_event_type c)
    then default (registered k m)
                 (list_remove (cleanup_handler c) (registered k m))
    else registered k m.
Proof.
  unfold registered, cleanup, defaultdict_getitem.
  destruct c as [T h]; simpl.
  destruct (_handlers m !! T) as [l|] eqn:HT; simpl.
  - destruct (list_remove h l) as [l'|] eqn:Hr; simpl.
    + destruct l' as [|x l']; simpl;
        destruct (decide (k = T)) as [->|Hne];
        rewrite ?HT, ?lookup_delete_eq, ?lookup_delete_ne,
          ?lookup_insert_eq, ?lookup_insert_ne by done; simpl;
        rewrite ?Hr; try done.
    + destruct (decide (k = T)) as [->|Hne]; [|done].
      by rewrite HT; simpl; rewrite Hr.
  - destruct (decide (k = T)) as [->|Hne].
    + by rewrite lookup_insert_eq, HT.
    + by rewrite lookup_insert_ne.
Qed.


Lemma cleanup_last_translation c m :
  _last_translation_cleanup (cleanup c m) = _last_translation_cleanup m.
Proof.
  unfold cleanup. destruct (defaultdict_getitem _ _) as [l d].
  destruct (list_remove _ l) as [l'|]; [|done].
  by destruct (length l' =? 0).
Qed.

Lemma new_entries_nonempty : entries_nonempty new.
Proof. intros k l. unfold new; simpl. by rewrite lookup_empty. Qed.

(** Registration keeps I1. *)
Lemma add_handler_entries_nonempty T h m :
  entries_nonempty m -> entries_nonempty (_add_handler T h m).2.
Proof.
  intros Hm k l. unfold _add_handler, defaultdict_getitem.
  destruct (_handlers m !! T) as [l0|] eqn:HT; simpl.
  - destruct (length (l0 ++ [h]) =? 1); simpl;
      (destruct (decide (k = T)) as [->|Hne];
       [rewrite lookup_insert_eq; intros [= <-]; by destruct l0
       |rewrite lookup_insert_ne by done; apply Hm]).
  - destruct (decide (k = T)) as [->|Hne].
    + rewrite lookup_insert_eq. by intros [= <-].
    + rewrite !lookup_insert_ne by done. apply Hm.
Qed.

(** A cleanup function invoked while its event type has an entry keeps
    I1: the [del] of the source removes a list that became empty. *)
Lemma cleanup_entries_nonempty c m :
  entries_nonempty m ->
  is_Some (_handlers m !! cleanup_event_type c) ->
  entries_nonempty (cleanup c m).
Proof.
  intros Hm [l0 HT] k l. unfold cleanup, defaultdict_getitem.
  rewrite HT. destruct (list_remove _ l0) as [l'|]; simpl; [|apply Hm].
  destruct l' as [|x l']; simpl.
  - destruct (decide (k = cleanup_event_type c)) as [->|Hne].
    + by rewrite lookup_delete_eq.
    + rewrite lookup_delete_ne, lookup_insert_ne by done. apply Hm.
  - destruct (decide (k = cleanup_event_type c)) as [->|Hne].
    + rewrite lookup_insert_eq. by intros [= <-].
    + rewrite lookup_insert_ne by done. apply Hm.
Qed.

(** A cleanup function invoked while its event type has no entry creates
    one, with the empty list: the [defaultdict] read of the source. *)
Lemma cleanup_creates_empty_entry c m :
  _handlers m !! cleanup_event_type c = None ->
  _handlers (cleanup c m) !! cleanup_event_type c = Some [].
Proof.
  intros HT. unfold cleanup, defaultdict_getitem. rewrite HT. simpl.
  by rewrite lookup_insert_eq.
Qed.

(** C1.  The code at the failing input: one handler registered for
    ["t"], its cleanup function invoked twice.  The first invocation
    deletes the entry; the second one reads [self._handlers[event_type]],
    which binds ["t"] to a new empty list, and leaves it there. *)
Theorem cleanup_after_deletion_recreates_entry :
  let '(c, m1) := on (lit "t") (User f0) new in
  let m2 := cleanup c m1 in
  let m3 := cleanup c m2 in
  _handlers m1 !! lit "t" = Some [User f0] /\
  _handlers m2 !! lit "t" = None /\
  _handlers m3 !! lit "t" = Some [] /\
  ~ entries_nonempty m3.
Proof.
  vm_compute. repeat split.
  intros H. by apply (H (lit "t") []).
Qed.

End RegistryFacts.

(** ** Cleanup functions and dispatch *)

Section DispatchFacts.

Import Events.

Implicit Types (m : EventManager) (h : handler) (c : CleanupFunction).

(** C2.  The code at the failing input: the same function registered
    twice for ["t"], the cleanup function of the first registration
    invoked twice.  The second invocation removes the second
    registration, so the state after two invocations is not the state
    after one. *)
Theorem second_cleanup_removes_other_registration :
  let '(c1, m1) := on (lit "t") (User f0) new in
  let '(c2, m2) := on (lit "t") (User f0) m1 in
  let once := cleanup c1 m2 in
  let twice := cleanup c1 once in
  registered (lit "t") m2 = [User f0; User f0] /\
  registered (lit "t") once = [User f0] /\
  registered (lit "t") twice = [] /\
  twice <> once.
Proof.
  repeat split; try (vm_compute; reflexivity).
  intros H. apply (f_equal (registered (lit "t"))) in H.
  vm_compute in H. discriminate.
Qed.

(** With a single registration the second invocation still changes the
    handler map: it leaves the empty entry of C1 behind. *)
Lemma second_cleanup_changes_map :
  let r := on (lit "t") (User f0) new in
  cleanup r.1 (cleanup r.1 r.2) <> cleanup r.1 r.2.
Proof.
  intros r H. apply (f_equal (fun m => _handlers m !! lit "t")) in H.
  vm_compute in H. discriminate.
Qed.

(** What does hold: when the handler of a cleanup function is no longer in
    the list of its event type, invoking it changes no handler list. *)
Lemma cleanup_absent_registered c m k :
  cleanup_handler c ∉ registered (cleanup_event_type c) m ->
  registered k (cleanup c m) = registered k m.
Proof.
  intros Hnot. rewrite registered_cleanup.
  destruct (decide (k = cleanup_event_type c)) as [->|]; [|done].
  apply list_remove_elem_of in Hnot. by rewrite Hnot.
Qed.

Section WithBodies.

Variable body : function -> value -> result unit.

Lemma emit_executed T data m :
  executed (emit body T data m) =
  concat ((fun h => (complete body (schedule h data)).1) <$> registered T m).
Proof.
  unfold emit, registered.
  destruct (_handlers m !! T) as [l|]; simpl; [|done].
  destruct l as [|h l]; simpl; [done|].
  f_equal. f_equal. rewrite <- !list_fmap_compose. done.
Qed.

Lemma emit_results T data m :
  results (emit body T data m) =
  (fun h => (complete body (schedule h data)).2) <$> registered T m.
Proof.
  unfold emit, registered.
  destruct (_handlers m !! T) as [l|]; simpl; [|done].
  destruct l as [|h l]; simpl; [done|].
  f_equal. rewrite <- !list_fmap_compose. done.
Qed.

Lemma emit_outcome T data m : outcome (emit body T data m) = Ok ().
Proof.
  unfold emit. destruct (_handlers m !! T) as [l|]; simpl; [|done].
  by destruct l.
Qed.

Lemma complete_schedule_user f data :
  (complete body (schedule (User f) data)).1 = [(User f, data)].
Proof.
  unfold schedule, complete, call, call_function.
  destruct (is_coroutine_function f) eqn:Hf; simpl; [done|].
  by rewrite Hf.
Qed.

Lemma complete_schedule_self h data :
  In (h, data) (complete body (schedule h data)).1.
Proof.
  destruct h as [f|i action inner].
  - rewrite complete_schedule_user. by left.
  - simpl. destruct data; simpl; try by left.
    destruct (decide _); [|by left].
    destruct (call_function body inner data). by left.
Qed.

Lemma complete_schedule_other h data f :
  target h <> f ->
  List.filter (is_execution_of f) (complete body (schedule h data)).1 = [].
Proof.
  intros Hne. destruct h as [f'|i action inner]; simpl in Hne.
  - rewrite complete_schedule_user. simpl. unfold is_execution_of; simpl.
    rewrite bool_decide_eq_false_2; [done | congruence].
  - simpl. unfold is_execution_of.
    destruct data; simpl; try done.
    destruct (decide _); [|done].
    unfold call_function, run_body.
    destruct (is_coroutine_function inner); simpl; [done|].
    rewrite bool_decide_eq_false_2; [done | congruence].
Qed.

Lemma executed_without f data (l : list handler) :
  Forall (fun h => target h <> f) l ->
  List.filter (is_execution_of f)
    (concat ((fun h => (complete body (schedule h data)).1) <$> l)) = [].
Proof.
  induction 1 as [|h l Hh Hl IH]; simpl; [done|].
  rewrite List.filter_app, complete_schedule_other by done.
  exact IH.
Qed.

(** C4.  With no handler registered for [T], [emit] executes nothing and
    returns without error.  When [H] is registered for [T], on a manager
    that may hold other handlers for [T] already and before any others
    registered for [T] afterwards, none of which leads to [H], [emit]
    executes the body of [H] exactly once, with the payload; and when the
    cleanup function of that registration is invoked before [emit], the
    body of [H] is not executed. *)
Theorem emit_invokes_registered_handler
  (T : str) (payload : value) (H : function) m (later : list handler) :
  (registered T m = [] ->
   executed (emit body T payload m) = [] /\
   outcome (emit body T payload m) = Ok ()) /\
  (Forall (fun h => target h <> H) (registered T m) ->
   Forall (fun h => target h <> H) later ->
   let '(c, m1) := on T (User H) m in
   let m' := on_each T later m1 in
   registered T m' = registered T m ++ User H :: later /\
   List.filter (is_execution_of H) (executed (emit body T payload m'))
     = [(User H, payload)] /\
   outcome (emit body T payload m') = Ok () /\
   List.filter (is_execution_of H)
     (executed (emit body T payload (cleanup c m'))) = []).
Proof.
  split.
  - intros Hnone. by rewrite emit_executed, emit_outcome, Hnone.
  - intros Hfresh Hlater. unfold on.
    pose proof (add_handler_token T (User H) m) as Hc.
    pose proof (registered_add_handler T (User H) m T) as Hr.
    destruct (_add_handler T (User H) m) as [c m1]. simpl in Hc, Hr.
    rewrite decide_True in Hr by done.
    assert (User H ∉ registered T m) as Hnot.
    { intros Hin. rewrite Forall_forall in Hfresh.
      by apply (Hfresh _ Hin). }
    assert (registered T (on_each T later m1) =
            registered T m ++ User H :: later) as Hall.
    { rewrite registered_on_each, decide_True, Hr by done.
      by rewrite <- app_assoc. }
    split; [done|]. split; [|split].
    + rewrite emit_executed, Hall, fmap_app, concat_app, List.filter_app.
      rewrite executed_without by done.
      rewrite fmap_cons. cbn [concat]. rewrite List.filter_app.
      rewrite (executed_without _ _ later) by done.
      rewrite complete_schedule_user. simpl. unfold is_execution_of; simpl.
      by rewrite bool_decide_eq_true_2.
    + apply emit_outcome.
    + rewrite emit_executed, registered_cleanup. subst c; simpl.
      rewrite decide_True by done.
      rewrite Hall, list_remove_first by done. simpl.
      rewrite fmap_app, concat_app, List.filter_app.
      by rewrite !executed_without.
Qed.

(** C5.  When a handler registered for [T] fails during [emit], the body
    of every handler registered for [T] is still executed with the
    data, the failure is among the results [gather] collects, and
    [emit] returns to its caller without raising. *)
Theorem emit_isolates_handler_failures (T : str) (data : value) m g e :
  g ∈ registered T m ->
  (complete body (schedule g data)).2 = Raise e ->
  (forall h, h ∈ registered T m ->
             In (h, data) (executed (emit body T data m))) /\
  In (Raise e) (results (emit body T data m)) /\
  outcome (emit body T data m) = Ok ().
Proof.
  intros Hg Hfail. split; [|split].
  - intros h Hh. rewrite emit_executed. apply in_concat.
    exists (complete body (schedule h data)).1. split.
    + apply in_map_iff. exists h. split; [done|].
      by apply list_elem_of_In.
    + apply complete_schedule_self.
  - rewrite emit_results. apply in_map_iff. exists g.
    split; [done | by apply list_elem_of_In].
  - apply emit_outcome.
Qed.

End WithBodies.

Lemma emit_invokes_registered_handler_witness :
  let body : function -> value -> result unit := fun _ _ => Ok () in
  let T := lit "button_press" in
  let m := (on T (User f0) new).2 in
  let later := [User f2; User g0] in
  (executed (emit body T (VStr (lit "top")) new) = [] /\
   outcome (emit body T (VStr (lit "top")) new) = Ok ()) /\
  Forall (fun h => target h <> f1) (registered T m) /\
  Forall (fun h => target h <> f1) later /\
  (let '(c, m1) := on T (User f1) m in
   let m' := on_each T later m1 in
   registered T m' = [User f0; User f1; User f2; User g0] /\
   List.filter (is_execution_of f1)
     (executed (emit body T (VStr (lit "top")) m'))
     = [(User f1, VStr (lit "top"))] /\
   outcome (emit body T (VStr (lit "top")) m') = Ok () /\
   List.filter (is_execution_of f1)
     (executed (emit body T (VStr (lit "top")) (cleanup c m'))) = []).
Proof.
  intros body T m later.
  assert (Forall (fun h => target h <> f1) (registered T m)) as Hbefore.
  { change (registered T m) with [User f0]. by repeat constructor. }
  assert (Forall (fun h => target h <> f1) later) as Hlater
    by by repeat constructor.
  split.
  - destruct (emit_invokes_registered_handler body T (VStr (lit "top")) f0
                new []) as [Hnone _].
    apply Hnone. reflexivity.
  - split; [exact Hbefore|]. split; [exact Hlater|].
    destruct (emit_invokes_registered_handler body T (VStr (lit "top")) f1
                m later) as [_ Hone].
    exact (Hone Hbefore Hlater).
Defined.

Lemma emit_isolates_handler_failures_witness :
  let body : function -> value -> result unit :=
    fun f _ => if fn_id f =? 1 then Raise (UserError 7) else Ok () in
  let T := lit "button_press" in
  let m := (on T (User f2) (on T (User f1) (on T (User f0) new).2).2).2 in
  (forall h, h ∈ registered T m ->
             In (h, VInt 1) (executed (emit body T (VInt 1) m))) /\
  In (Raise (UserError 7)) (results (emit body T (VInt 1) m)) /\
  outcome (emit body T (VInt 1) m) = Ok ().
Proof.
  intros body T m.
  apply (emit_isolates_handler_failures body T (VInt 1) m (User f1)
           (UserError 7)).
  - change (User f1 ∈ [User f0; User f1; User f2]).
    apply list_elem_of_further, list_elem_of_here.
  - reflexivity.
Defined.

End DispatchFacts.

(** ** Custom messages *)

Section CustomMessageFacts.

Import Events.

Variable body : function -> value -> result unit.

(** C10.  The code at the failing input: a coroutine function registered
    with [on_custom_message] for the action ["greet"], and a message with
    that action delivered.  The closure [message_handler] is run (in the
    executor) and returns the coroutine [handler(message.payload)];
    [emit] drops it with the other results, so the body of the handler is
    never executed.  Registered directly for an event type, the same
    function is executed by [emit]. *)
Theorem custom_message_coroutine_handler_never_runs (payload : value) :
  let m := (on_custom_message (lit "greet") g0 new).2 in
  let message := VCustomMessage (lit "greet") payload in
  let e := emit body (lit "custom_message") message m in
  executed e = [(MessageHandler 0 (lit "greet") g0, message)] /\
  results e = [Ok (RCoroutine g0 payload)] /\
  ~ In (User g0, payload) (executed e) /\
  In (User g0, payload)
     (executed (emit body (lit "direct") payload
                  (on (lit "direct") (User g0) new).2)).
Proof.
  repeat split.
  - intros [H|[]]. discriminate.
  - by left.
Qed.

(** For a plain function the claim of C10 holds: it is executed, with the
    payload of the message, exactly when the action matches. *)
Lemma custom_message_plain_handler m (action a : str) (f : function)
  (payload : value) :
  is_coroutine_function f = false ->
  Forall (fun h => target h <> f) (registered (lit "custom_message") m) ->
  let m' := (on_custom_message action f m).2 in
  let e := emit body (lit "custom_message") (VCustomMessage a payload) m' in
  (a = action ->
   List.filter (is_execution_of f) (executed e) = [(User f, payload)]) /\
  (a <> action -> List.filter (is_execution_of f) (executed e) = []).
Proof.
  intros Hf Hfresh m' e. subst e m'. unfold on_custom_message.
  rewrite emit_executed, registered_add_handler, decide_True by done.
  change (registered (lit "custom_message") (allocate_closure m))
    with (registered (lit "custom_message") m).
  rewrite fmap_app, concat_app, List.filter_app.
  rewrite executed_without by done. simpl.
  unfold call_function, is_execution_of. rewrite Hf. simpl.
  split; intros Ha.
  - rewrite decide_True by done. simpl.
    by rewrite bool_decide_eq_true_2.
  - by rewrite decide_False.
Qed.

(** Handlers for different actions coexist on ["custom_message"]: each
    message runs the one whose action it carries. *)
Example custom_message_handlers_coexist :
  let m1 := (on_custom_message (lit "a") f0 new).2 in
  let m2 := (on_custom_message (lit "b") f1 m1).2 in
  List.filter (fun e => is_execution_of f0 e || is_execution_of f1 e)
    (executed (emit body (lit "custom_message")
                 (VCustomMessage (lit "a") (VInt 1)) m2))
    = [(User f0, VInt 1)] /\
  List.filter (fun e => is_execution_of f0 e || is_execution_of f1 e)
    (executed (emit body (lit "custom_message")
                 (VCustomMessage (lit "b") (VInt 2)) m2))
    = [(User f1, VInt 2)].
Proof. split; reflexivity. Qed.

End CustomMessageFacts.

(** ** The single transcription slot *)

Section SingleSlotFacts.

Import Events.

Implicit Types (m : EventManager) (h : handler) (c : CleanupFunction).








Section WithDatabase.

Variable alphabetic : N -> bool.






End WithDatabase.



End SingleSlotFacts.

(** ** The ResourceTracker *)

Section TrackerFacts.

Import Tracker.

Variable cleanup_body : nat -> result unit.
Variable async_cleanup_body : nat -> result unit.
Variable await_task : nat -> awaited.

#[local] Abbreviation dispose := (Tracker.dispose cleanup_body).
#[local] Abbreviation dispose_async :=
  (Tracker.dispose_async cleanup_body async_cleanup_body await_task).

(** *** Rules for computations *)

Lemma hoare_bind {A B} (P : State -> Prop) (R : result A -> State -> Prop)
  (Q : result B -> State -> Prop) (c : M A) (k : A -> M B) :
  hoare P c R ->
  (forall a, hoare (R (Ok a)) (k a) Q) ->
  (forall e s, R (Raise e) s -> Q (Raise e) s) ->
  hoare P (bind c k) Q.
Proof.
  intros Hc Hk He s Hs. unfold bind. specialize (Hc s Hs).
  destruct (c s) as [[a|e] s']; simpl in *.
  - by apply Hk.
  - by apply He.
Qed.

Lemma hoare_weaken {A} (P P' : State -> Prop)
  (Q Q' : result A -> State -> Prop) (c : M A) :
  hoare P' c Q' -> (forall s, P s -> P' s) ->
  (forall r s, Q' r s -> Q r s) -> hoare P c Q.
Proof. intros Hc HP HQ s Hs. apply HQ, Hc, HP, Hs. Qed.

Lemma keeps_bind {A B} (I : State -> Prop) (c : M A) (k : A -> M B) :
  keeps I c -> (forall a, keeps I (k a)) -> keeps I (bind c k).
Proof. intros Hc Hk. by apply (hoare_bind I (fun _ s => I s)). Qed.

Lemma keeps_try (I : State -> Prop) (c : M unit) (h : exn -> M unit) :
  keeps I c -> (forall e, keeps I (h e)) -> keeps I (try_except c h).
Proof.
  intros Hc Hh s Hs. unfold try_except. specialize (Hc s Hs).
  destruct (c s) as [[a|e] s']; simpl in *; [done|].
  destruct (decide (e = CancelledError)); [done | by apply Hh].
Qed.

Lemma hoare_try (I J : State -> Prop) (c : M unit) (h : exn -> M unit) :
  hoare I c (fun _ s => J s) -> (forall e, keeps J (h e)) ->
  hoare I (try_except c h) (fun _ s => J s).
Proof.
  intros Hc Hh s Hs. unfold try_except. specialize (Hc s Hs).
  destruct (c s) as [[a|e] s']; simpl in *; [done|].
  destruct (decide (e = CancelledError)); [done | by apply Hh].
Qed.

Lemma hoare_try_all (I J : State -> Prop) (c : M unit) (h : exn -> M unit) :
  hoare I c (fun _ s => J s) -> (forall e, keeps J (h e)) ->
  hoare I (try_all c h) (fun _ s => J s).
Proof.
  intros Hc Hh s Hs. unfold try_all. specialize (Hc s Hs).
  destruct (c s) as [[a|e] s']; simpl in *; [done | by apply Hh].
Qed.

Lemma keeps_try_all (I : State -> Prop) (c : M unit) (h : exn -> M unit) :
  keeps I c -> (forall e, keeps I (h e)) -> keeps I (try_all c h).
Proof.
  intros Hc Hh s Hs. unfold try_all. specialize (Hc s Hs).
  destruct (c s) as [[a|e] s']; simpl in *; [done | by apply Hh].
Qed.

Lemma keeps_for_each {A} (I : State -> Prop) (l : list A) (f : A -> M unit) :
  (forall a, keeps I (f a)) -> keeps I (for_each l f).
Proof.
  intros Hf. induction l as [|a l IH]; simpl.
  - by intros s Hs.
  - by apply keeps_bind.
Qed.

Lemma keeps_still {A} (I : State -> Prop) (c : M A) :
  (forall s, (c s).2 = s) -> keeps I c.
Proof. intros Hc s Hs. simpl. by rewrite Hc. Qed.

Lemma keeps_if {A} (I : State -> Prop) (b : bool) (c1 c2 : M A) :
  keeps I c1 -> keeps I c2 -> keeps I (if b then c1 else c2).
Proof. by destruct b. Qed.

Lemma keeps_for_each_task (I : State -> Prop) initial (l : list nat)
  (f : nat -> M unit) :
  (forall a, keeps I (f a)) -> keeps I (for_each_task initial l f).
Proof.
  intros Hf. induction l as [|a l IH]; cbn [for_each_task].
  - apply keeps_bind; [by apply keeps_still|]. intros t.
    destruct (decide _); by apply keeps_still.
  - apply keeps_bind; [by apply keeps_still|]. intros t.
    destruct (decide _); [|by apply keeps_still].
    by apply keeps_bind.
Qed.

(** *** Tracking after disposal *)

(** [track] and [track_async] check the flag first: on a disposed tracker
    they raise and change nothing. *)
Lemma track_after_disposal (c : CleanupFunction) (s : State) :
  _disposed s.1 = true -> track c s = (Raise disposed_error, s).
Proof. intros Hd. unfold track, bind, get_tracker. simpl. by rewrite Hd. Qed.

Lemma track_async_after_disposal (c : nat) (s : State) :
  _disposed s.1 = true -> track_async c s = (Raise disposed_error, s).
Proof.
  intros Hd. unfold track_async, bind, get_tracker. simpl. by rewrite Hd.
Qed.

(** [track_timer] appends before [track] raises; [track_task] has no
    check. *)
Lemma track_timer_after_disposal (timer : nat) (s : State) :
  _disposed s.1 = true ->
  track_timer timer s = (Raise disposed_error, (append_timer timer s.1, s.2)).
Proof.
  intros Hd. unfold track_timer, track, bind, get_tracker, modify_tracker.
  simpl. by rewrite Hd.
Qed.

Lemma track_task_after_disposal (task : nat) (s : State) :
  track_task task s = (Ok task, (add_task task s.1, s.2)).
Proof. done. Qed.

(** C3.  The code at the failing inputs: on a tracker that was disposed,
    [track_task] returns normally and adds the task to [_tasks];
    [track_timer], [set_timeout] and [set_interval] raise, but only after
    the timer has been appended to [_timers] (and, for the last two,
    after the timer was scheduled on the loop).  [track] and
    [track_async] raise and change nothing. *)
Theorem tracking_after_disposal_still_mutates :
  let s := (dispose (new, empty_world)).2 in
  _disposed s.1 = true /\
  ((track_task 7 s).1 = Ok 7 /\
   (7 ∉ _tasks s.1) /\ (7 ∈ _tasks (track_task 7 s).2.1)) /\
  ((track_timer 0 s).1 = Raise disposed_error /\
   _timers s.1 = [] /\ _timers (track_timer 0 s).2.1 = [0]) /\
  ((set_timeout (UserCallback 1) 1%Q s).1 = Raise disposed_error /\
   _timers (set_timeout (UserCallback 1) 1%Q s).2.1 = [0] /\
   length (handles (set_timeout (UserCallback 1) 1%Q s).2.2) = 1) /\
  ((set_interval 1 1%Q s).1 = Raise disposed_error /\
   _timers (set_interval 1 1%Q s).2.1 = [0]) /\
  track (UserCleanup 0) s = (Raise disposed_error, s) /\
  track_async 0 s = (Raise disposed_error, s).
Proof.
  cbv zeta. repeat split; try reflexivity.
  change (7 ∉ (∅ : gset nat)). apply not_elem_of_empty.
Qed.

(** *** Disposal *)

Lemma ok_bind {A B} (I J K : State -> Prop) (c : M A) (k : A -> M B) :
  hoare I c (ok_and J) -> (forall a, hoare J (k a) (ok_and K)) ->
  hoare I (bind c k) (ok_and K).
Proof.
  intros Hc Hk. apply (hoare_bind I (ok_and J)); [done | |].
  - intros a s [_ Hs]. by apply Hk.
  - by intros e s [? _].
Qed.

Lemma hoare_bind_ok {A B} (I J : State -> Prop)
  (Q : result B -> State -> Prop) (c : M A) (k : A -> M B) :
  hoare I c (ok_and J) -> (forall a, hoare J (k a) Q) -> hoare I (bind c k) Q.
Proof.
  intros Hc Hk. apply (hoare_bind I (ok_and J)); [done | |].
  - intros a s [_ Hs]. by apply Hk.
  - by intros e s [? _].
Qed.

Lemma ok_for_each {A} (I : State -> Prop) (l : list A) (f : A -> M unit) :
  (forall a, hoare I (f a) (ok_and I)) -> hoare I (for_each l f) (ok_and I).
Proof.
  intros Hf. induction l as [|a l IH]; simpl.
  - by intros s Hs.
  - by apply (ok_bind I I I).
Qed.

Lemma ok_try_all (I J : State -> Prop) (c : M unit) (h : exn -> M unit) :
  hoare I c (fun _ s => J s) ->
  (forall e, hoare J (h e) (ok_and J)) ->
  hoare I (try_all c h) (ok_and J).
Proof.
  intros Hc Hh s Hs. unfold try_all. specialize (Hc s Hs).
  destruct (c s) as [[a|e] s']; simpl in *; [done | by apply Hh].
Qed.

(** The [except Exception] handler makes the whole return when the body
    raises no [CancelledError]. *)
Lemma ok_try (I J : State -> Prop) (c : M unit) (h : exn -> M unit) :
  hoare I c (fun r s => J s /\ r <> Raise CancelledError) ->
  (forall e, hoare J (h e) (ok_and J)) ->
  hoare I (try_except c h) (ok_and J).
Proof.
  intros Hc Hh s Hs. unfold try_except. specialize (Hc s Hs).
  destruct (c s) as [[a|e] s']; simpl in *; [by destruct Hc|].
  destruct Hc as [HJ Hne].
  destruct (decide (e = CancelledError)) as [->|]; [done | by apply Hh].
Qed.

Lemma ok_if {A} (I J : State -> Prop) (b : bool) (c1 c2 : M A) :
  hoare I c1 (ok_and J) -> hoare I c2 (ok_and J) ->
  hoare I (if b then c1 else c2) (ok_and J).
Proof. by destruct b. Qed.

Lemma cleanup_calls_add_log e w :
  cleanup_calls (add_log e w) =
  cleanup_calls w ++ (if is_cleanup_call e then [e] else []).
Proof. unfold cleanup_calls, add_log; simpl. by rewrite List.filter_app. Qed.

Lemma ok_perform L e :
  hoare (disposed_with L) (perform e)
    (ok_and (disposed_with (L ++ if is_cleanup_call e then [e] else []))).
Proof.
  intros [t w] [Hd Hc]; simpl in *. split; [done|]. split; [done|]; simpl.
  by rewrite cleanup_calls_add_log, Hc.
Qed.

Lemma ok_perform_other L e :
  is_cleanup_call e = false ->
  hoare (disposed_with L) (perform e) (ok_and (disposed_with L)).
Proof.
  intros He. pose proof (ok_perform L e) as H. rewrite He, app_nil_r in H.
  exact H.
Qed.

Lemma ok_timer_cancelled L timer :
  hoare (disposed_with L) (timer_cancelled timer) (ok_and (disposed_with L)).
Proof. by intros s Hs. Qed.

Lemma ok_timer_cancel L timer :
  hoare (disposed_with L) (timer_cancel timer) (ok_and (disposed_with L)).
Proof.
  intros [t w] [Hd Hc]; simpl in *. split; [done|]. split; [done|]; simpl.
  rewrite cleanup_calls_add_log. simpl. by rewrite app_nil_r.
Qed.

Lemma ok_cancel_if_pending L timer :
  hoare (disposed_with L)
    (let* b := timer_cancelled timer in
     if negb b then timer_cancel timer else ret ())
    (ok_and (disposed_with L)).
Proof.
  apply (ok_bind _ (disposed_with L)); [apply ok_timer_cancelled|].
  intros b. apply ok_if; [apply ok_timer_cancel | by intros s Hs].
Qed.

Lemma ok_cancel_timers L timers :
  hoare (disposed_with L) (cancel_timers timers) (ok_and (disposed_with L)).
Proof. apply ok_for_each. intros timer. apply ok_cancel_if_pending. Qed.

Lemma ok_cancel_task L task :
  hoare (disposed_with L)
    (let* d := task_done task in if negb d then task_cancel task else ret ())
    (ok_and (disposed_with L)).
Proof.
  apply (ok_bind _ (disposed_with L)); [by intros s Hs|].
  intros d. apply ok_if; [by apply ok_perform_other | by intros s Hs].
Qed.

Lemma ok_await_cancelled L task :
  hoare (disposed_with L) (await_cancelled await_task task)
    (ok_and (disposed_with L)).
Proof.
  unfold await_cancelled.
  apply (ok_bind _ (disposed_with L)); [by apply ok_perform_other|].
  intros _. apply (ok_bind _ (disposed_with L)).
  { apply ok_for_each. intros other [t w] Hs. done. }
  intros _. apply (ok_bind _ (disposed_with L)); [by intros s Hs|].
  intros w. apply (ok_bind _ (disposed_with L)).
  { by intros s Hs. }
  intros _. destruct (await_result _) as [|e]; [by intros s Hs|].
  destruct (decide _); [by intros s Hs | by apply ok_perform_other].
Qed.

Lemma ok_cancel_and_await_task L task :
  hoare (disposed_with L)
    (let* d := task_done task in
     if negb d then let* _ := task_cancel task in
                    await_cancelled await_task task
     else ret ())
    (ok_and (disposed_with L)).
Proof.
  apply (ok_bind _ (disposed_with L)); [by intros s Hs|].
  intros d. apply ok_if; [|by intros s Hs].
  apply (ok_bind _ (disposed_with L)); [by apply ok_perform_other|].
  intros _. apply ok_await_cancelled.
Qed.

Lemma ok_keeps {A} (I : State -> Prop) (c : M A) :
  hoare I c (ok_and I) -> keeps I c.
Proof. intros Hc s Hs. by apply Hc. Qed.

Lemma invoke_disposed_with L c :
  hoare (disposed_with L) (invoke cleanup_body c)
    (fun _ s => disposed_with (L ++ [CleanupCall c]) s).
Proof.
  unfold invoke.
  apply (hoare_bind _ (ok_and (disposed_with (L ++ [CleanupCall c])))).
  - apply (ok_perform L (CleanupCall c)).
  - intros _ s [_ Hs]. revert s Hs.
    change (keeps (disposed_with (L ++ [CleanupCall c]))
              (match c with
               | UserCleanup id => lift (cleanup_body id)
               | TimerCleanup timer =>
                   let* b := timer_cancelled timer in
                   if negb b then timer_cancel timer else ret ()
               | IntervalCancel cell => cell_cancel cell
               end)).
    destruct c as [id|timer|cell].
    + by apply keeps_still.
    + intros s Hs. by apply ok_cancel_if_pending.
    + by intros [t w] [Hd Hc].
  - by intros e s [? _].
Qed.

(** *** The cleanup calls of a disposal *)

Lemma called_within_nil {A} L (c : M A) :
  keeps (disposed_with L) c -> hoare (disposed_with L) c (called_within L []).
Proof.
  intros Hc s Hs. exists []. split; [done|]. rewrite app_nil_r.
  split; [by apply Hc | done].
Qed.

Lemma called_within_bind {A B} L P (c : M A) (k : A -> M B) :
  keeps (disposed_with L) c ->
  (forall a, hoare (disposed_with L) (k a) (called_within L P)) ->
  hoare (disposed_with L) (bind c k) (called_within L P).
Proof.
  intros Hc Hk. apply (hoare_bind _ (fun _ s => disposed_with L s)); [done..|].
  intros e s Hs. exists []. split; [apply prefix_nil|].
  by rewrite app_nil_r.
Qed.

Lemma called_within_seq {A B} L P1 P2 (c : M A) (k : A -> M B) :
  hoare (disposed_with L) c (called_within L P1) ->
  (forall a, hoare (disposed_with (L ++ P1)) (k a)
               (called_within (L ++ P1) P2)) ->
  hoare (disposed_with L) (bind c k) (called_within L (P1 ++ P2)).
Proof.
  intros Hc Hk s Hs. unfold bind. specialize (Hc s Hs).
  destruct (c s) as [[a|e] s']; simpl in *.
  - destruct Hc as (called & Hpre & Hd & Hall). rewrite (Hall eq_refl) in Hd.
    destruct (Hk a s' Hd) as (called' & Hpre' & Hd' & Hall').
    exists (P1 ++ called'). split; [by apply prefix_app|].
    split; [by rewrite app_assoc|]. intros Hok. by rewrite Hall'.
  - destruct Hc as (called & Hpre & Hd & _).
    exists called. split; [by apply prefix_app_r|]. done.
Qed.

Lemma called_within_one L (c : M unit) (e : effect) :
  hoare (disposed_with L) c (fun _ s => disposed_with (L ++ [e]) s) ->
  hoare (disposed_with L) c (called_within L [e]).
Proof. intros Hc s Hs. exists [e]. split; [done|]. split; [by apply Hc|done]. Qed.

Lemma run_cleanup_functions_calls L l :
  hoare (disposed_with L) (run_cleanup_functions cleanup_body l)
    (called_within L (CleanupCall <$> l)).
Proof.
  revert L. induction l as [|c l IH]; intros L.
  - apply called_within_nil. by intros s Hs.
  - rewrite fmap_cons. change (CleanupCall c :: (CleanupCall <$> l))
      with ([CleanupCall c] ++ (CleanupCall <$> l)).
    apply called_within_seq; [|intros _; apply IH].
    apply called_within_one, hoare_try; [apply invoke_disposed_with|].
    intros e. by apply ok_keeps, ok_perform_other.
Qed.

Lemma run_async_cleanup_functions_calls L (l : list nat) :
  hoare (disposed_with L)
    (for_each l (fun cleanup =>
       try_except
         (let* _ := perform (AsyncCleanupCall cleanup) in
          lift (async_cleanup_body cleanup))
         (fun e => perform (Print e))))
    (called_within L (AsyncCleanupCall <$> l)).
Proof.
  revert L. induction l as [|c l IH]; intros L.
  - apply called_within_nil. by intros s Hs.
  - rewrite fmap_cons. change (AsyncCleanupCall c :: (AsyncCleanupCall <$> l))
      with ([AsyncCleanupCall c] ++ (AsyncCleanupCall <$> l)).
    apply called_within_seq; [|intros _; apply IH].
    apply called_within_one, hoare_try.
    + apply (hoare_bind _ (ok_and (disposed_with (L ++ [AsyncCleanupCall c])))).
      * apply (ok_perform L (AsyncCleanupCall c)).
      * by intros _ s [_ Hs].
      * by intros e s [? _].
    + intros e. by apply ok_keeps, ok_perform_other.
Qed.

Lemma ok_clear_lists L :
  hoare (disposed_with L) (modify_tracker clear_lists)
    (ok_and (disposed_with L)).
Proof. by intros [t w] [Hd Hc]. Qed.

(** A disposal on a disposed tracker returns at once: nothing is written,
    nothing is done. *)
Lemma dispose_after_disposal (s : State) :
  _disposed s.1 = true -> dispose s = (Ok (), s).
Proof. intros Hd. unfold Tracker.dispose, bind, get_tracker. simpl. by rewrite Hd. Qed.

Lemma dispose_async_after_disposal (s : State) :
  _disposed s.1 = true -> dispose_async s = (Ok (), s).
Proof.
  intros Hd. unfold Tracker.dispose_async, bind, get_tracker. simpl.
  by rewrite Hd.
Qed.

(** A first disposal sets the flag and calls the tracked cleanup
    functions in order, each at most once per registration: it stops at
    one that raises [CancelledError], and has called them all when it
    returns. *)
Lemma dispose_first (s : State) :
  _disposed s.1 = false ->
  called_within (cleanup_calls s.2) (CleanupCall <$> _cleanup_functions s.1)
    (dispose s).1 (dispose s).2.
Proof.
  intros Hd. set (L := cleanup_calls s.2).
  assert (hoare (fun s' => s' = s) dispose
            (called_within L (CleanupCall <$> _cleanup_functions s.1)))
    as H; [|by apply H].
  intros s' ->. unfold Tracker.dispose.
  change (bind get_tracker ?k s) with (k s.1 s). cbv beta. rewrite Hd.
  revert s Hd L. intros [t w] Hd L. simpl in *.
  apply (hoare_bind_ok (fun s' => s' = (t, w)) (disposed_with L));
    [by intros s' -> | |done].
  intros _. apply called_within_bind; [apply ok_keeps, ok_cancel_timers|].
  intros _. apply called_within_bind.
  { apply ok_keeps, ok_for_each. intros task. apply ok_cancel_task. }
  intros _.
  rewrite <- (app_nil_r (CleanupCall <$> _cleanup_functions t)).
  apply called_within_seq; [apply run_cleanup_functions_calls|].
  intros _. apply called_within_nil, ok_keeps, ok_clear_lists.
Qed.

Lemma dispose_async_first (s : State) :
  _disposed s.1 = false ->
  called_within (cleanup_calls s.2)
    ((CleanupCall <$> _cleanup_functions s.1) ++
     (AsyncCleanupCall <$> _async_cleanup_functions s.1))
    (dispose_async s).1 (dispose_async s).2.
Proof.
  intros Hd. set (L := cleanup_calls s.2).
  assert (hoare (fun s' => s' = s) dispose_async
            (called_within L
               ((CleanupCall <$> _cleanup_functions s.1) ++
                (AsyncCleanupCall <$> _async_cleanup_functions s.1))))
    as H; [|by apply H].
  intros s' ->. unfold Tracker.dispose_async.
  change (bind get_tracker ?k s) with (k s.1 s). cbv beta. rewrite Hd.
  revert s Hd L. intros [t w] Hd L. simpl in *.
  apply (hoare_bind_ok (fun s' => s' = (t, w)) (disposed_with L));
    [by intros s' -> | |done].
  intros _. apply called_within_bind; [apply ok_keeps, ok_cancel_timers|].
  intros _. apply called_within_bind.
  { apply keeps_for_each_task. intros task.
    apply ok_keeps, ok_cancel_and_await_task. }
  intros _. apply called_within_seq; [apply run_cleanup_functions_calls|].
  intros _.
  rewrite <- (app_nil_r (AsyncCleanupCall <$> _async_cleanup_functions t)).
  apply called_within_seq; [apply run_async_cleanup_functions_calls|].
  intros _. apply called_within_nil, ok_keeps, ok_clear_lists.
Qed.

End TrackerFacts.

(** ** What every history keeps *)

Section StableFacts.

Import Tracker.

Variable cleanup_body : nat -> result unit.
Variable async_cleanup_body : nat -> result unit.
Variable await_task : nat -> awaited.


Variable I : State -> Prop.
Variable allowed : effect -> Prop.
Hypothesis I_stable : stable I allowed.

Lemma keeps_modify_tracker f :
  (forall t, _disposed t = true -> _disposed (f t) = true) ->
  keeps I (modify_tracker f).
Proof using I_stable.
  intros Hf [t w] Hs. by apply (stable_tracker _ _ I_stable).
Qed.

Lemma keeps_perform e : allowed e -> keeps I (perform e).
Proof using I_stable.
  intros He [t w] Hs. by apply (stable_log _ _ I_stable).
Qed.

Lemma keeps_perform_quiet e : is_callback_call e = false -> keeps I (perform e).
Proof using I_stable.
  intros He. by apply keeps_perform, (stable_quiet _ _ I_stable).
Qed.

Lemma keeps_set_handles hs : keeps I (modify_world (set_handles hs)).
Proof using I_stable.
  intros [t w] Hs. by apply (stable_handles _ _ I_stable).
Qed.

Lemma keeps_set_done_tasks d : keeps I (modify_world (set_done_tasks d)).
Proof using I_stable.
  intros [t w] Hs. by apply (stable_done _ _ I_stable).
Qed.

Lemma keeps_call_later delay cb : keeps I (call_later delay cb).
Proof using I_stable.
  unfold call_later. apply keeps_bind; [by apply keeps_still|]. intros w.
  apply keeps_bind; [apply keeps_set_handles|]. intros _.
  by apply keeps_still.
Qed.

Lemma keeps_timer_cancelled timer : keeps I (timer_cancelled timer).
Proof. by apply keeps_still. Qed.

Lemma keeps_timer_cancel timer : keeps I (timer_cancel timer).
Proof using I_stable.
  unfold timer_cancel. apply keeps_bind; [by apply keeps_still|]. intros w.
  apply keeps_bind; [apply keeps_set_handles|]. intros _.
  by apply keeps_perform_quiet.
Qed.

Lemma keeps_new_cell : keeps I new_cell.
Proof using I_stable.
  intros [t w] Hs. by apply (stable_new_cell _ _ I_stable).
Qed.

Lemma keeps_cell_cancel c : keeps I (cell_cancel c).
Proof using I_stable.
  intros [t w] Hs. by apply (stable_cell_cancel _ _ I_stable).
Qed.

Lemma keeps_track c : keeps I (track c).
Proof using I_stable.
  unfold track. apply keeps_bind; [by apply keeps_still|]. intros t.
  apply keeps_if; [by apply keeps_still|].
  apply keeps_bind; [by apply keeps_modify_tracker|].
  intros _. by apply keeps_still.
Qed.

Lemma keeps_track_async c : keeps I (track_async c).
Proof using I_stable.
  unfold track_async. apply keeps_bind; [by apply keeps_still|]. intros t.
  apply keeps_if; [by apply keeps_still|].
  apply keeps_bind; [by apply keeps_modify_tracker|].
  intros _. by apply keeps_still.
Qed.

Lemma keeps_track_timer timer : keeps I (track_timer timer).
Proof using I_stable.
  unfold track_timer. apply keeps_bind; [by apply keeps_modify_tracker|].
  intros _. apply keeps_track.
Qed.

Lemma keeps_track_task task : keeps I (track_task task).
Proof using I_stable.
  unfold track_task. apply keeps_bind; [by apply keeps_modify_tracker|].
  intros _. by apply keeps_still.
Qed.

Lemma keeps_set_timeout cb delay : keeps I (set_timeout cb delay).
Proof using I_stable.
  unfold set_timeout. apply keeps_bind; [apply keeps_call_later|].
  intros timer. apply keeps_bind; [apply keeps_track_timer|].
  intros _. by apply keeps_still.
Qed.

Lemma keeps_set_interval cb interval : keeps I (set_interval cb interval).
Proof using I_stable.
  unfold set_interval. apply keeps_bind; [apply keeps_new_cell|].
  intros c. apply keeps_bind; [apply keeps_set_timeout|].
  intros _. apply keeps_track.
Qed.

Lemma keeps_cancel_if_pending timer :
  keeps I (let* b := timer_cancelled timer in
           if negb b then timer_cancel timer else ret ()).
Proof using I_stable.
  apply keeps_bind; [apply keeps_timer_cancelled|]. intros b.
  apply keeps_if; [apply keeps_timer_cancel | by apply keeps_still].
Qed.

Lemma keeps_invoke c : keeps I (invoke cleanup_body c).
Proof using I_stable.
  unfold invoke. apply keeps_bind; [by apply keeps_perform_quiet|]. intros _.
  destruct c as [id|timer|c].
  - by apply keeps_still.
  - apply keeps_cancel_if_pending.
  - apply keeps_cell_cancel.
Qed.

Lemma keeps_cancel_timers timers : keeps I (cancel_timers timers).
Proof using I_stable.
  apply keeps_for_each. intros timer. apply keeps_cancel_if_pending.
Qed.

Lemma keeps_run_cleanup_functions l :
  keeps I (run_cleanup_functions cleanup_body l).
Proof using I_stable.
  apply keeps_for_each. intros c. apply keeps_try; [apply keeps_invoke|].
  intros e. by apply keeps_perform_quiet.
Qed.

Lemma keeps_dispose : keeps I (dispose cleanup_body).
Proof using I_stable.
  unfold dispose. apply keeps_bind; [by apply keeps_still|]. intros t.
  apply keeps_if; [by apply keeps_still|].
  apply keeps_bind; [by apply keeps_modify_tracker|]. intros _.
  apply keeps_bind; [apply keeps_cancel_timers|]. intros _.
  apply keeps_bind.
  { apply keeps_for_each. intros task.
    apply keeps_bind; [by apply keeps_still|]. intros d.
    apply keeps_if; [by apply keeps_perform_quiet | by apply keeps_still]. }
  intros _. apply keeps_bind; [apply keeps_run_cleanup_functions|].
  intros _. by apply keeps_modify_tracker.
Qed.

Lemma keeps_await_cancelled task : keeps I (await_cancelled await_task task).
Proof using I_stable.
  unfold await_cancelled. apply keeps_bind; [by apply keeps_perform_quiet|].
  intros _. apply keeps_bind.
  { apply keeps_for_each. intros other.
    apply keeps_bind; [apply keeps_track_task | by intros; apply keeps_still]. }
  intros _. apply keeps_bind; [by apply keeps_still|]. intros w.
  apply keeps_bind.
  { apply keeps_set_done_tasks. }
  intros _. destruct (await_result _) as [|e]; [by apply keeps_still|].
  destruct (decide _); [by apply keeps_still | by apply keeps_perform_quiet].
Qed.

Lemma keeps_dispose_async :
  keeps I (dispose_async cleanup_body async_cleanup_body await_task).
Proof using I_stable.
  unfold dispose_async. apply keeps_bind; [by apply keeps_still|]. intros t.
  apply keeps_if; [by apply keeps_still|].
  apply keeps_bind; [by apply keeps_modify_tracker|]. intros _.
  apply keeps_bind; [apply keeps_cancel_timers|]. intros _.
  apply keeps_bind.
  { apply keeps_for_each_task. intros task.
    apply keeps_bind; [by apply keeps_still|]. intros d.
    apply keeps_if; [|by apply keeps_still].
    apply keeps_bind; [by apply keeps_perform_quiet|]. intros _.
    apply keeps_await_cancelled. }
  intros _. apply keeps_bind; [apply keeps_run_cleanup_functions|].
  intros _. apply keeps_bind.
  { apply keeps_for_each. intros c. apply keeps_try.
    - apply keeps_bind; [by apply keeps_perform_quiet|]. intros _.
      by apply keeps_still.
    - intros e. by apply keeps_perform_quiet. }
  intros _. by apply keeps_modify_tracker.
Qed.

Lemma keeps_discard {A} (c : M A) : keeps I c -> keeps I (discard c).
Proof.
  intros Hc. unfold discard. apply keeps_bind; [done|].
  intros _. by apply keeps_still.
Qed.

(** Every call of the application keeps the property. *)
Lemma keeps_make c :
  keeps I (make cleanup_body async_cleanup_body await_task c).
Proof using I_stable.
  destruct c; simpl.
  - apply keeps_discard, keeps_track.
  - apply keeps_discard, keeps_track_async.
  - apply keeps_discard, keeps_track_timer.
  - apply keeps_discard, keeps_track_task.
  - apply keeps_discard, keeps_set_timeout.
  - apply keeps_discard, keeps_set_interval.
  - apply keeps_dispose.
  - apply keeps_dispose_async.
  - apply keeps_invoke.
  - apply keeps_timer_cancel.
  - apply keeps_discard, keeps_call_later.
Qed.

(** What the application's callback does while it runs. *)
Lemma keeps_during (during : list call) :
  keeps I
    (for_each during (fun c =>
       try_all (make cleanup_body async_cleanup_body await_task c)
                  (fun _ => ret ()))).
Proof using I_stable.
  apply keeps_for_each. intros c. apply keeps_try_all; [apply keeps_make|].
  intros e. by apply keeps_still.
Qed.

Lemma ok_make_caught c :
  hoare I
    (try_all (make cleanup_body async_cleanup_body await_task c)
                (fun _ => ret ()))
    (ok_and I).
Proof using I_stable.
  apply ok_try_all; [by apply keeps_make|]. by intros e s Hs.
Qed.

Lemma keeps_user_callback id ic during ends :
  allowed (CallbackCall id ic) ->
  keeps I
    (user_callback cleanup_body async_cleanup_body await_task id ic during
       ends).
Proof using I_stable.
  intros Hic. unfold user_callback.
  apply keeps_bind; [by apply keeps_perform|].
  intros _. apply keeps_bind; [apply keeps_during|].
  intros _. by apply keeps_still.
Qed.

(** When callback calls are allowed too, running a handle's callback keeps
    the property. *)
Lemma keeps_run_callback_allowed cb during ends :
  (forall e, allowed e) ->
  keeps I
    (run_callback cleanup_body async_cleanup_body await_task cb during ends).
Proof using I_stable.
  intros Hall. destruct cb as [id|c callback interval]; simpl.
  - by apply keeps_user_callback.
  - apply keeps_bind; [by apply keeps_still|]. intros cancelled.
    apply keeps_if; [|by apply keeps_still].
    apply keeps_bind; [by apply keeps_user_callback|]. intros _.
    apply keeps_bind; [by apply keeps_set_timeout|]. intros _.
    by apply keeps_still.
Qed.

Section Loop.

Hypothesis I_run_callback : forall cb during ends,
  keeps I
    (run_callback cleanup_body async_cleanup_body await_task cb during ends).

Lemma keeps_fire timer during ends :
  keeps I (fire cleanup_body async_cleanup_body await_task timer during ends).
Proof using I_stable I_run_callback.
  unfold fire. apply keeps_bind; [by apply keeps_still|]. intros w.
  destruct (handles w !! timer) as [h|]; [|by apply keeps_still].
  apply keeps_if; [|by apply keeps_still].
  apply keeps_bind; [apply keeps_set_handles|]. intros _.
  apply keeps_try_all; [apply I_run_callback|].
  intros e. by apply keeps_perform_quiet.
Qed.

Lemma keeps_act a :
  keeps I (act cleanup_body async_cleanup_body await_task a).
Proof using I_stable I_run_callback.
  destruct a; simpl.
  - apply keeps_make.
  - apply keeps_bind; [by apply keeps_still|]. intros w.
    apply keeps_set_done_tasks.
  - apply keeps_fire.
Qed.

Lemma keeps_run history s :
  I s -> I (run cleanup_body async_cleanup_body await_task history s).
Proof using I_stable I_run_callback.
  revert s. induction history as [|a history IH]; intros s Hs; [done|].
  simpl. apply IH. by apply keeps_act.
Qed.

End Loop.

End StableFacts.

(** ** Disposal happens once *)

Section DisposalFacts.

Import Tracker.

Variable cleanup_body : nat -> result unit.
Variable async_cleanup_body : nat -> result unit.
Variable await_task : nat -> awaited.

#[local] Abbreviation disposal :=
  (Tracker.disposal cleanup_body async_cleanup_body await_task).
#[local] Abbreviation run :=
  (Tracker.run cleanup_body async_cleanup_body await_task).

(** Nothing resets [_disposed]. *)
Lemma disposed_stable : stable disposed (fun _ => True).
Proof.
  split; try done.
  intros f [c a ti ta d] w Hf Hd. by apply Hf.
Qed.

Lemma disposed_run history s : disposed s -> disposed (run history s).
Proof.
  apply (keeps_run _ _ _ _ _ disposed_stable).
  intros cb during ends.
  by apply (keeps_run_callback_allowed _ _ _ _ _ disposed_stable).
Qed.

(** C7.  After a first disposal of either kind, however it ended, the
    flag is set, and the cleanup functions it called are the first ones of
    those tracked before it, in their order, each at most once per
    registration (the asynchronous ones after the others, and only by
    [dispose_async]): all of them when the disposal returned, and none
    when the tracker was disposed already.  Whatever the application and
    the loop do afterwards, a later disposal of either kind returns at
    once with the tracker and its world as they were: no timer or task is
    cancelled, no cleanup function called. *)
Theorem disposal_runs_cleanups_once (s : State) (first second : bool)
  (history : list action) :
  let tracked :=
    if _disposed s.1 then []
    else (CleanupCall <$> _cleanup_functions s.1) ++
         (if first then AsyncCleanupCall <$> _async_cleanup_functions s.1
          else []) in
  let s1 := (disposal first s).2 in
  let s2 := run history s1 in
  _disposed s1.1 = true /\
  (exists called,
     cleanup_calls s1.2 = cleanup_calls s.2 ++ called /\
     called `prefix_of` tracked /\
     match (disposal first s).1 with
     | Ok _ => called = tracked
     | Raise _ => True
     end) /\
  disposal second s1 = (Ok (), s1) /\
  disposal second s2 = (Ok (), s2).
Proof.
  intros tracked s1 s2.
  assert (called_within (cleanup_calls s.2) tracked
            (disposal first s).1 s1) as (called & Hpre & [Hd1 Hc1] & Hall).
  { subst s1 tracked. destruct (_disposed s.1) eqn:Hd.
    - exists []. rewrite app_nil_r.
      destruct first; unfold Tracker.disposal.
      + by rewrite dispose_async_after_disposal.
      + by rewrite dispose_after_disposal.
    - destruct first; unfold Tracker.disposal.
      + by apply dispose_async_first.
      + rewrite app_nil_r. by apply dispose_first. }
  assert (forall s', disposed s' -> disposal second s' = (Ok (), s')) as H2.
  { intros s' Hs'. destruct second; unfold Tracker.disposal.
    - by apply dispose_async_after_disposal.
    - by apply dispose_after_disposal. }
  split; [done|]. split.
  - exists called. split; [done|]. split; [done|].
    destruct (disposal first s).1; [by apply Hall | done].
  - split; [by apply H2|]. apply H2. by apply disposed_run.
Qed.

End DisposalFacts.

(** ** Intervals *)

Section CellFacts.

Import Tracker.

Variable cleanup_body : nat -> result unit.
Variable async_cleanup_body : nat -> result unit.
Variable await_task : nat -> awaited.

Variable cell : nat.

Lemma interval_calls_add_log e w :
  interval_calls cell (add_log e w) =
  interval_calls cell w + (if is_interval_call cell e then 1 else 0).
Proof.
  unfold interval_calls, add_log; simpl.
  rewrite List.filter_app, length_app. simpl.
  by destruct (is_interval_call cell e).
Qed.

(** The state of the [cancelled] variable of [cell], for a property that
    the assignment [cancelled = True] keeps, and the number of calls of its
    interval, are kept by every write but a callback call of the interval. *)
Lemma cell_state_stable (P : bool -> Prop) n :
  (forall b, P b -> P true) ->
  stable (cell_state cell P n) (fun e => is_interval_call cell e = false).
Proof.
  intros HP. split; try done.
  - intros e t w He (b & Hb & Hpb & Hn). exists b. simpl in *.
    split; [done|]. split; [done|].
    rewrite interval_calls_add_log, He. lia.
  - intros t w (b & Hb & Hpb & Hn). exists b. simpl in *.
    split; [|done]. by apply lookup_app_l_Some.
  - intros c t w (b & Hb & Hpb & Hn). simpl in *.
    destruct (decide (c = cell)) as [->|Hne].
    + exists true. split; [|by eauto]. simpl.
      apply list_lookup_insert_eq. by eapply lookup_lt_Some.
    + exists b. split; [|done]. simpl. by rewrite list_lookup_insert_ne.
  - by intros [].
Qed.

(** The [cancelled] variable is set. *)
#[local] Abbreviation set := (fun b : bool => b = true).
(** The [cancelled] variable exists. *)
#[local] Abbreviation any := (fun _ : bool => True).

Lemma set_stable n :
  stable (cell_state cell set n) (fun e => is_interval_call cell e = false).
Proof. by apply cell_state_stable. Qed.

Lemma any_stable n :
  stable (cell_state cell any n) (fun e => is_interval_call cell e = false).
Proof. by apply cell_state_stable. Qed.

(** Invoking the [cancel] closure of the interval sets its variable. *)
Lemma invoke_cancel_sets n :
  hoare (cell_state cell any n) (invoke cleanup_body (IntervalCancel cell))
    (ok_and (cell_state cell set n)).
Proof.
  unfold invoke. apply (hoare_bind_ok _ (cell_state cell any n)).
  - intros s Hs. split; [done|].
    by apply (keeps_perform_quiet _ _ (any_stable n)).
  - intros _ [t w] (b & Hb & _ & Hn). split; [done|].
    exists true. simpl in *. split; [|done].
    apply list_lookup_insert_eq. by eapply lookup_lt_Some.
Qed.

(** A callback that calls the [cancel] closure while it runs leaves the
    variable set, whatever else it calls. *)
Lemma during_cancels n (during : list call) :
  In (Invoke (IntervalCancel cell)) during ->
  hoare (cell_state cell any n)
    (for_each during (fun c =>
       try_all (make cleanup_body async_cleanup_body await_task c)
                  (fun _ => ret ())))
    (ok_and (cell_state cell set n)).
Proof.
  induction during as [|c during IH]; intros Hin; [done|].
  destruct Hin as [->|Hin].
  - apply (ok_bind _ (cell_state cell set n)).
    + apply ok_try_all.
      * apply (hoare_weaken _ (cell_state cell any n) _
                 (ok_and (cell_state cell set n)));
          [apply invoke_cancel_sets|done|].
        by intros r s [_ Hs].
      * by intros e s Hs.
    + intros _. apply ok_for_each. intros c'.
      apply (ok_make_caught _ _ _ _ _ (set_stable n)).
  - apply (ok_bind _ (cell_state cell any n)).
    + apply (ok_make_caught _ _ _ _ _ (any_stable n)).
    + intros _. by apply IH.
Qed.

(** Once the variable is set, running any handle keeps it set and calls
    the callback of the interval no more. *)
Lemma keeps_run_callback n cb during ends :
  keeps (cell_state cell set n)
    (run_callback cleanup_body async_cleanup_body await_task cb during ends).
Proof.
  destruct cb as [id|c callback interval]; simpl.
  - by apply (keeps_user_callback _ _ _ _ _ (set_stable n)).
  - apply (hoare_bind _
             (fun r s => cell_state cell set n s /\
                         r = Ok (default false (cells s.2 !! c)))).
    + by intros s Hs.
    + intros cancelled. destruct cancelled; simpl.
      * by intros s [Hs _].
      * destruct (decide (c = cell)) as [->|Hne].
        { intros s [(b & Hb & -> & _) Heq]. rewrite Hb in Heq. done. }
        apply (hoare_weaken _ (cell_state cell set n) _
                 (fun _ s => cell_state cell set n s));
          [|by intros s [Hs _]|done].
        apply keeps_bind.
        { apply (keeps_user_callback _ _ _ _ _ (set_stable n)). simpl.
          apply bool_decide_eq_false_2. congruence. }
        intros _. apply keeps_bind.
        { apply (keeps_set_timeout _ _ (set_stable n)). }
        intros _. by apply keeps_still.
    + by intros e s [Hs _].
Qed.

Lemma cancelled_run n history s :
  cell_state cell set n s ->
  cell_state cell set n
    (run cleanup_body async_cleanup_body await_task history s).
Proof.
  apply (keeps_run _ _ _ _ _ (set_stable n)). apply keeps_run_callback.
Qed.

(** The firing in flight: the interval's handle is run while the variable
    is unset, and the callback calls the [cancel] closure. *)
Lemma fire_in_flight n timer callback interval delay during ends s :
  handles s.2 !! timer =
    Some {| th_callback := IntervalCallback cell callback interval;
            th_delay := delay; th_cancelled := false; th_pending := true |} ->
  cell_state cell (fun b => b = false) n s ->
  In (Invoke (IntervalCancel cell)) during ->
  cell_state cell set (n + 1)
    (fire cleanup_body async_cleanup_body await_task timer during ends s).2.
Proof.
  intros Hh Hs Hin.
  assert (hoare (fun s' => s' = s)
            (fire cleanup_body async_cleanup_body await_task timer during ends)
            (fun _ s' => cell_state cell set (n + 1) s')) as H;
    [|by apply H].
  intros s' ->. unfold fire.
  change (bind get_world ?k s) with (k s.2 s). cbv beta. rewrite Hh.
  cbn [th_pending th_cancelled th_callback andb negb].
  revert s Hh Hs. intros [t w] Hh Hs; simpl in Hh.
  apply (hoare_bind_ok (fun s' => s' = (t, w))
           (cell_state cell (fun b => b = false) n)
           (fun _ s' => cell_state cell set (n + 1) s')); [| |done].
  { intros s' ->. split; [done|].
    destruct Hs as (b & Hb & Hpb & Hn). by exists b. }
  intros _. apply hoare_try_all;
    [|intros e; by apply (keeps_perform_quiet _ _ (set_stable (n + 1)))].
  unfold run_callback.
  apply (hoare_bind _
           (fun r s => cell_state cell (fun b => b = false) n s /\
                       r = Ok false)).
  - intros s (b & Hb & -> & Hn). split; [by exists false|].
    unfold cell_cancelled, bind, get_world, ret; simpl. by rewrite Hb.
  - intros cancelled. destruct cancelled; simpl.
    { by intros s [_ ?]. }
    apply (hoare_bind _ (fun _ s => cell_state cell set (n + 1) s)).
    + unfold user_callback.
      apply (hoare_bind_ok _ (cell_state cell any (n + 1))).
      { intros [t' w'] [(b & Hb & _ & Hn) _]. split; [done|].
        exists b. simpl in *. split; [done|]. split; [done|].
        rewrite interval_calls_add_log. simpl.
        rewrite bool_decide_eq_true_2 by done. lia. }
      intros _. apply (hoare_bind_ok _ (cell_state cell set (n + 1))).
      { by apply during_cancels. }
      intros _. by apply keeps_still.
    + intros _. apply keeps_bind.
      { apply (keeps_set_timeout _ _ (set_stable (n + 1))). }
      intros _. by apply keeps_still.
    + done.
  - by intros e s [_ ?].
Qed.

End CellFacts.

Section IntervalCancellation.

Import Tracker.

Variable cleanup_body : nat -> result unit.
Variable async_cleanup_body : nat -> result unit.
Variable await_task : nat -> awaited.

(** [set_interval] on a live tracker: a new [cancelled] variable, one
    timeout for the closure, and the [cancel] closure tracked and
    returned. *)
Lemma set_interval_live cb interval s :
  _disposed s.1 = false ->
  let cell := length (cells s.2) in
  let timer := length (handles s.2) in
  set_interval cb interval s =
  (Ok (IntervalCancel cell),
   (append_cleanup (IntervalCancel cell)
      (append_cleanup (TimerCleanup timer) (append_timer timer s.1)),
    set_handles (handles s.2 ++
      [{| th_callback := IntervalCallback cell cb interval;
          th_delay := interval;
          th_cancelled := false; th_pending := true |}])
      (set_cells (cells s.2 ++ [false]) s.2))).
Proof.
  destruct s as [t w]. simpl. intros Hd.
  unfold set_interval, new_cell, set_timeout, call_later, track_timer, track,
    bind, get_world, modify_world, modify_tracker, get_tracker, ret.
  simpl. rewrite Hd. simpl. by rewrite Hd.
Qed.

(** The [cancelled] variable of an interval stays, whatever happens. *)
Lemma cell_exists_stable cell :
  stable (fun s => cell < length (cells s.2)) (fun _ => True).
Proof.
  split; try done.
  - intros t w H. simpl in *. rewrite length_app. simpl. lia.
  - intros c t w H. simpl in *. by rewrite length_insert.
Qed.

Lemma cell_exists_run cell history s :
  cell < length (cells s.2) ->
  cell < length
           (cells (run cleanup_body async_cleanup_body await_task history s).2).
Proof.
  apply (keeps_run _ _ _ _ _ (cell_exists_stable cell)).
  intros cb during ends.
  by apply (keeps_run_callback_allowed _ _ _ _ _ (cell_exists_stable cell)).
Qed.

(** C8.  [set_interval] on a live tracker returns a cancellation
    function, and once that function has been invoked, at any time after
    the interval was set, no history of the tracker and the loop makes the
    interval call the application's callback again.  This covers the
    firing in flight: when the callback itself invokes the cancellation
    function, that firing is the last call, although the handle is
    scheduled once more. *)
Theorem cancelled_interval_never_calls_back (s : State) (cb : nat)
  (interval : Q) (before after : list action) :
  _disposed s.1 = false ->
  let cell := length (cells s.2) in
  exists cancel,
    (set_interval cb interval s).1 = Ok cancel /\
    let s1 := run cleanup_body async_cleanup_body await_task before
                (set_interval cb interval s).2 in
    (let s2 := (invoke cleanup_body cancel s1).2 in
     interval_calls cell
       (run cleanup_body async_cleanup_body await_task after s2).2 =
     interval_calls cell s1.2) /\
    (forall timer delay during ends,
       handles s1.2 !! timer =
         Some {| th_callback := IntervalCallback cell cb interval;
                 th_delay := delay; th_cancelled := false;
                 th_pending := true |} ->
       cells s1.2 !! cell = Some false ->
       In (Invoke cancel) during ->
       let s2 := (fire cleanup_body async_cleanup_body await_task timer during
                    ends s1).2 in
       interval_calls cell s2.2 = interval_calls cell s1.2 + 1 /\
       interval_calls cell
         (run cleanup_body async_cleanup_body await_task after s2).2 =
       interval_calls cell s2.2).
Proof.
  intros Hd cell. exists (IntervalCancel cell).
  rewrite (set_interval_live cb interval s Hd). fold cell.
  split; [done|]. cbn [snd].
  set (s1 := run cleanup_body async_cleanup_body await_task before _).
  assert (cell < length (cells s1.2)) as Hlt.
  { apply cell_exists_run. simpl. rewrite length_app. simpl. lia. }
  split.
  - set (s2 := (invoke cleanup_body (IntervalCancel cell) s1).2).
    assert (cell_state cell (fun b => b = true) (interval_calls cell s1.2) s2)
      as Hs2.
    { apply invoke_cancel_sets.
      destruct (lookup_lt_is_Some_2 _ _ Hlt) as [b Hb]. by exists b. }
    by destruct (cancelled_run cleanup_body async_cleanup_body await_task
                   cell _ after _ Hs2) as (_ & _ & _ & ->).
  - intros timer delay during ends Hh Hc Hin.
    set (s2 := (fire cleanup_body async_cleanup_body await_task timer during
                  ends s1).2).
    assert (cell_state cell (fun b => b = true)
              (interval_calls cell s1.2 + 1) s2) as Hs2.
    { eapply fire_in_flight; [done| |done]. by exists false. }
    pose proof (cancelled_run cleanup_body async_cleanup_body await_task
                  cell _ after _ Hs2) as (_ & _ & _ & Hrun).
    destruct Hs2 as (_ & _ & _ & Hn). by rewrite Hrun, Hn.
Qed.

End IntervalCancellation.

Section IntervalExamples.

Import Tracker.

#[local] Abbreviation cb := Tracker.quiet.
#[local] Abbreviation aw := Tracker.ends_cancelled.

(** An interval fires once, is cancelled from outside, and its pending
    handle then runs without calling the callback. *)
Example interval_cancelled_between_firings :
  let s0 := (set_interval 5 1%Q (new, empty_world)).2 in
  let s1 := (fire cb cb aw 0 [] (Ok ()) s0).2 in
  let s2 := (invoke cb (IntervalCancel 0) s1).2 in
  let s3 := (fire cb cb aw 1 [] (Ok ()) s2).2 in
  interval_calls 0 s0.2 = 0 /\
  interval_calls 0 s1.2 = 1 /\ length (handles s1.2) = 2 /\
  interval_calls 0 s3.2 = 1 /\ length (handles s3.2) = 2.
Proof. repeat split; reflexivity. Qed.

(** The callback cancels its own interval: the handle is scheduled once
    more, and runs without calling the callback. *)
Example interval_cancelled_in_flight :
  let s0 := (set_interval 5 1%Q (new, empty_world)).2 in
  let s1 := (fire cb cb aw 0 [Invoke (IntervalCancel 0)] (Ok ()) s0).2 in
  let s2 := (fire cb cb aw 1 [] (Ok ()) s1).2 in
  interval_calls 0 s1.2 = 1 /\ length (handles s1.2) = 2 /\
  interval_calls 0 s2.2 = 1 /\ length (handles s2.2) = 2.
Proof. repeat split; reflexivity. Qed.

Lemma cancelled_interval_never_calls_back_witness :
  let s := (new, empty_world) in
  let before := [Fire 0 [] (Ok ())] in
  let after := [Fire 1 [] (Ok ()); Fire 2 [] (Ok ()); Call Dispose] in
  _disposed s.1 = false /\
  exists cancel,
    (set_interval 5 1%Q s).1 = Ok cancel /\
    let s1 := run cb cb aw before (set_interval 5 1%Q s).2 in
    (let s2 := (invoke cb cancel s1).2 in
     interval_calls 0 (run cb cb aw after s2).2 = interval_calls 0 s1.2) /\
    (forall timer delay during ends,
       handles s1.2 !! timer =
         Some {| th_callback := IntervalCallback 0 5 1%Q;
                 th_delay := delay; th_cancelled := false;
                 th_pending := true |} ->
       cells s1.2 !! 0 = Some false ->
       In (Invoke cancel) during ->
       let s2 := (fire cb cb aw timer during ends s1).2 in
       interval_calls 0 s2.2 = interval_calls 0 s1.2 + 1 /\
       interval_calls 0 (run cb cb aw after s2).2 = interval_calls 0 s2.2).
Proof.
  intros s before after. split; [reflexivity|].
  exact (cancelled_interval_never_calls_back cb cb aw s 5 1%Q before after
           eq_refl).
Defined.

End IntervalExamples.


(** * Further properties of the code *)

(** ** WebSocket URLs and stream identifiers *)

Section UrlFacts.

Import Url.

Example ws_url_secure :
  ws_url_to_http_url (lit "wss://cloud.example/app-ws")
  = Ok (lit "https://cloud.example/app-ws").
Proof. reflexivity. Qed.

Example ws_url_inner_occurrence :
  ws_url_to_http_url (lit "ws://host/ws://x") = Ok (lit "http://host/ws://x").
Proof. reflexivity. Qed.

Example ws_url_other_scheme :
  is_ok (ws_url_to_http_url (lit "http://host")) = false.
Proof. reflexivity. Qed.

Lemma startswith_spec prefix s :
  startswith prefix s = true <-> exists rest, s = prefix ++ rest.
Proof.
  revert s. induction prefix as [|p prefix IH]; intros s; simpl.
  - split; [by exists s | done].
  - destruct s as [|c s].
    + split; [done | by intros [rest ?]].
    + rewrite andb_true_iff, IH, N.eqb_eq. split.
      * intros [-> [rest ->]]. by exists rest.
      * intros [rest [= -> ->]]. eauto.
Qed.

Lemma replace_first_prefix old new rest :
  replace_first old new (old ++ rest) = new ++ rest.
Proof.
  assert (startswith old (old ++ rest) = true) as Hs
    by (apply startswith_spec; eauto).
  destruct old as [|o old]; simpl in *.
  - by destruct rest.
  - rewrite Hs. by rewrite drop_app_length.
Qed.

(** X1.  [ws_url_to_http_url] returns a URL exactly for the inputs that
    begin with ["wss://"] or ["ws://"]; the result is the input with that
    prefix replaced by ["https://"] or ["http://"] and everything after it,
    later occurrences of the scheme included, as it was.  Every other input
    raises [ValueError]. *)
Theorem ws_url_to_http_url_spec (url : str) :
  (forall out, ws_url_to_http_url url = Ok out <->
     (exists rest, url = lit "wss://" ++ rest /\ out = lit "https://" ++ rest) \/
     (exists rest, url = lit "ws://" ++ rest /\ out = lit "http://" ++ rest)) /\
  (startswith (lit "wss://") url = false ->
   startswith (lit "ws://") url = false ->
   exists msg, ws_url_to_http_url url = Raise (ValueError msg)).
Proof.
  unfold ws_url_to_http_url. split.
  - intros out. split.
    + destruct (startswith (lit "wss://") url) eqn:H1.
      { apply startswith_spec in H1 as [rest ->].
        rewrite replace_first_prefix. intros [= <-]. left. eauto. }
      destruct (startswith (lit "ws://") url) eqn:H2; [|done].
      apply startswith_spec in H2 as [rest ->].
      rewrite replace_first_prefix. intros [= <-]. right. eauto.
    + intros [(rest & -> & ->) | (rest & -> & ->)].
      * assert (startswith (lit "wss://") (lit "wss://" ++ rest) = true) as ->
          by (apply startswith_spec; eauto).
        by rewrite replace_first_prefix.
      * assert (startswith (lit "wss://") (lit "ws://" ++ rest) = false) as ->
          by reflexivity.
        assert (startswith (lit "ws://") (lit "ws://" ++ rest) = true) as ->
          by (apply startswith_spec; eauto).
        by rewrite replace_first_prefix.
  - intros -> ->. eauto.
Qed.

Lemma ws_url_to_http_url_spec_witness :
  exists msg, ws_url_to_http_url (lit "ftp://host") = Raise (ValueError msg).
Proof.
  apply (ws_url_to_http_url_spec (lit "ftp://host")); reflexivity.
Defined.

End UrlFacts.

Section StreamIdentifierFacts.

Import Utils.

Variable alphabetic : N -> bool.

(** A valid code has two characters, or five with a hyphen in the middle. *)
Lemma valid_code_length s :
  is_valid_language_code alphabetic s = true ->
  length s = 2 \/ (length s = 5 /\ s !! 2 = Some hyphen).
Proof.
  unfold is_valid_language_code. destruct s as [|c s]; [done|].
  destruct (split hyphen (c :: s)) as [|p0 [|p1 [|p2 ps]]] eqn:Hs; try done.
  - apply split_one in Hs as [<- _].
    intros [Hl _]%andb_true_iff. left. by apply Nat.eqb_eq.
  - apply split_two in Hs as (-> & _ & _). intros H.
    apply andb_true_iff in H as [H _]. apply andb_true_iff in H as [H Hl1].
    apply andb_true_iff in H as [Hl0 _].
    apply Nat.eqb_eq in Hl0, Hl1. right. split.
    + rewrite length_app. simpl. lia.
    + rewrite lookup_app_r by lia. by rewrite Hl0.
Qed.

Lemma colon_separated_inj (s1 t1 s2 t2 : str) :
  length s1 = 2 \/ (length s1 = 5 /\ s1 !! 2 = Some hyphen) ->
  length s2 = 2 \/ (length s2 = 5 /\ s2 !! 2 = Some hyphen) ->
  s1 ++ lit ":" ++ t1 = s2 ++ lit ":" ++ t2 -> s1 = s2 /\ t1 = t2.
Proof.
  intros H1 H2 Heq.
  assert (length s1 = length s2) as Hlen.
  { destruct H1 as [H1|[H1 H1']], H2 as [H2|[H2 H2']]; try congruence.
    - apply (f_equal (fun l => l !! 2)) in Heq.
      rewrite (lookup_app_r s1) in Heq by lia. rewrite H1 in Heq.
      rewrite (lookup_app_l s2) in Heq by lia. rewrite H2' in Heq.
      vm_compute in Heq. discriminate.
    - apply (f_equal (fun l => l !! 2)) in Heq.
      rewrite (lookup_app_l s1) in Heq by lia. rewrite H1' in Heq.
      rewrite (lookup_app_r s2) in Heq by lia. rewrite H2 in Heq.
      vm_compute in Heq. discriminate. }
  apply app_inj_1 in Heq as [-> Heq]; [|done].
  split; [done|]. by apply app_inv_head in Heq.
Qed.

(** X2.  Stream identifiers do not collide: two pairs of valid language
    codes with the same translation stream identifier are the same pair,
    two valid codes with the same transcription stream identifier are the
    same code, and no translation stream identifier is a transcription
    stream identifier. *)
Theorem stream_identifiers_distinct (s1 t1 s2 t2 : str) :
  is_valid_language_code alphabetic s1 = true ->
  is_valid_language_code alphabetic t1 = true ->
  is_valid_language_code alphabetic s2 = true ->
  is_valid_language_code alphabetic t2 = true ->
  (create_translation_stream alphabetic s1 t1 =
   create_translation_stream alphabetic s2 t2 -> s1 = s2 /\ t1 = t2) /\
  (create_transcription_stream alphabetic s1 =
   create_transcription_stream alphabetic s2 -> s1 = s2) /\
  create_translation_stream alphabetic s1 t1 <>
  create_transcription_stream alphabetic s2.
Proof.
  intros Hs1 Ht1 Hs2 Ht2.
  unfold create_translation_stream, create_transcription_stream.
  rewrite Hs1, Ht1, Hs2, Ht2. cbn [negb]. split; [|split].
  - intros Heq.
    assert (lit "translation:" ++ s1 ++ lit ":" ++ t1 =
            lit "translation:" ++ s2 ++ lit ":" ++ t2) as Heq' by congruence.
    apply app_inv_head in Heq'.
    apply colon_separated_inj in Heq'; [done|by apply valid_code_length..].
  - intros Heq.
    assert (lit "transcription:" ++ s1 = lit "transcription:" ++ s2) as Heq'
      by congruence.
    by apply app_inv_head in Heq'.
  - intros Heq.
    assert (lit "translation:" ++ s1 ++ lit ":" ++ t1 =
            lit "transcription:" ++ s2) as Heq' by congruence.
    vm_compute in Heq'. discriminate.
Qed.

End StreamIdentifierFacts.

Lemma stream_identifiers_distinct_witness :
  Utils.create_translation_stream Utils.ascii_letter (lit "es-ES") (lit "en") <>
  Utils.create_transcription_stream Utils.ascii_letter (lit "en-US").
Proof.
  apply (stream_identifiers_distinct Utils.ascii_letter
           (lit "es-ES") (lit "en") (lit "en-US") (lit "fr")); reflexivity.
Defined.

(** ** What the loop and the tracker keep of the world *)

Section GrowingFacts.

Import Tracker Lifecycle.

Variable cleanup_body : nat -> result unit.
Variable async_cleanup_body : nat -> result unit.
Variable await_task : nat -> awaited.

Variable I : State -> Prop.
Hypothesis I_growing : growing I.

Lemma grows_modify_tracker f : extends f -> keeps I (modify_tracker f).
Proof using I_growing.
  intros Hf [t w] Hs. by apply (growing_tracker _ I_growing).
Qed.

Lemma grows_perform e : keeps I (perform e).
Proof using I_growing. intros [t w] Hs. by apply (growing_log _ I_growing). Qed.

Lemma grows_call_later delay cb : keeps I (call_later delay cb).
Proof using I_growing.
  intros [t w] Hs. by apply (growing_schedule _ I_growing).
Qed.

Lemma grows_timer_cancel timer : keeps I (timer_cancel timer).
Proof using I_growing.
  intros [t w] Hs. by apply (growing_log _ I_growing), (growing_cancel _ I_growing).
Qed.

Lemma grows_new_cell : keeps I new_cell.
Proof using I_growing. intros [t w] Hs. by apply (growing_new_cell _ I_growing). Qed.

Lemma grows_cell_cancel c : keeps I (cell_cancel c).
Proof using I_growing.
  intros [t w] Hs. by apply (growing_cell_cancel _ I_growing).
Qed.

Lemma grows_finish task :
  keeps I (let* w := get_world in
           modify_world (set_done_tasks ({[task]} ∪ done_tasks w))).
Proof using I_growing. intros [t w] Hs. by apply (growing_done _ I_growing). Qed.

Lemma grows_track c : keeps I (track c).
Proof using I_growing.
  unfold track. apply keeps_bind; [by apply keeps_still|]. intros t.
  apply keeps_if; [by apply keeps_still|].
  apply keeps_bind; [apply grows_modify_tracker; constructor|].
  intros _. by apply keeps_still.
Qed.

Lemma grows_track_async c : keeps I (track_async c).
Proof using I_growing.
  unfold track_async. apply keeps_bind; [by apply keeps_still|]. intros t.
  apply keeps_if; [by apply keeps_still|].
  apply keeps_bind; [apply grows_modify_tracker; constructor|].
  intros _. by apply keeps_still.
Qed.

Lemma grows_track_timer timer : keeps I (track_timer timer).
Proof using I_growing.
  unfold track_timer. apply keeps_bind; [apply grows_modify_tracker; constructor|].
  intros _. apply grows_track.
Qed.

Lemma grows_track_task task : keeps I (track_task task).
Proof using I_growing.
  unfold track_task. apply keeps_bind; [apply grows_modify_tracker; constructor|].
  intros _. by apply keeps_still.
Qed.

Lemma grows_set_timeout cb delay : keeps I (set_timeout cb delay).
Proof using I_growing.
  unfold set_timeout. apply keeps_bind; [apply grows_call_later|].
  intros timer. apply keeps_bind; [apply grows_track_timer|].
  intros _. by apply keeps_still.
Qed.

Lemma grows_set_interval cb interval : keeps I (set_interval cb interval).
Proof using I_growing.
  unfold set_interval. apply keeps_bind; [apply grows_new_cell|].
  intros c. apply keeps_bind; [apply grows_set_timeout|].
  intros _. apply grows_track.
Qed.

Lemma grows_cancel_if_pending timer :
  keeps I (let* b := timer_cancelled timer in
           if negb b then timer_cancel timer else ret ()).
Proof using I_growing.
  apply keeps_bind; [by apply keeps_still|]. intros b.
  apply keeps_if; [apply grows_timer_cancel | by apply keeps_still].
Qed.

Lemma grows_invoke c : keeps I (invoke cleanup_body c).
Proof using I_growing.
  unfold invoke. apply keeps_bind; [apply grows_perform|]. intros _.
  destruct c as [id|timer|c].
  - by apply keeps_still.
  - apply grows_cancel_if_pending.
  - apply grows_cell_cancel.
Qed.

Lemma grows_cancel_timers timers : keeps I (cancel_timers timers).
Proof using I_growing.
  apply keeps_for_each. intros timer. apply grows_cancel_if_pending.
Qed.

Lemma grows_run_cleanup_functions l :
  keeps I (run_cleanup_functions cleanup_body l).
Proof using I_growing.
  apply keeps_for_each. intros c. apply keeps_try; [apply grows_invoke|].
  intros e. apply grows_perform.
Qed.

Lemma grows_await_cancelled task : keeps I (await_cancelled await_task task).
Proof using I_growing.
  unfold await_cancelled. apply keeps_bind; [apply grows_perform|].
  intros _. apply keeps_bind.
  { apply keeps_for_each. intros other.
    apply keeps_bind; [apply grows_track_task | by intros; apply keeps_still]. }
  intros _. apply keeps_bind; [by apply keeps_still|]. intros w.
  apply keeps_bind.
  { intros [t w'] Hs. by apply (growing_done _ I_growing). }
  intros _. destruct (await_result _) as [|e]; [by apply keeps_still|].
  destruct (decide _); [by apply keeps_still | apply grows_perform].
Qed.

Lemma grows_discard {A} (c : M A) : keeps I c -> keeps I (discard c).
Proof.
  intros Hc. unfold discard. apply keeps_bind; [done|].
  intros _. by apply keeps_still.
Qed.

Section Histories.

Hypothesis I_dispose : keeps I (dispose cleanup_body).
Hypothesis I_dispose_async :
  keeps I (dispose_async cleanup_body async_cleanup_body await_task).

Lemma grows_make c :
  keeps I (make cleanup_body async_cleanup_body await_task c).
Proof using I_growing I_dispose I_dispose_async.
  destruct c; simpl.
  - apply grows_discard, grows_track.
  - apply grows_discard, grows_track_async.
  - apply grows_discard, grows_track_timer.
  - apply grows_discard, grows_track_task.
  - apply grows_discard, grows_set_timeout.
  - apply grows_discard, grows_set_interval.
  - apply I_dispose.
  - apply I_dispose_async.
  - apply grows_invoke.
  - apply grows_timer_cancel.
  - apply grows_discard, grows_call_later.
Qed.

Lemma grows_user_callback id ic during ends :
  keeps I
    (user_callback cleanup_body async_cleanup_body await_task id ic during
       ends).
Proof using I_growing I_dispose I_dispose_async.
  unfold user_callback. apply keeps_bind; [apply grows_perform|].
  intros _. apply keeps_bind.
  { apply keeps_for_each. intros c. apply keeps_try_all; [apply grows_make|].
    intros e. by apply keeps_still. }
  intros _. by apply keeps_still.
Qed.

Lemma grows_run_callback cb during ends :
  keeps I
    (run_callback cleanup_body async_cleanup_body await_task cb during ends).
Proof using I_growing I_dispose I_dispose_async.
  destruct cb as [id|c callback interval]; simpl.
  - apply grows_user_callback.
  - apply keeps_bind; [by apply keeps_still|]. intros cancelled.
    apply keeps_if; [|by apply keeps_still].
    apply keeps_bind; [apply grows_user_callback|]. intros _.
    apply keeps_bind; [apply grows_set_timeout|]. intros _.
    by apply keeps_still.
Qed.

Lemma grows_fire timer during ends :
  keeps I (fire cleanup_body async_cleanup_body await_task timer during ends).
Proof using I_growing I_dispose I_dispose_async.
  intros [t w] Hs. unfold fire.
  change (bind get_world ?k (t, w)) with (k w (t, w)). cbv beta.
  destruct (handles w !! timer) as [h|]; [|done].
  destruct (th_pending h && negb (th_cancelled h)); [|done].
  change (bind (modify_world ?f) ?k (t, w)) with (k () (t, f w)). cbv beta.
  apply (keeps_try_all I);
    [apply grows_run_callback | intros e; apply grows_perform|].
  by apply (growing_ran _ I_growing).
Qed.

Lemma grows_act a :
  keeps I (act cleanup_body async_cleanup_body await_task a).
Proof using I_growing I_dispose I_dispose_async.
  destruct a; simpl.
  - apply grows_make.
  - apply grows_finish.
  - apply grows_fire.
Qed.

Lemma grows_run history s :
  I s -> I (run cleanup_body async_cleanup_body await_task history s).
Proof using I_growing I_dispose I_dispose_async.
  revert s. induction history as [|a history IH]; intros s Hs; [done|].
  simpl. apply IH. by apply grows_act.
Qed.

End Histories.

End GrowingFacts.

Section SteadyFacts.

Import Tracker Lifecycle.

Variable cleanup_body : nat -> result unit.
Variable async_cleanup_body : nat -> result unit.
Variable await_task : nat -> awaited.

Variable I : State -> Prop.
Hypothesis I_steady : steady I.

Lemma holds_modify_tracker f : keeps I (modify_tracker f).
Proof using I_steady. intros [t w] Hs. by apply (steady_tracker _ I_steady). Qed.

Lemma holds_perform e : keeps I (perform e).
Proof using I_steady. apply grows_perform, I_steady. Qed.

Lemma holds_cancel_if_pending timer :
  keeps I (let* b := timer_cancelled timer in
           if negb b then timer_cancel timer else ret ()).
Proof using I_steady. apply grows_cancel_if_pending, I_steady. Qed.

Lemma holds_cancel_timers timers : keeps I (cancel_timers timers).
Proof using I_steady. apply grows_cancel_timers, I_steady. Qed.

Lemma holds_run_cleanup_functions l :
  keeps I (run_cleanup_functions cleanup_body l).
Proof using I_steady. apply grows_run_cleanup_functions, I_steady. Qed.

Lemma holds_await_cancelled task : keeps I (await_cancelled await_task task).
Proof using I_steady. apply grows_await_cancelled, I_steady. Qed.

Lemma holds_dispose : keeps I (dispose cleanup_body).
Proof using I_steady.
  unfold dispose. apply keeps_bind; [by apply keeps_still|]. intros t.
  apply keeps_if; [by apply keeps_still|].
  apply keeps_bind; [apply holds_modify_tracker|]. intros _.
  apply keeps_bind; [apply holds_cancel_timers|]. intros _.
  apply keeps_bind.
  { apply keeps_for_each. intros task.
    apply keeps_bind; [by apply keeps_still|]. intros d.
    apply keeps_if; [apply holds_perform | by apply keeps_still]. }
  intros _. apply keeps_bind; [apply holds_run_cleanup_functions|].
  intros _. apply holds_modify_tracker.
Qed.

Lemma holds_dispose_async :
  keeps I (dispose_async cleanup_body async_cleanup_body await_task).
Proof using I_steady.
  unfold dispose_async. apply keeps_bind; [by apply keeps_still|]. intros t.
  apply keeps_if; [by apply keeps_still|].
  apply keeps_bind; [apply holds_modify_tracker|]. intros _.
  apply keeps_bind; [apply holds_cancel_timers|]. intros _.
  apply keeps_bind.
  { apply keeps_for_each_task. intros task.
    apply keeps_bind; [by apply keeps_still|]. intros d.
    apply keeps_if; [|by apply keeps_still].
    apply keeps_bind; [apply holds_perform|]. intros _.
    apply holds_await_cancelled. }
  intros _. apply keeps_bind; [apply holds_run_cleanup_functions|].
  intros _. apply keeps_bind.
  { apply keeps_for_each. intros c. apply keeps_try.
    - apply keeps_bind; [apply holds_perform|]. intros _.
      by apply keeps_still.
    - intros e. apply holds_perform. }
  intros _. apply holds_modify_tracker.
Qed.

Lemma holds_run_callback cb during ends :
  keeps I
    (run_callback cleanup_body async_cleanup_body await_task cb during ends).
Proof using I_steady.
  apply grows_run_callback;
    [apply I_steady | apply holds_dispose | apply holds_dispose_async].
Qed.

Lemma holds_run history s :
  I s -> I (run cleanup_body async_cleanup_body await_task history s).
Proof using I_steady.
  apply grows_run;
    [apply I_steady | apply holds_dispose | apply holds_dispose_async].
Qed.

End SteadyFacts.

(** ** Parts of the state that a computation leaves alone *)

Section PartFacts.

Import Tracker Lifecycle.

Variable cleanup_body : nat -> result unit.

Context {B : Type}.
Variable part : State -> B.






(** A part that the writes to the handles, to the [cancelled] variables
    and to the effects leave alone. *)
Hypothesis part_handles : forall hs t w,
  part (t, set_handles hs w) = part (t, w).
Hypothesis part_cells : forall cs t w, part (t, set_cells cs w) = part (t, w).
Hypothesis part_log : forall e t w, part (t, add_log e w) = part (t, w).








End PartFacts.

(** ** Disposal never raises *)

Section ReturnFacts.

Import Tracker Lifecycle.

Variable cleanup_body : nat -> result unit.
Variable async_cleanup_body : nat -> result unit.
Variable await_task : nat -> awaited.

Lemma returns_bind {A B} (c : M A) (k : A -> M B) :
  returns c -> (forall a, returns (k a)) -> returns (bind c k).
Proof.
  intros Hc Hk s. unfold bind. specialize (Hc s).
  destruct (c s) as [[a|e] s']; [apply Hk | done].
Qed.




Lemma returns_for_each {A} (l : list A) (f : A -> M unit) :
  (forall a, returns (f a)) -> returns (for_each l f).
Proof.
  intros Hf. induction l as [|a l IH]; simpl; [done|].
  by apply returns_bind.
Qed.

Lemma returns_if {A} (b : bool) (c1 c2 : M A) :
  returns c1 -> returns c2 -> returns (if b then c1 else c2).
Proof. by destruct b. Qed.

Lemma keeps_returns {A} (I : State -> Prop) (c : M A) :
  keeps I c -> returns c -> hoare I c (ok_and I).
Proof. intros Hk Hr s Hs. split; [apply Hr | by apply Hk]. Qed.

Lemma returns_cancel_if_pending timer :
  returns (let* b := timer_cancelled timer in
           if negb b then timer_cancel timer else ret ()).
Proof.
  apply returns_bind; [done|]. intros b. by apply returns_if.
Qed.

Lemma returns_cancel_timers timers : returns (cancel_timers timers).
Proof. apply returns_for_each. intros t. apply returns_cancel_if_pending. Qed.




(** *** Cleanup functions that raise no [CancelledError] *)

Section Quiet.

Hypothesis cleanup_quiet : forall id, cleanup_body id <> Raise CancelledError.





Hypothesis async_quiet :
  forall id, async_cleanup_body id <> Raise CancelledError.


(** *** Nothing tracked while [dispose_async] is suspended *)

Hypothesis alone : forall task, tracked_meanwhile (await_task task) = [].






End Quiet.


End ReturnFacts.

(** A cleanup function that raises [CancelledError] makes [dispose] raise
    it: the cleanup functions after it are not called and the lists are
    not emptied. *)
Example dispose_passes_cancelled_error :
  let body : nat -> result unit :=
    fun id => if id =? 0 then Raise CancelledError else Ok () in
  let s := (Tracker.track (Tracker.UserCleanup 1)
              (Tracker.track (Tracker.UserCleanup 0)
                 (Tracker.new, Tracker.empty_world)).2).2 in
  let r := Tracker.dispose body s in
  r.1 = Raise CancelledError /\
  Tracker.cleanup_calls r.2.2 = [Tracker.CleanupCall (Tracker.UserCleanup 0)] /\
  Tracker._cleanup_functions r.2.1 =
    [Tracker.UserCleanup 0; Tracker.UserCleanup 1].
Proof. repeat split; reflexivity. Qed.


(** ** Timer handles that will not run *)

Section HandleFacts.

Import Tracker Lifecycle.

Variable cleanup_body : nat -> result unit.
Variable async_cleanup_body : nat -> result unit.
Variable await_task : nat -> awaited.

Variable timer : nat.

Lemma handle_state_steady (P : TimerHandle -> Prop) :
  (forall h, P h -> P (mark_cancelled h)) ->
  (forall h, P h -> P (mark_run h)) ->
  steady (handle_state timer P).
Proof.
  intros Hc Hr. split; [split|].
  - intros f t w _ (h & Hl & HP). by exists h.
  - intros h' t w (h & Hl & HP). exists h. split; [|done].
    by apply lookup_app_l_Some.
  - intros i t w (h & Hl & HP). simpl in *.
    destruct (decide (i = timer)) as [->|Hne].
    + exists (mark_cancelled h). split; [|by apply Hc]. simpl.
      by rewrite list_lookup_alter_eq, Hl.
    + exists h. split; [|done]. simpl. by rewrite list_lookup_alter_ne.
  - intros i t w (h & Hl & HP). simpl in *.
    destruct (decide (i = timer)) as [->|Hne].
    + exists (mark_run h). split; [|by apply Hr]. simpl.
      by rewrite list_lookup_alter_eq, Hl.
    + exists h. split; [|done]. simpl. by rewrite list_lookup_alter_ne.
  - intros d t w (h & Hl & HP). by exists h.
  - intros e t w (h & Hl & HP). by exists h.
  - intros t w (h & Hl & HP). by exists h.
  - intros c t w (h & Hl & HP). by exists h.
  - intros f t w (h & Hl & HP). by exists h.
Qed.

Lemma dead_steady : steady (dead timer).
Proof.
  apply handle_state_steady; intros h [H|H]; unfold spent; simpl; auto.
Qed.

Lemma scheduled_steady : steady (scheduled timer).
Proof. by apply handle_state_steady. Qed.

Lemma dead_scheduled s : dead timer s -> scheduled timer s.
Proof. intros (h & Hl & _). by exists h. Qed.

(** The loop passes over a dead handle. *)
Lemma fire_dead during ends s :
  dead timer s ->
  fire cleanup_body async_cleanup_body await_task timer during ends s
  = (Ok (), s).
Proof.
  destruct s as [t w]. intros (h & Hl & Hs). simpl in Hl. unfold fire.
  change (bind get_world ?k (t, w)) with (k w (t, w)). cbv beta. rewrite Hl.
  destruct Hs as [-> | ->]; by rewrite ?andb_false_r.
Qed.

Lemma dead_forever history during ends s :
  dead timer s ->
  let s' := run cleanup_body async_cleanup_body await_task history s in
  fire cleanup_body async_cleanup_body await_task timer during ends s'
  = (Ok (), s').
Proof.
  intros Hs s'. apply fire_dead. by apply (holds_run _ _ _ _ dead_steady).
Qed.

(** Reaching a handle leaves it dead, whether it was run or passed over. *)
Lemma fire_spends during ends s :
  scheduled timer s ->
  dead timer
    (fire cleanup_body async_cleanup_body await_task timer during ends s).2.
Proof.
  destruct s as [t w]. intros (h & Hl & _). simpl in Hl. unfold fire.
  change (bind get_world ?k (t, w)) with (k w (t, w)). cbv beta. rewrite Hl.
  destruct (th_pending h && negb (th_cancelled h)) eqn:E.
  - change (bind (modify_world ?f) ?k (t, w)) with (k () (t, f w)). cbv beta.
    apply (keeps_try_all (dead timer)).
    + apply (holds_run_callback _ _ _ _ dead_steady).
    + intros e. apply (holds_perform _ dead_steady).
    + exists (mark_run h). split; [|by right]. simpl.
      by rewrite list_lookup_alter_eq, Hl.
  - exists h. split; [done|]. unfold spent.
    destruct (th_pending h), (th_cancelled h); simpl in E; auto.
Qed.

Lemma cancel_if_pending_spends :
  hoare (scheduled timer)
    (let* b := timer_cancelled timer in
     if negb b then timer_cancel timer else ret ())
    (ok_and (dead timer)).
Proof.
  intros [t w] (h & Hl & _). simpl in Hl.
  unfold timer_cancelled.
  change (bind (bind get_world ?k1) ?k2 (t, w))
    with (bind (k1 w) k2 (t, w)). cbv beta.
  change (bind (ret ?b) ?k (t, w)) with (k b (t, w)). cbv beta.
  rewrite Hl. destruct (th_cancelled h) eqn:E; simpl.
  - split; [done|]. exists h. split; [done|]. by left.
  - split; [done|]. exists (mark_cancelled h). split; [|by left]. simpl.
    by rewrite list_lookup_alter_eq, Hl.
Qed.

Lemma timer_cleanup_spends :
  hoare (scheduled timer) (invoke cleanup_body (TimerCleanup timer))
    (ok_and (dead timer)).
Proof.
  unfold invoke. apply (ok_bind _ (scheduled timer)).
  - apply keeps_returns; [apply (holds_perform _ scheduled_steady) | done].
  - intros _. apply cancel_if_pending_spends.
Qed.

Lemma cancel_timers_spend timers :
  timer ∈ timers ->
  hoare (scheduled timer) (cancel_timers timers) (ok_and (dead timer)).
Proof.
  induction timers as [|x timers IH]; intros Hin.
  { by apply elem_of_nil in Hin. }
  apply elem_of_cons in Hin as [<-|Hin].
  - apply (ok_bind _ (dead timer)); [apply cancel_if_pending_spends|].
    intros _. apply keeps_returns.
    + apply (holds_cancel_timers _ dead_steady).
    + apply returns_cancel_timers.
  - apply (ok_bind _ (scheduled timer)).
    + apply keeps_returns.
      * apply (holds_cancel_if_pending _ scheduled_steady).
      * apply returns_cancel_if_pending.
    + intros _. by apply IH.
Qed.

Lemma disposal_spends asynchronous s :
  _disposed s.1 = false -> timer ∈ _timers s.1 -> scheduled timer s ->
  dead timer
    (disposal cleanup_body async_cleanup_body await_task asynchronous s).2.
Proof.
  intros Hd Hin Hs.
  assert (hoare (scheduled timer) (modify_tracker set_disposed)
            (ok_and (scheduled timer))) as Hflag.
  { apply keeps_returns; [apply (holds_modify_tracker _ scheduled_steady) | done]. }
  pose proof (cancel_timers_spend _ Hin) as Hcancel.
  destruct asynchronous; unfold disposal.
  - unfold dispose_async.
    change (bind get_tracker ?k s) with (k s.1 s). cbv beta. rewrite Hd.
    apply (hoare_bind_ok _ _ (fun _ s' => dead timer s') _ _ Hflag); [|done].
    intros _.
    apply (hoare_bind_ok _ _ (fun _ s' => dead timer s') _ _ Hcancel).
    intros _. apply keeps_bind.
    { apply keeps_for_each_task. intros task.
      apply keeps_bind; [by apply keeps_still|]. intros d.
      apply keeps_if; [|by apply keeps_still].
      apply keeps_bind; [apply (holds_perform _ dead_steady)|].
      intros _. apply (holds_await_cancelled _ _ dead_steady). }
    intros _.
    apply keeps_bind;
      [apply (holds_run_cleanup_functions _ _ dead_steady)|].
    intros _. apply keeps_bind.
    { apply keeps_for_each. intros c. apply keeps_try.
      - apply keeps_bind; [apply (holds_perform _ dead_steady)|].
        intros _. by apply keeps_still.
      - intros e. apply (holds_perform _ dead_steady). }
    intros _. apply (holds_modify_tracker _ dead_steady).
  - unfold dispose.
    change (bind get_tracker ?k s) with (k s.1 s). cbv beta. rewrite Hd.
    apply (hoare_bind_ok _ _ (fun _ s' => dead timer s') _ _ Hflag); [|done].
    intros _.
    apply (hoare_bind_ok _ _ (fun _ s' => dead timer s') _ _ Hcancel).
    intros _. apply keeps_bind.
    { apply keeps_for_each. intros task.
      apply keeps_bind; [by apply keeps_still|]. intros d.
      apply keeps_if; [|by apply keeps_still].
      apply (holds_perform _ dead_steady). }
    intros _.
    apply keeps_bind;
      [apply (holds_run_cleanup_functions _ _ dead_steady)|].
    intros _. apply (holds_modify_tracker _ dead_steady).
Qed.

End HandleFacts.

(** ** What a tracker guarantees until it is disposed, and from then on *)

Section GuardFacts.

Import Tracker Lifecycle.

Variable cleanup_body : nat -> result unit.
Variable async_cleanup_body : nat -> result unit.
Variable await_task : nat -> awaited.

Variables D E : State -> Prop.
Variable T : ResourceTracker -> Prop.

Hypothesis D_steady : steady D.
Hypothesis E_steady : steady E.
Hypothesis T_extends : forall f t, extends f -> T t -> T (f t).
Hypothesis ET_disposal : forall asynchronous,
  hoare (fun s => E s /\ T s.1)
    (disposal cleanup_body async_cleanup_body await_task asynchronous)
    (fun _ s => D s).

Lemma guarded_growing : growing (guarded D E T).
Proof using D_steady E_steady T_extends.
  destruct D_steady as [HD _], E_steady as [HE _].
  split.
  - intros f t w Hf [H|[H1 H2]]; [left|right; split].
    + by apply (growing_tracker _ HD).
    + by apply (growing_tracker _ HE).
    + by apply T_extends.
  - intros h t w [H|[H1 H2]]; [left|right; split; [|done]].
    + by apply (growing_schedule _ HD).
    + by apply (growing_schedule _ HE).
  - intros i t w [H|[H1 H2]]; [left|right; split; [|done]].
    + by apply (growing_cancel _ HD).
    + by apply (growing_cancel _ HE).
  - intros i t w [H|[H1 H2]]; [left|right; split; [|done]].
    + by apply (growing_ran _ HD).
    + by apply (growing_ran _ HE).
  - intros d t w [H|[H1 H2]]; [left|right; split; [|done]].
    + by apply (growing_done _ HD).
    + by apply (growing_done _ HE).
  - intros e t w [H|[H1 H2]]; [left|right; split; [|done]].
    + by apply (growing_log _ HD).
    + by apply (growing_log _ HE).
  - intros t w [H|[H1 H2]]; [left|right; split; [|done]].
    + by apply (growing_new_cell _ HD).
    + by apply (growing_new_cell _ HE).
  - intros c t w [H|[H1 H2]]; [left|right; split; [|done]].
    + by apply (growing_cell_cancel _ HD).
    + by apply (growing_cell_cancel _ HE).
Qed.

(** A disposal, wherever it is called from, ends in [D]. *)
Lemma guarded_disposal asynchronous :
  hoare (guarded D E T)
    (disposal cleanup_body async_cleanup_body await_task asynchronous)
    (fun _ s => D s).
Proof using D_steady ET_disposal.
  intros s [H|H]; [|by apply ET_disposal].
  destruct asynchronous.
  - by apply (holds_dispose_async _ _ _ _ D_steady).
  - by apply (holds_dispose _ _ D_steady).
Qed.

Lemma guarded_run history s :
  guarded D E T s ->
  guarded D E T (run cleanup_body async_cleanup_body await_task history s).
Proof using D_steady E_steady T_extends ET_disposal.
  apply grows_run; [apply guarded_growing | |].
  - intros s' Hs'. left. by apply (guarded_disposal false).
  - intros s' Hs'. left. by apply (guarded_disposal true).
Qed.

End GuardFacts.

Section TimeoutFacts.

Import Tracker Lifecycle.

Variable cleanup_body : nat -> result unit.
Variable async_cleanup_body : nat -> result unit.
Variable await_task : nat -> awaited.

Lemma tracks_timer_extends timer f t :
  extends f -> tracks_timer timer t -> tracks_timer timer (f t).
Proof.
  intros Hf [Hd Hin]. destruct Hf; split; simpl; try done.
  apply elem_of_app. by left.
Qed.


(** [set_timeout] on a live tracker: one new pending handle, appended to
    [_timers], and its cancelling closure appended to
    [_cleanup_functions]. *)
Lemma set_timeout_live cb delay s :
  _disposed s.1 = false ->
  let timer := length (handles s.2) in
  set_timeout cb delay s =
  (Ok timer,
   (append_cleanup (TimerCleanup timer) (append_timer timer s.1),
    set_handles (handles s.2 ++
      [{| th_callback := cb; th_delay := delay;
          th_cancelled := false; th_pending := true |}]) s.2)).
Proof.
  destruct s as [t w]. simpl. intros Hd.
  unfold set_timeout, call_later, track_timer, track, bind, get_world,
    modify_world, modify_tracker, get_tracker, ret. simpl. by rewrite Hd.
Qed.

(** A tracked timer is dead once the tracker is disposed, whatever happens
    in between. *)
Lemma tracked_timer_dead timer before asynchronous s :
  scheduled timer s -> tracks_timer timer s.1 ->
  dead timer
    (disposal cleanup_body async_cleanup_body await_task asynchronous
       (run cleanup_body async_cleanup_body await_task before s)).2.
Proof.
  intros Hs Ht.
  assert (forall b,
    hoare (fun s => scheduled timer s /\ tracks_timer timer s.1)
      (disposal cleanup_body async_cleanup_body await_task b)
      (fun _ s => dead timer s)) as Hdisposal.
  { intros b s' [Hs' [Hd Hin]]. by apply disposal_spends. }
  apply (guarded_disposal cleanup_body async_cleanup_body await_task
           (dead timer) (scheduled timer) (tracks_timer timer)
           (dead_steady timer) Hdisposal).
  apply (guarded_run cleanup_body async_cleanup_body await_task
           (dead timer) (scheduled timer) (tracks_timer timer)
           (dead_steady timer) (scheduled_steady timer)
           (tracks_timer_extends timer) Hdisposal).
  by right.
Qed.

(** X4.  A timeout set on a live tracker never runs after the tracker is
    disposed, by either path and whatever the application and the loop did
    in between and do afterwards: [set_timeout] returns the new handle, and
    from the disposal on the loop passes over it. *)
Theorem timeout_never_runs_after_disposal (cb : callback) (delay : Q)
  (s : State) (before after : list action) (asynchronous : bool)
  (during : list call) (ends : result unit) :
  _disposed s.1 = false ->
  let timer := length (handles s.2) in
  let s1 := (set_timeout cb delay s).2 in
  let s2 := (disposal cleanup_body async_cleanup_body await_task asynchronous
               (run cleanup_body async_cleanup_body await_task before s1)).2 in
  let s3 := run cleanup_body async_cleanup_body await_task after s2 in
  (set_timeout cb delay s).1 = Ok timer /\
  fire cleanup_body async_cleanup_body await_task timer during ends s3
  = (Ok (), s3).
Proof.
  intros Hd timer s1 s2 s3. subst s1 s2 s3.
  rewrite (set_timeout_live cb delay s Hd). fold timer. split; [done|].
  apply dead_forever, tracked_timer_dead; simpl.
  - eexists. split; [|done]. simpl. apply list_lookup_middle. done.
  - split; [done|]. simpl. apply elem_of_app. right. by apply list_elem_of_singleton.
Qed.

(** X5.  The cleanup function that [track_timer] returns on a live
    tracker cancels the handle for good: once it has been called, at any
    later time, no history makes the loop run the handle. *)
Theorem timer_cleanup_cancels_for_good (timer : nat) (s : State)
  (before after : list action) (during : list call) (ends : result unit) :
  scheduled timer s -> _disposed s.1 = false ->
  exists c,
    (track_timer timer s).1 = Ok c /\
    let s1 := run cleanup_body async_cleanup_body await_task before
                (track_timer timer s).2 in
    let s2 := (invoke cleanup_body c s1).2 in
    let s3 := run cleanup_body async_cleanup_body await_task after s2 in
    fire cleanup_body async_cleanup_body await_task timer during ends s3
    = (Ok (), s3).
Proof.
  intros Hs Hd. exists (TimerCleanup timer). split.
  { destruct s as [t w]. simpl in Hd.
    unfold track_timer, track, bind, modify_tracker, get_tracker. simpl.
    by rewrite Hd. }
  intros s1 s2 s3. apply dead_forever, timer_cleanup_spends.
  apply (holds_run _ _ _ _ (scheduled_steady timer)).
  by apply (grows_track_timer _ (steady_growing _ (scheduled_steady timer))).
Qed.

End TimeoutFacts.

Lemma timeout_never_runs_after_disposal_witness :
  let s := (Tracker.new, Tracker.empty_world) in
  let before := [Tracker.Call (Tracker.SetTimeout 3 2%Q)] in
  let after := [Tracker.Fire 1 [] (Ok ())] in
  Tracker._disposed s.1 = false /\
  let s1 := (Tracker.set_timeout (Tracker.UserCallback 7) 1%Q s).2 in
  let s2 := (Tracker.disposal Tracker.quiet Tracker.quiet Tracker.ends_cancelled true
               (Tracker.run Tracker.quiet Tracker.quiet Tracker.ends_cancelled
                  before s1)).2 in
  let s3 := Tracker.run Tracker.quiet Tracker.quiet Tracker.ends_cancelled after s2 in
  (Tracker.set_timeout (Tracker.UserCallback 7) 1%Q s).1 = Ok 0 /\
  Tracker.fire Tracker.quiet Tracker.quiet Tracker.ends_cancelled 0 [] (Ok ()) s3
  = (Ok (), s3).
Proof.
  intros s before after. split; [reflexivity|].
  apply (timeout_never_runs_after_disposal Tracker.quiet Tracker.quiet
           Tracker.ends_cancelled (Tracker.UserCallback 7) 1%Q s before after true
           [] (Ok ())).
  reflexivity.
Defined.

Lemma timer_cleanup_cancels_for_good_witness :
  let s := (Tracker.call_later 1%Q (Tracker.UserCallback 7)
              (Tracker.new, Tracker.empty_world)).2 in
  Lifecycle.scheduled 0 s /\ Tracker._disposed s.1 = false /\
  exists c,
    (Tracker.track_timer 0 s).1 = Ok c /\
    let s1 := Tracker.run Tracker.quiet Tracker.quiet Tracker.ends_cancelled
                [Tracker.TaskFinishes 4] (Tracker.track_timer 0 s).2 in
    let s2 := (Tracker.invoke Tracker.quiet c s1).2 in
    let s3 := Tracker.run Tracker.quiet Tracker.quiet Tracker.ends_cancelled [] s2 in
    Tracker.fire Tracker.quiet Tracker.quiet Tracker.ends_cancelled 0 [] (Ok ()) s3
    = (Ok (), s3).
Proof.
  intros s.
  assert (Lifecycle.scheduled 0 s) as Hs.
  { eexists. split; [reflexivity | exact Logic.I]. }
  split; [exact Hs|]. split; [reflexivity|].
  apply (timer_cleanup_cancels_for_good Tracker.quiet Tracker.quiet
           Tracker.ends_cancelled 0 s [Tracker.TaskFinishes 4] [] [] (Ok ()) Hs).
  reflexivity.
Defined.

(** ** Intervals and disposal *)

Section IntervalFacts.

Import Tracker Lifecycle.

Variable cleanup_body : nat -> result unit.
Variable async_cleanup_body : nat -> result unit.
Variable await_task : nat -> awaited.

Variable cell : nat.

#[local] Abbreviation set := (fun b : bool => b = true).
#[local] Abbreviation any := (fun _ : bool => True).
#[local] Abbreviation quiet_effect :=
  (fun e => is_interval_call cell e = false).


Hypothesis cleanup_quiet : forall id, cleanup_body id <> Raise CancelledError.
Hypothesis async_quiet :
  forall id, async_cleanup_body id <> Raise CancelledError.
Hypothesis alone : forall task, tracked_meanwhile (await_task task) = [].





End IntervalFacts.

Section IntervalLifeFacts.

Import Tracker Lifecycle.

Variable cleanup_body : nat -> result unit.
Variable async_cleanup_body : nat -> result unit.
Variable await_task : nat -> awaited.


(** X7.  A firing of a live interval whose callback returns: the callback
    is called once, and the closure schedules one new pending handle for
    itself through [set_timeout], which appends the handle to [_timers]
    and, on a live tracker, its cancelling closure to
    [_cleanup_functions]; so both lists grow by one with every firing.  On
    a disposed tracker the handle is scheduled and appended to [_timers]
    all the same, before [track] raises into the loop. *)
Theorem interval_firing_reschedules (s : State) (timer cell cb : nat)
  (interval delay : Q) :
  handles s.2 !! timer =
    Some {| th_callback := IntervalCallback cell cb interval;
            th_delay := delay; th_cancelled := false; th_pending := true |} ->
  cells s.2 !! cell = Some false ->
  let s' := (fire cleanup_body async_cleanup_body await_task timer []
               (Ok ()) s).2 in
  let next := length (handles s.2) in
  interval_calls cell s'.2 = interval_calls cell s.2 + 1 /\
  handles s'.2 =
    alter mark_run timer (handles s.2) ++
    [{| th_callback := IntervalCallback cell cb interval;
        th_delay := interval; th_cancelled := false; th_pending := true |}] /\
  cells s'.2 = cells s.2 /\
  _timers s'.1 = _timers s.1 ++ [next] /\
  _cleanup_functions s'.1 =
    _cleanup_functions s.1 ++
    (if _disposed s.1 then [] else [TimerCleanup next]) /\
  _disposed s'.1 = _disposed s.1 /\
  log s'.2 =
    log s.2 ++ [CallbackCall cb (Some cell)] ++
    (if _disposed s.1 then [LoopException disposed_error] else []).
Proof.
  destruct s as [t w]. simpl. intros Hh Hc.
  unfold fire, run_callback, user_callback, cell_cancelled, set_timeout,
    call_later, track_timer, track, try_all, perform, bind, get_world,
    modify_world, modify_tracker, get_tracker, ret, lift, raise.
  simpl. rewrite Hh. simpl. rewrite Hc. simpl.
  rewrite length_alter.
  destruct (_disposed t) eqn:Hd; simpl; rewrite ?Hd;
    unfold interval_calls; simpl;
    rewrite ?List.filter_app, ?length_app; simpl;
    rewrite ?bool_decide_eq_true_2 by done; simpl;
    rewrite ?app_nil_r, <- ?app_assoc; repeat split; try done; lia.
Qed.

(** X8.  A firing of a live interval whose callback raises ends the
    interval: the exception goes to the loop, the closure does not reach
    [set_timeout], so no new handle is scheduled and the tracker is left
    as it was. *)
Theorem interval_callback_failure_ends_interval (s : State)
  (timer cell cb : nat) (interval delay : Q) (e : exn) :
  handles s.2 !! timer =
    Some {| th_callback := IntervalCallback cell cb interval;
            th_delay := delay; th_cancelled := false; th_pending := true |} ->
  cells s.2 !! cell = Some false ->
  let s' := (fire cleanup_body async_cleanup_body await_task timer []
               (Raise e) s).2 in
  s'.1 = s.1 /\
  handles s'.2 = alter mark_run timer (handles s.2) /\
  cells s'.2 = cells s.2 /\
  log s'.2 = log s.2 ++ [CallbackCall cb (Some cell); LoopException e] /\
  forall during ends,
    fire cleanup_body async_cleanup_body await_task timer during ends s'
    = (Ok (), s').
Proof.
  destruct s as [t w]. simpl. intros Hh Hc.
  unfold fire, run_callback, user_callback, cell_cancelled,
    try_all, perform, bind, get_world,
    modify_world, modify_tracker, get_tracker, ret, lift, raise.
  simpl. rewrite Hh. simpl. rewrite Hc. simpl.
  rewrite <- app_assoc. repeat split; try done.
  intros during ends. by rewrite list_lookup_alter_eq, Hh.
Qed.

End IntervalLifeFacts.


Lemma interval_firing_reschedules_witness :
  let s := (Tracker.set_interval 5 1%Q (Tracker.new, Tracker.empty_world)).2 in
  Tracker.handles s.2 !! 0 =
    Some {| Tracker.th_callback := Tracker.IntervalCallback 0 5 1%Q;
            Tracker.th_delay := 1%Q; Tracker.th_cancelled := false;
            Tracker.th_pending := true |} /\
  Tracker.cells s.2 !! 0 = Some false /\
  let s' := (Tracker.fire Tracker.quiet Tracker.quiet Tracker.ends_cancelled 0 []
               (Ok ()) s).2 in
  Tracker.interval_calls 0 s'.2 = 1 /\
  Tracker._timers s'.1 = [0; 1] /\
  Tracker._cleanup_functions s'.1 =
    [Tracker.TimerCleanup 0; Tracker.IntervalCancel 0; Tracker.TimerCleanup 1].
Proof.
  intros s. split; [reflexivity|]. split; [reflexivity|].
  destruct (interval_firing_reschedules Tracker.quiet Tracker.quiet
              Tracker.ends_cancelled s 0 0 5 1%Q 1%Q eq_refl eq_refl)
    as (H1 & _ & _ & H2 & H3 & _).
  intros s'. split; [exact H1|]. split; [exact H2 | exact H3].
Defined.

Lemma interval_callback_failure_ends_interval_witness :
  let s := (Tracker.set_interval 5 1%Q (Tracker.new, Tracker.empty_world)).2 in
  Tracker.handles s.2 !! 0 =
    Some {| Tracker.th_callback := Tracker.IntervalCallback 0 5 1%Q;
            Tracker.th_delay := 1%Q; Tracker.th_cancelled := false;
            Tracker.th_pending := true |} /\
  Tracker.cells s.2 !! 0 = Some false /\
  let s' := (Tracker.fire Tracker.quiet Tracker.quiet Tracker.ends_cancelled 0 []
               (Raise (UserError 9)) s).2 in
  s'.1 = s.1 /\ length (Tracker.handles s'.2) = 1.
Proof.
  intros s. split; [reflexivity|]. split; [reflexivity|].
  destruct (interval_callback_failure_ends_interval Tracker.quiet
              Tracker.quiet Tracker.ends_cancelled s 0 0 5 1%Q 1%Q (UserError 9)
              eq_refl eq_refl)
    as (H1 & H2 & _).
  intros s'. split; [exact H1|]. subst s'. rewrite H2. reflexivity.
Defined.

(** ** Disposables and the context managers *)

Section DisposableFacts.

Import Tracker Lifecycle.

Variable cleanup_body : nat -> result unit.
Variable async_cleanup_body : nat -> result unit.
Variable await_task : nat -> awaited.

Section QuietDisposal.

Hypothesis cleanup_quiet : forall id, cleanup_body id <> Raise CancelledError.
Hypothesis async_quiet :
  forall id, async_cleanup_body id <> Raise CancelledError.
Hypothesis alone : forall task, tracked_meanwhile (await_task task) = [].




End QuietDisposal.

(** X9.  [track_disposable] returns exactly when the object has a
    [dispose] method and the tracker is live, and then it has appended the
    method to [_async_cleanup_functions] when it is a coroutine function
    and to [_cleanup_functions] otherwise, and written nothing else.
    Without the method it raises [ValueError], on a disposed tracker the
    [RuntimeError] of [track]; either way nothing is written. *)
Theorem track_disposable_outcome (d : Disposable) (s : State) :
  match dispose_method d with
  | None =>
      track_disposable d s =
      (Raise (ValueError (lit "Object does not have a dispose method")), s)
  | Some (m, is_coroutine) =>
      if _disposed s.1 then track_disposable d s = (Raise disposed_error, s)
      else if is_coroutine then
        track_disposable d s =
        (Ok (TrackedAsync m), (append_async_cleanup m s.1, s.2))
      else
        track_disposable d s =
        (Ok (TrackedSync (UserCleanup m)),
         (append_cleanup (UserCleanup m) s.1, s.2))
  end.
Proof.
  destruct s as [t w]. unfold track_disposable.
  destruct (dispose_method d) as [[m [|]]|]; [| |done];
    unfold track, track_async, bind, get_tracker, modify_tracker, ret, raise;
    simpl; by destruct (_disposed t).
Qed.


End DisposableFacts.


Section ManagerFacts.

Import Tracker Lifecycle.

Variable cleanup_body : nat -> result unit.
Variable async_cleanup_body : nat -> result unit.
Variable await_task : nat -> awaited.



End ManagerFacts.



(** ** Subscriptions *)

Section SubscriptionFacts.

Import Events Registry.

Implicit Types (m : EventManager) (h : handler) (c : CleanupFunction).

Lemma subscription_tasks_add_handler T h m :
  subscription_tasks (_add_handler T h m).2 =
  subscription_tasks m ++ (if decide (registered T m = []) then [T] else []).
Proof.
  unfold _add_handler, registered, defaultdict_getitem.
  destruct (_handlers m !! T) as [l|]; simpl; [|done].
  destruct l as [|x l]; simpl; [done|].
  rewrite length_app. simpl.
  replace (length l + 1 =? 0) with false
    by (symmetry; apply Nat.eqb_neq; lia).
  simpl. by rewrite app_nil_r.
Qed.

Lemma subscription_tasks_add_handler_call loop_running T h m :
  subscription_tasks (_add_handler_call loop_running T h m).2 =
  subscription_tasks m ++
  (if loop_running && bool_decide (registered T m = []) then [T] else []).
Proof.
  unfold _add_handler_call, registered, defaultdict_getitem.
  destruct (_handlers m !! T) as [[|x l]|]; simpl;
    destruct loop_running; simpl; rewrite ?app_nil_r; try done;
    rewrite length_app; simpl;
    replace (length l + 1 =? 0) with false
      by (symmetry; apply Nat.eqb_neq; lia);
    simpl; by rewrite ?app_nil_r.
Qed.

Lemma subscription_tasks_cleanup c m :
  subscription_tasks (cleanup c m) = subscription_tasks m.
Proof.
  unfold cleanup. destruct (defaultdict_getitem _ _) as [l d].
  destruct (list_remove _ l) as [l'|]; [|done].
  by destruct (length l' =? 0).
Qed.

Lemma subscribed_add_handler T h m :
  subscribed m -> subscribed (_add_handler T h m).2.
Proof.
  intros Hm k Hk. rewrite subscription_tasks_add_handler.
  rewrite registered_add_handler in Hk. apply elem_of_app.
  destruct (decide (k = T)) as [->|Hne]; [|left; by apply Hm].
  destruct (decide (registered T m = [])) as [He|Hne].
  - right. by apply list_elem_of_singleton.
  - left. by apply Hm.
Qed.

Lemma subscribed_cleanup c m : subscribed m -> subscribed (cleanup c m).
Proof.
  intros Hm k Hk. rewrite subscription_tasks_cleanup. apply Hm.
  rewrite registered_cleanup in Hk.
  destruct (decide (k = cleanup_event_type c)) as [->|Hne]; [|done].
  intros He. rewrite He in Hk. simpl in Hk. done.
Qed.

Lemma subscribed_new : subscribed new.
Proof. intros k Hk. unfold registered, new in Hk. simpl in Hk. by rewrite lookup_empty in Hk. Qed.

Section WithDatabase.

Variable alphabetic : N -> bool.

Lemma subscribed_add_handler_call T h m :
  subscribed m -> subscribed (_add_handler_call true T h m).2.
Proof.
  intros Hm. rewrite add_handler_call_running. by apply subscribed_add_handler.
Qed.

Lemma subscribed_on_transcription_for_language language h m :
  subscribed m ->
  subscribed (on_transcription_for_language alphabetic true language h m).2.
Proof.
  intros Hm. unfold on_transcription_for_language,
    Utils.create_transcription_stream.
  destruct (Utils.is_valid_language_code alphabetic language); cbn; [|done].
  set (m1 := match _last_transcription_cleanup m with
             | Some c => cleanup c m
             | None => m
             end).
  assert (subscribed m1) as Hm1.
  { unfold m1. destruct (_last_transcription_cleanup m); [|done].
    by apply subscribed_cleanup. }
  pose proof (subscribed_add_handler_call
                (lit "transcription:" ++ language) h m1 Hm1) as Hadd.
  by destruct (_add_handler_call true _ h m1) as [[c|e] m2].
Qed.

Lemma subscribed_on_translation_for_language source target h m :
  subscribed m ->
  subscribed
    (on_translation_for_language alphabetic true source target h m).2.
Proof.
  intros Hm. unfold on_translation_for_language,
    Utils.create_translation_stream.
  destruct (Utils.is_valid_language_code alphabetic source); cbn; [|done].
  destruct (Utils.is_valid_language_code alphabetic target); cbn; [|done].
  set (m1 := match _last_translation_cleanup m with
             | Some c => cleanup c m
             | None => m
             end).
  assert (subscribed m1) as Hm1.
  { unfold m1. destruct (_last_translation_cleanup m); [|done].
    by apply subscribed_cleanup. }
  pose proof (subscribed_add_handler_call
                (lit "translation:" ++ source ++ lit ":" ++ target) h m1
                Hm1) as Hadd.
  by destruct (_add_handler_call true _ h m1) as [[c|e] m2].
Qed.

Lemma subscribed_apply_operation o m :
  subscribed m -> subscribed (apply_operation alphabetic true o m).
Proof.
  intros Hm. destruct o as [r|T h]; simpl.
  - destruct r; simpl.
    + by apply subscribed_on_transcription_for_language.
    + by apply subscribed_on_transcription_for_language.
    + by apply subscribed_on_translation_for_language.
    + by apply subscribed_add_handler_call.
    + unfold on_custom_message_call. by apply subscribed_add_handler_call.
    + by apply subscribed_cleanup.
  - by apply subscribed_add_handler_call.
Qed.

Lemma tasks_grow_add_handler_call loop_running T h m :
  subscription_tasks m `prefix_of`
  subscription_tasks (_add_handler_call loop_running T h m).2.
Proof. rewrite subscription_tasks_add_handler_call. by apply prefix_app_r. Qed.

Lemma tasks_grow_on_transcription_for_language loop_running language h m :
  subscription_tasks m `prefix_of`
  subscription_tasks
    (on_transcription_for_language alphabetic loop_running language h m).2.
Proof.
  unfold on_transcription_for_language, Utils.create_transcription_stream.
  destruct (Utils.is_valid_language_code alphabetic language); cbn; [|done].
  set (m1 := match _last_transcription_cleanup m with
             | Some c => cleanup c m
             | None => m
             end).
  assert (subscription_tasks m1 = subscription_tasks m) as Hm1.
  { unfold m1. destruct (_last_transcription_cleanup m); [|done].
    apply subscription_tasks_cleanup. }
  pose proof (tasks_grow_add_handler_call loop_running
                (lit "transcription:" ++ language) h m1) as Hadd.
  rewrite Hm1 in Hadd.
  by destruct (_add_handler_call loop_running _ h m1) as [[c|e] m2].
Qed.

Lemma tasks_grow_on_translation_for_language loop_running source target h m :
  subscription_tasks m `prefix_of`
  subscription_tasks
    (on_translation_for_language alphabetic loop_running source target h m).2.
Proof.
  unfold on_translation_for_language, Utils.create_translation_stream.
  destruct (Utils.is_valid_language_code alphabetic source); cbn; [|done].
  destruct (Utils.is_valid_language_code alphabetic target); cbn; [|done].
  set (m1 := match _last_translation_cleanup m with
             | Some c => cleanup c m
             | None => m
             end).
  assert (subscription_tasks m1 = subscription_tasks m) as Hm1.
  { unfold m1. destruct (_last_translation_cleanup m); [|done].
    apply subscription_tasks_cleanup. }
  pose proof (tasks_grow_add_handler_call loop_running
                (lit "translation:" ++ source ++ lit ":" ++ target) h m1)
    as Hadd.
  rewrite Hm1 in Hadd.
  by destruct (_add_handler_call loop_running _ h m1) as [[c|e] m2].
Qed.

Lemma tasks_grow_apply_operation loop_running o m :
  subscription_tasks m `prefix_of`
  subscription_tasks (apply_operation alphabetic loop_running o m).
Proof.
  destruct o as [r|T h]; simpl.
  - destruct r; simpl.
    + apply tasks_grow_on_transcription_for_language.
    + apply tasks_grow_on_transcription_for_language.
    + apply tasks_grow_on_translation_for_language.
    + apply tasks_grow_add_handler_call.
    + unfold on_custom_message_call.
      apply (tasks_grow_add_handler_call _ _ _ (allocate_closure m)).
    + by rewrite subscription_tasks_cleanup.
  - apply tasks_grow_add_handler_call.
Qed.

(** X13.  Subscriptions follow registrations and are never taken back.
    [_add_handler] creates a subscription task exactly when the event type
    had no handler before and an event loop is running, so also each time
    a list that was emptied is filled again; where no loop is running it
    creates none.  A cleanup function creates and removes none.  After
    any history of registrations and cleanups made under a running loop
    on a new manager, every event type that has a handler has a
    subscription task; and every operation, with or without a running
    loop, only adds to the tasks created so far. *)
Theorem subscriptions_follow_registrations (history : list operation) :
  (forall loop_running T h m,
     subscription_tasks (_add_handler_call loop_running T h m).2 =
     subscription_tasks m ++
     (if loop_running && bool_decide (registered T m = [])
      then [T] else [])) /\
  (forall c m, subscription_tasks (cleanup c m) = subscription_tasks m) /\
  subscribed (apply_all alphabetic true history new) /\
  (forall loop_running o m,
     subscription_tasks m `prefix_of`
     subscription_tasks (apply_operation alphabetic loop_running o m)).
Proof.
  split; [apply subscription_tasks_add_handler_call|].
  split; [apply subscription_tasks_cleanup|].
  split; [|intros b o m; apply tasks_grow_apply_operation].
  unfold apply_all. generalize subscribed_new. generalize new.
  induction history as [|o history IH]; intros m Hm; [done|].
  simpl. apply IH. by apply subscribed_apply_operation.
Qed.

End WithDatabase.

End SubscriptionFacts.

(** ** The translation slot *)

Section TranslationSlotFacts.

Import Events Registry.

Implicit Types (m : EventManager) (h : handler) (c : CleanupFunction).

Lemma transcription_not_translation (s : str) :
  ~ is_translation_stream (lit "transcription:" ++ s).
Proof. intros [l Hl]. vm_compute in Hl. discriminate. Qed.

Lemma button_press_not_translation :
  ~ is_translation_stream (lit "button_press").
Proof. intros [l Hl]. vm_compute in Hl. discriminate. Qed.

Lemma custom_message_not_translation :
  ~ is_translation_stream (lit "custom_message").
Proof. intros [l Hl]. vm_compute in Hl. discriminate. Qed.

Lemma translation_slot_new : single_translation_slot new.
Proof.
  intros k h _ Hh. unfold registered, new in Hh; simpl in Hh.
  rewrite lookup_empty in Hh. by apply not_elem_of_nil in Hh.
Qed.

Lemma translation_slot_cleanup c m :
  single_translation_slot m -> single_translation_slot (cleanup c m).
Proof.
  intros Hm k h Hk Hh. rewrite cleanup_last_translation.
  rewrite registered_cleanup in Hh |- *.
  destruct (decide (k = cleanup_event_type c)) as [->|Hne]; [|by apply Hm].
  destruct (list_remove (cleanup_handler c) (registered _ m)) as [l'|] eqn:Hr;
    simpl in *; [|by apply Hm].
  pose proof (list_remove_sublist _ _ _ Hr h Hh) as Hin.
  destruct (Hm _ _ Hk Hin) as [Hlast Hl]. rewrite Hl in Hr. simpl in Hr.
  destruct (decide (h = cleanup_handler c)); [|done].
  inversion Hr; subst. by apply not_elem_of_nil in Hh.
Qed.

Lemma translation_slot_add_other T h m :
  ~ is_translation_stream T ->
  single_translation_slot m -> single_translation_slot (_add_handler T h m).2.
Proof.
  intros HT Hm k h' Hk Hh. rewrite add_handler_last_translation.
  rewrite registered_add_handler in Hh |- *.
  destruct (decide (k = T)) as [->|Hne]; [done | by apply Hm].
Qed.

Lemma stored_translation_cleanup_empties m k :
  single_translation_slot m -> is_translation_stream k ->
  registered k (match _last_translation_cleanup m with
                | Some c => cleanup c m
                | None => m
                end) = [].
Proof.
  intros Hm Hk.
  destruct (registered k m) as [|h l] eqn:Hl.
  - destruct (_last_translation_cleanup m) as [c|]; [|done].
    rewrite registered_cleanup, Hl. by destruct (decide _).
  - destruct (Hm k h Hk) as [Hlast Hone].
    { rewrite Hl. by left. }
    rewrite Hlast, registered_cleanup. simpl.
    rewrite decide_True, Hone by done. simpl.
    by rewrite decide_True.
Qed.

Section WithDatabase.

Variable alphabetic : N -> bool.

Lemma translation_slot_on_translation_for_language source target h m :
  single_translation_slot m ->
  single_translation_slot
    (on_translation_for_language alphabetic true source target h m).2.
Proof.
  intros Hm. unfold on_translation_for_language,
    Utils.create_translation_stream.
  destruct (Utils.is_valid_language_code alphabetic source); cbn; [|done].
  destruct (Utils.is_valid_language_code alphabetic target); cbn; [|done].
  set (m1 := match _last_translation_cleanup m with
             | Some c => cleanup c m
             | None => m
             end).
  set (T := lit "translation:" ++ source ++ lit ":" ++ target).
  assert (is_translation_stream T) as HT by by eexists.
  rewrite add_handler_call_running.
  pose proof (add_handler_token T h m1) as Hc.
  pose proof (registered_add_handler T h m1) as Hr.
  destruct (_add_handler T h m1) as [c m2]. simpl in *. subst c.
  intros k h' Hk Hh.
  change (registered k (set_last_translation_cleanup
            (Some {| cleanup_event_type := T; cleanup_handler := h |}) m2))
    with (registered k m2) in *.
  rewrite Hr in Hh |- *. unfold m1 in *.
  destruct (decide (k = T)) as [->|Hne].
  - rewrite stored_translation_cleanup_empties in Hh |- * by done.
    simpl in *. apply list_elem_of_singleton in Hh as ->. done.
  - rewrite stored_translation_cleanup_empties in Hh by done.
    by apply not_elem_of_nil in Hh.
Qed.

Lemma translation_slot_on_transcription_for_language language h m :
  single_translation_slot m ->
  single_translation_slot
    (on_transcription_for_language alphabetic true language h m).2.
Proof.
  intros Hm. unfold on_transcription_for_language,
    Utils.create_transcription_stream.
  destruct (Utils.is_valid_language_code alphabetic language); cbn; [|done].
  set (m1 := match _last_transcription_cleanup m with
             | Some c => cleanup c m
             | None => m
             end).
  assert (single_translation_slot m1) as Hm1.
  { unfold m1. destruct (_last_transcription_cleanup m); [|done].
    by apply translation_slot_cleanup. }
  set (T := lit "transcription:" ++ language).
  pose proof (translation_slot_add_other T h m1
                (transcription_not_translation _) Hm1) as Hadd.
  rewrite add_handler_call_running.
  destruct (_add_handler T h m1) as [c m2]. simpl in *.
  exact Hadd.
Qed.

Lemma translation_slot_serve r m :
  single_translation_slot m ->
  single_translation_slot (serve alphabetic true r m).
Proof.
  intros Hm. destruct r; simpl.
  - by apply translation_slot_on_transcription_for_language.
  - by apply translation_slot_on_transcription_for_language.
  - by apply translation_slot_on_translation_for_language.
  - unfold on_button_press. rewrite add_handler_call_running.
    by apply translation_slot_add_other;
      [apply button_press_not_translation|].
  - unfold on_custom_message_call. rewrite add_handler_call_running.
    by apply translation_slot_add_other;
      [apply custom_message_not_translation|].
  - by apply translation_slot_cleanup.
Qed.

Lemma translation_slot_serve_all rs m :
  single_translation_slot m ->
  single_translation_slot (serve_all alphabetic true rs m).
Proof.
  revert m. induction rs as [|r rs IH]; simpl; intros m Hm; [done|].
  apply IH. by apply translation_slot_serve.
Qed.

(** X14.  [on_translation_for_language] checks the source code, then the
    target code, and raises [ValueError] without touching the manager
    when one is not valid, with or without a running event loop;
    otherwise, called while an event loop is running, it invokes the
    stored translation cleanup function, if there is one, registers the
    handler for ["translation:" + source + ":" + target] and stores the
    new cleanup function.  After any history of registrations through
    the typed methods and of cleanup invocations, all made under a
    running loop on a new manager, at most one handler is registered over
    all translation streams, whatever the transcription registrations in
    between. *)
Theorem translation_rebinding (loop_running : bool) (source target : str) h m
  (history : list request) :
  match Utils.is_valid_language_code alphabetic source,
        Utils.is_valid_language_code alphabetic target with
  | false, _ =>
      on_translation_for_language alphabetic loop_running source target h m =
      (Raise (ValueError (lit "Invalid source language code: " ++ source)), m)
  | true, false =>
      on_translation_for_language alphabetic loop_running source target h m =
      (Raise (ValueError (lit "Invalid target language code: " ++ target)), m)
  | true, true =>
      on_translation_for_language alphabetic true source target h m =
      let m1 := match _last_translation_cleanup m with
                | Some c => cleanup c m
                | None => m
                end in
      let r := _add_handler
                 (lit "translation:" ++ source ++ lit ":" ++ target) h m1 in
      (Ok r.1, set_last_translation_cleanup (Some r.1) r.2)
  end /\
  (forall k1 k2 i1 i2 h1 h2,
     is_translation_stream k1 -> is_translation_stream k2 ->
     registered k1 (serve_all alphabetic true history new) !! i1 = Some h1 ->
     registered k2 (serve_all alphabetic true history new) !! i2 = Some h2 ->
     k1 = k2 /\ i1 = i2 /\ h1 = h2).
Proof.
  split.
  - unfold on_translation_for_language, Utils.create_translation_stream.
    destruct (Utils.is_valid_language_code alphabetic source); [|done].
    destruct (Utils.is_valid_language_code alphabetic target); [|done].
    simpl. by rewrite add_handler_call_running.
  - pose proof (translation_slot_serve_all history new translation_slot_new)
      as Hs.
    intros k1 k2 i1 i2 h1 h2 Hk1 Hk2 H1 H2.
    destruct (Hs k1 h1 Hk1) as [Hl1 Ho1].
    { by eapply list_elem_of_lookup_2. }
    destruct (Hs k2 h2 Hk2) as [Hl2 Ho2].
    { by eapply list_elem_of_lookup_2. }
    rewrite Hl1 in Hl2. inversion Hl2; subst.
    rewrite Ho1 in H1, H2.
    destruct i1 as [|i1]; [|by destruct i1].
    destruct i2 as [|i2]; [|by destruct i2].
    done.
Qed.

End WithDatabase.

Lemma translation_rebinding_witness :
  let history :=
    [OnTranslationForLanguage (lit "es-ES") (lit "en-US") (User f0);
     OnTranscriptionForLanguage (lit "fr-FR") (User f2);
     OnTranslationForLanguage (lit "de") (lit "en") (User f1)] in
  let m := serve_all Utils.ascii_letter true history new in
  registered (lit "translation:es-ES:en-US") m = [] /\
  registered (lit "translation:de:en") m = [User f1] /\
  (forall k i h, is_translation_stream k ->
     registered k m !! i = Some h ->
     k = lit "translation:de:en" /\ i = 0 /\ h = User f1).
Proof.
  intros history m.
  split; [reflexivity|split; [reflexivity|]].
  intros k i h Hk Hh.
  destruct (translation_rebinding Utils.ascii_letter true (lit "de")
              (lit "en") (User f1) m history) as (_ & Hone).
  destruct (Hone k (lit "translation:de:en") i 0 h (User f1))
    as (-> & -> & ->); try done.
  by exists (lit "de:en").
Defined.

End TranslationSlotFacts.

(** ** What an emission depends on *)

Section EmissionFacts.

Import Events Registry.

Implicit Types (m : EventManager) (h : handler) (c : CleanupFunction).

Variable body : function -> value -> result unit.

Lemma emit_registered T data m :
  emit body T data m =
  match registered T m with
  | [] => {| executed := []; results := []; logged := []; outcome := Ok () |}
  | l =>
      {| executed :=
           concat ((fun h => (complete body (schedule h data)).1) <$> l);
         results := (fun h => (complete body (schedule h data)).2) <$> l;
         logged := []; outcome := Ok () |}
  end.
Proof.
  unfold emit, registered.
  destruct (_handlers m !! T) as [l|]; simpl; [|done].
  destruct l as [|h l]; simpl; [done|].
  f_equal; f_equal; by rewrite <- !list_fmap_compose.
Qed.

(** X15.  An emission depends on the manager only through the list of
    handlers registered for the event type: two managers with the same
    list give the same emission, also when one of them has no entry for
    the event type and the other an entry with an empty list, as a cleanup
    function can leave behind. *)
Theorem emit_depends_on_registered (T : str) (data : value) m m' :
  registered T m = registered T m' ->
  emit body T data m = emit body T data m'.
Proof. intros H. by rewrite !emit_registered, H. Qed.

(** X16.  Registrations and cleanups for one event type leave the
    emissions for every other event type as they were. *)
Theorem emit_unaffected_by_other_event_types (T T' : str) (data : value)
  h c m :
  T' <> T -> cleanup_event_type c <> T ->
  emit body T data (_add_handler T' h m).2 = emit body T data m /\
  emit body T data (cleanup c m) = emit body T data m.
Proof.
  intros HT Hc. split.
  - rewrite !emit_registered, registered_add_handler.
    by rewrite decide_False by done.
  - rewrite !emit_registered, registered_cleanup.
    by rewrite decide_False by done.
Qed.

(** *** Custom messages *)

Lemma registered_on_custom_message action f m k :
  registered k (on_custom_message action f m).2 =
  if decide (k = lit "custom_message")
  then registered k m ++ [MessageHandler (closures m) action f]
  else registered k m.
Proof.
  unfold on_custom_message.
  rewrite (registered_add_handler _ _ (allocate_closure m) k).
  by destruct (decide _) as [->|].
Qed.

Lemma body_executions_message_handler id action f a payload :
  List.filter is_body_execution
    (complete body
       (schedule (MessageHandler id action f) (VCustomMessage a payload))).1
  = if reaches a (action, f) then [(User f, payload)] else [].
Proof.
  unfold reaches, schedule, complete, call, call_function, run_body. simpl.
  destruct (decide (a = action)) as [->|Hne].
  - rewrite bool_decide_eq_true_2 by done. simpl.
    by destruct (is_coroutine_function f).
  - rewrite bool_decide_eq_false_2 by congruence. done.
Qed.

(** In the order the model lists the executions in. *)
Lemma custom_message_executions (registrations : list (str * function))
  (a : str) (p : value) m :
  let message := VCustomMessage a p in
  List.filter is_body_execution
    (executed (emit body (lit "custom_message") message
                 (register_all registrations m)))
  = List.filter is_body_execution
      (executed (emit body (lit "custom_message") message m)) ++
    ((fun r => (User r.2, p)) <$> List.filter (reaches a) registrations).
Proof.
  intros message. revert m.
  induction registrations as [|[action f] registrations IH]; intros m.
  { simpl. by rewrite app_nil_r. }
  change (register_all ((action, f) :: registrations) m)
    with (register_all registrations (on_custom_message action f m).2).
  rewrite IH. rewrite !emit_executed.
  rewrite registered_on_custom_message, decide_True by done.
  rewrite fmap_app, concat_app, List.filter_app, <- app_assoc. f_equal.
  change (concat (?g <$> [?x])) with (g x ++ []). rewrite app_nil_r.
  subst message.
  rewrite (body_executions_message_handler (closures m) action f a p).
  cbn [List.filter]. by destruct (reaches a (action, f)).
Qed.

(** X17.  What a custom message reaches: with handlers registered through
    [on_custom_message], emitting a message with action [a] and payload
    [p] on ["custom_message"] runs, besides what the handlers registered
    before run, the bodies of exactly the plain functions registered for
    [a], once per registration, each on [p]; functions registered for
    other actions do not run, and neither do coroutine functions, whose
    coroutine is returned to the executor and not awaited.  The bodies
    run on the thread pool, in no order that the registrations determine:
    the executions are the same up to their order. *)
Theorem custom_message_dispatch (registrations : list (str * function))
  (a : str) (p : value) m :
  let message := VCustomMessage a p in
  List.filter is_body_execution
    (executed (emit body (lit "custom_message") message
                 (register_all registrations m)))
  ≡ₚ List.filter is_body_execution
       (executed (emit body (lit "custom_message") message m)) ++
     ((fun r => (User r.2, p)) <$> List.filter (reaches a) registrations).
Proof. intros message. subst message. by rewrite custom_message_executions. Qed.

End EmissionFacts.

Lemma emit_depends_on_registered_witness :
  let T := lit "button_press" in
  let m := Events.cleanup
             {| Events.cleanup_event_type := T;
                Events.cleanup_handler := Events.User Events.f0 |}
             Events.new in
  Events._handlers m !! T = Some [] /\
  Events._handlers Events.new !! T = None /\
  Events.emit (fun _ _ => Ok ()) T Events.VNone m =
  Events.emit (fun _ _ => Ok ()) T Events.VNone Events.new.
Proof.
  intros T m. split; [reflexivity|]. split; [reflexivity|].
  apply (emit_depends_on_registered (fun _ _ => Ok ()) T Events.VNone m
           Events.new).
  reflexivity.
Defined.

Lemma emit_unaffected_by_other_event_types_witness :
  let T := lit "button_press" in
  let T' := lit "custom_message" in
  let c := {| Events.cleanup_event_type := T';
              Events.cleanup_handler := Events.User Events.f1 |} in
  let m := (Events.on T (Events.User Events.f0) Events.new).2 in
  T' <> T /\
  Events.emit (fun _ _ => Ok ()) T Events.VNone
    (Events._add_handler T' (Events.User Events.f1) m).2
  = Events.emit (fun _ _ => Ok ()) T Events.VNone m /\
  Events.emit (fun _ _ => Ok ()) T Events.VNone (Events.cleanup c m)
  = Events.emit (fun _ _ => Ok ()) T Events.VNone m.
Proof.
  intros T T' c m.
  assert (T' <> T) as H by (vm_compute; discriminate).
  split; [exact H|].
  exact (emit_unaffected_by_other_event_types (fun _ _ => Ok ()) T T'
           Events.VNone (Events.User Events.f1) c m H H).
Defined.

(** ** The closure of [on_setting_change] *)

Section SettingFacts.

Import Events Settings.

Variable body : function -> value -> value -> result unit.

Lemma settings_handler_keeps_previous key handler previous settings :
  previous_value_after (settings_handler body key handler previous settings)
  = previous.
Proof.
  unfold settings_handler. destruct (find_setting key settings); [|done].
  destruct (decide _); [done|]. by destruct (is_coroutine_function handler).
Qed.

(** X18.  The closure of [on_setting_change] never updates its
    [previous_value]: over any sequence of events, the handler is called
    at every event whose first setting with the key has a value other
    than [None], also when that value is the one of the event before, and
    its second argument is [None] every time; a coroutine function's body
    never runs. *)
Theorem setting_change_previous_value_stays_none (key : str)
  (handler : function) (events : list (list Setting)) :
  let calls := deliver body key handler VNone events in
  handler_call <$> calls =
    (fun settings =>
       match find_setting key settings with
       | Some setting =>
           if decide (setting_value setting = VNone) then None
           else Some (setting_value setting, VNone)
       | None => None
       end) <$> events /\
  Forall (fun c => previous_value_after c = VNone) calls /\
  Forall (fun c => handler_ran c =
                   bool_decide (is_Some (handler_call c)) &&
                   negb (is_coroutine_function handler)) calls.
Proof.
  induction events as [|settings events IH]; [done|].
  cbn [deliver]. rewrite settings_handler_keeps_previous.
  destruct IH as (IH1 & IH2 & IH3).
  split; [|split].
  - rewrite !fmap_cons. f_equal; [|exact IH1].
    unfold settings_handler. destruct (find_setting key settings); [|done].
    destruct (decide _); [done|]. by destruct (is_coroutine_function handler).
  - constructor; [|exact IH2]. apply settings_handler_keeps_previous.
  - constructor; [|exact IH3].
    unfold settings_handler. destruct (find_setting key settings); [|done].
    destruct (decide _); [done|]. by destruct (is_coroutine_function handler).
Qed.

End SettingFacts.

(** ** Registering and taking back *)

Section RoundTripFacts.

Import Events Registry.

Implicit Types (m : EventManager) (h : handler) (c : CleanupFunction).

(** X19.  A cleanup function removes the first occurrence of its handler
    in the list of its event type, which is the oldest registration of
    that handler and not necessarily the one the cleanup function was
    returned for; the handlers around it keep their order. *)
Theorem cleanup_removes_first_occurrence c m (l1 l2 : list handler) :
  registered (cleanup_event_type c) m = l1 ++ cleanup_handler c :: l2 ->
  cleanup_handler c ∉ l1 ->
  registered (cleanup_event_type c) (cleanup c m) = l1 ++ l2.
Proof.
  intros Hl Hnot. rewrite registered_cleanup, decide_True by done.
  by rewrite Hl, list_remove_first.
Qed.

(** X20.  Registering a handler that is not yet in the list of the event
    type and invoking the returned cleanup function at once leaves the
    handlers of every event type as they were, and the event type without
    an entry if it had no handler; the subscription task that the
    registration created stays.  The registration returns no cleanup
    function only for a first handler where no event loop is running:
    the handler is then registered, with no subscription task and nothing
    to take it back with. *)
Theorem register_then_cleanup (loop_running : bool) (T : str) h m :
  h ∉ registered T m ->
  match on_call loop_running T h m with
  | (Ok c, m1) =>
      let m' := cleanup c m1 in
      (forall k, registered k m' = registered k m) /\
      (registered T m = [] -> _handlers m' !! T = None) /\
      subscription_tasks m' =
        subscription_tasks m ++
        (if loop_running && bool_decide (registered T m = [])
         then [T] else [])
  | (Raise e, m1) =>
      loop_running = false /\ registered T m = [] /\
      e = no_running_loop /\
      registered T m1 = [h] /\
      subscription_tasks m1 = subscription_tasks m
  end.
Proof.
  intros Hnot. unfold on_call.
  pose proof (add_handler_call_result loop_running T h m) as Hres.
  pose proof (registered_add_handler_call loop_running T h m) as Hreg.
  pose proof (subscription_tasks_add_handler_call loop_running T h m) as Hsub.
  assert (registered T m = [] ->
          _handlers (_add_handler_call loop_running T h m).2 !! T = Some [h])
    as Hentry.
  { clear. unfold registered, _add_handler_call, defaultdict_getitem.
    destruct (_handlers m !! T) as [l|]; simpl; intros He; subst; simpl;
      destruct loop_running; simpl; by rewrite lookup_insert_eq. }
  destruct (_add_handler_call loop_running T h m) as [[c|e] m1];
    simpl in Hres, Hreg, Hsub, Hentry.
  - assert (c = {| cleanup_event_type := T; cleanup_handler := h |}) as ->.
    { destruct (negb loop_running && _); congruence. }
    cbv zeta. split; [|split].
    + intros k. rewrite registered_cleanup, !Hreg. simpl.
      destruct (decide (k = T)) as [->|Hne]; [|done].
      by rewrite list_remove_last.
    + intros He. specialize (Hentry He). unfold cleanup, defaultdict_getitem.
      simpl. rewrite Hentry. simpl. rewrite decide_True by done. simpl.
      by rewrite lookup_delete_eq.
    + by rewrite subscription_tasks_cleanup.
  - destruct loop_running; [done|]. simpl in Hres, Hsub.
    destruct (bool_decide (registered T m = [])) eqn:He; [|done].
    apply bool_decide_eq_true in He.
    split; [done|]. split; [done|]. split; [congruence|].
    split; [|by rewrite Hsub, app_nil_r].
    by rewrite Hreg, decide_True, He.
Qed.

End RoundTripFacts.

Lemma cleanup_removes_first_occurrence_witness :
  let T := lit "button_press" in
  let h := Events.User Events.f0 in
  let g := Events.User Events.f1 in
  let m := (Events.on T h (Events.on T g (Events.on T h Events.new).2).2).2 in
  let c := (Events.on T h (Events.on T g (Events.on T h Events.new).2).2).1 in
  Events.registered (Events.cleanup_event_type c) m
    = [] ++ Events.cleanup_handler c :: [g; h] /\
  (Events.cleanup_handler c ∉ ([] : list Events.handler)) /\
  Events.registered (Events.cleanup_event_type c) (Events.cleanup c m)
    = [g; h].
Proof.
  intros T h g m c.
  assert (Events.cleanup_handler c ∉ ([] : list Events.handler)) as Hnot
    by apply not_elem_of_nil.
  split; [reflexivity|]. split; [exact Hnot|].
  exact (cleanup_removes_first_occurrence c m [] [g; h] eq_refl Hnot).
Defined.

Lemma register_then_cleanup_witness :
  let T := lit "button_press" in
  let h := Events.User Events.f0 in
  let m := Events.new in
  (h ∉ Events.registered T m) /\
  (let r := Events.on_call true T h m in
   exists c, r.1 = Ok c /\
     let m' := Events.cleanup c r.2 in
     (forall k, Events.registered k m' = Events.registered k m) /\
     Events._handlers m' !! T = None /\
     Events.subscription_tasks m' = [T]) /\
  (let r := Events.on_call false T h m in
   r.1 = Raise Events.no_running_loop /\
   Events.registered T r.2 = [h] /\
   Events.subscription_tasks r.2 = []).
Proof.
  intros T h m.
  assert (h ∉ Events.registered T m) as Hnot by apply not_elem_of_nil.
  split; [exact Hnot|]. split.
  - pose proof (register_then_cleanup true T h m Hnot) as H.
    destruct (Events.on_call true T h m) as [[c|e] m1] eqn:E.
    + exists c. split; [reflexivity|].
      destruct H as (H1 & H2 & H3). intros m'.
      split; [exact H1|]. split; [apply H2; reflexivity | exact H3].
    + destruct H as [H _]. discriminate H.
  - pose proof (register_then_cleanup false T h m Hnot) as H.
    destruct (Events.on_call false T h m) as [[c|e] m1] eqn:E.
    + vm_compute in E. discriminate E.
    + destruct H as (_ & _ & -> & H4 & H5). intros r.
      split; [reflexivity|]. split; [exact H4 | exact H5].
Defined.

(** ** Disposal and the tracked tasks *)


Section TaskFacts.

Import Tracker Lifecycle.

Variable cleanup_body : nat -> result unit.
Variable async_cleanup_body : nat -> result unit.
Variable await_task : nat -> awaited.







Section QuietTasks.

Hypothesis cleanup_quiet : forall id, cleanup_body id <> Raise CancelledError.
Hypothesis async_quiet :
  forall id, async_cleanup_body id <> Raise CancelledError.
Hypothesis alone : forall task, tracked_meanwhile (await_task task) = [].






End QuietTasks.


End TaskFacts.

